(** * modfile: the go.mod decoder and editor of vgop (modfile/rule.go)

    A shallow embedding of [rule.go].  Strings are byte strings, as in Go.
    Objects reached through a pointer and shared between the typed records
    and the syntax tree (the [*Line] values) live in a store indexed by
    addresses; an operation of the [File] receiver is a function from
    [File] to [File].  A Go run-time panic is the result [None]. *)

From Stdlib Require Import Ascii String ZArith Sorted Permutation.
From stdpp Require Import gmap strings list fin_maps.

Open Scope string_scope.
Open Scope list_scope.

(** ** Go string primitives *)

Module GoString.

(** [s[n:]] for [n <= len(s)]. *)
Fixpoint skip (n : nat) (s : string) : string :=
  match n, s with
  | O, _ => s
  | S n', String _ s' => skip n' s'
  | S _, EmptyString => EmptyString
  end.

(** [s[i]]; the callers guard the index by [len(s)]. *)
Definition at_ (s : string) (i : nat) : ascii :=
  match String.get i s with Some c => c | None => "000"%char end.

Definition byte_leb (a b : ascii) : bool := (N_of_ascii a <=? N_of_ascii b)%N.

Definition byte_eqb (a b : ascii) : bool := Ascii.eqb a b.

(** [strings.HasPrefix(s, p)]. *)
Fixpoint HasPrefix (s p : string) {struct p} : bool :=
  match p, s with
  | EmptyString, _ => true
  | String a p', String b s' => Ascii.eqb a b && HasPrefix s' p'
  | String _ _, EmptyString => false
  end.

(** [strings.Contains(s, sub)]. *)
Fixpoint Contains (s sub : string) : bool :=
  HasPrefix s sub ||
  match s with
  | EmptyString => false
  | String _ s' => Contains s' sub
  end.

Fixpoint mem_byte (c : ascii) (chars : string) : bool :=
  match chars with
  | EmptyString => false
  | String d chars' => Ascii.eqb c d || mem_byte c chars'
  end.

(** [strings.ContainsAny(s, chars)] for a set [chars] of ASCII characters:
    a byte of a multi-byte UTF-8 sequence is never an ASCII byte. *)
Fixpoint ContainsAny (s chars : string) : bool :=
  match s with
  | EmptyString => false
  | String c s' => mem_byte c chars || ContainsAny s' chars
  end.

(** [strings.LastIndex(s, sep)], computed on the suffix of [s] that starts
    at offset [i]: the largest offset at which [sep] occurs, or -1. *)
Fixpoint LastIndex_from (i : Z) (s sep : string) : Z :=
  match s with
  | EmptyString => if HasPrefix EmptyString sep then i else (-1)%Z
  | String _ s' =>
      let r := LastIndex_from (i + 1) s' sep in
      if (0 <=? r)%Z then r
      else if HasPrefix s sep then i else (-1)%Z
  end.

Definition LastIndex (s sep : string) : Z := LastIndex_from 0 s sep.

(** The string made of the one byte with code [n]. *)
Definition of_code (n : nat) : string := String (ascii_of_nat n) EmptyString.

(** The double quote, the single quote and the back quote. *)
Definition dquote : ascii := ascii_of_nat 34.
Definition squote : ascii := ascii_of_nat 39.
Definition bquote : ascii := ascii_of_nat 96.

(** Go's [range] over a string yields the runes of its UTF-8 encoding; a
    byte that starts no valid encoding yields U+FFFD and is one byte wide. *)
Definition RuneError : N := 65533%N.

Definition cont (b : ascii) : bool :=
  (128 <=? N_of_ascii b)%N && (N_of_ascii b <=? 191)%N.

Definition in_range (lo hi : N) (b : ascii) : bool :=
  (lo <=? N_of_ascii b)%N && (N_of_ascii b <=? hi)%N.

Definition low6 (b : ascii) : N := N.land (N_of_ascii b) 63.

Fixpoint runes (s : string) : list N :=
  match s with
  | EmptyString => []
  | String b0 s1 =>
      let n0 := N_of_ascii b0 in
      if (n0 <? 128)%N then n0 :: runes s1
      else
        match s1 with
        | EmptyString => [RuneError]
        | String b1 s2 =>
            if in_range 194 223 b0 then
              if cont b1 then (N.lor (N.shiftl (N.land n0 31) 6) (low6 b1)) :: runes s2
              else RuneError :: runes s1
            else
              match s2 with
              | EmptyString => RuneError :: runes s1
              | String b2 s3 =>
                  if in_range 224 239 b0 then
                    let lo := if (n0 =? 224)%N then 160%N else 128%N in
                    let hi := if (n0 =? 237)%N then 159%N else 191%N in
                    if in_range lo hi b1 && cont b2 then
                      (N.lor (N.shiftl (N.land n0 15) 12)
                         (N.lor (N.shiftl (low6 b1) 6) (low6 b2))) :: runes s3
                    else RuneError :: runes s1
                  else
                    match s3 with
                    | EmptyString => RuneError :: runes s1
                    | String b3 s4 =>
                        if in_range 240 244 b0 then
                          let lo := if (n0 =? 240)%N then 144%N else 128%N in
                          let hi := if (n0 =? 244)%N then 143%N else 191%N in
                          if in_range lo hi b1 && cont b2 && cont b3 then
                            (N.lor (N.shiftl (N.land n0 7) 18)
                               (N.lor (N.shiftl (low6 b1) 12)
                                  (N.lor (N.shiftl (low6 b2) 6) (low6 b3)))) :: runes s4
                          else RuneError :: runes s1
                        else RuneError :: runes s1
                    end
              end
        end
  end.

End GoString.

Import GoString.

(** ** Results and diagnostics *)

(** A Go [error] value, by its message. *)
Definition error := string.

(** [(T, error)] results. *)
Inductive result (A : Type) : Type :=
| Ok (a : A)
| Err (e : error).
Arguments Ok {A} a.
Arguments Err {A} e.

(** ** The collaborators of rule.go

    Packages [semver] and [module], file [gopkgin.go] and the Go standard
    library are used by rule.go and are no part of it.  The embedding takes
    them as an environment; every theorem quantified over [Externals] holds
    whatever they compute. *)

Record Externals : Type := mkExternals {
  (** [semver.IsValid], [semver.Canonical], [semver.Major] *)
  semver_IsValid : string -> bool;
  semver_Canonical : string -> string;
  semver_Major : string -> string;
  (** [ParseGopkgIn(p)]: its third result [major] when its last result
      [ok] is true; rule.go reads no other result. *)
  ParseGopkgIn : string -> option string;
  (** [strconv.Unquote], [strconv.Quote] *)
  strconv_Unquote : string -> result string;
  strconv_Quote : string -> string;
  (** [unicode.IsPrint], on a rune *)
  unicode_IsPrint : N -> bool;
  (** [filepath.Separator] *)
  filepath_Separator : ascii;
  (** [sort.Slice]: the slice after the call, for the slice before it and
      the [less] function read on elements *)
  sort_Slice : forall A : Type, (A -> A -> bool) -> list A -> list A;
  (** the order in which [for k, v := range m] visits a map of strings *)
  map_range : gmap string string -> list (string * string);
}.

(** [type VersionFixer func(path, version string) (string, error)] *)
Definition VersionFixer : Type := string -> string -> result string.

(** ** The data model *)

(** The address of a [Line] object: the typed records and the syntax tree
    hold [*Line] pointers to the same objects. *)
Definition loc := nat.

(** [module.Version] *)
Record Version : Type := mkVersion { Path : string; Vers : string }.

(** The tree of read.go, as far as rule.go reads and writes it.  A [Line]
    has its tokens, the flag that says it is nested in a block, and the
    line number of its position. *)
Record Line : Type := mkLine {
  Token : list string;
  InBlock : bool;
  StartLine : nat;
}.

(** A [LineBlock]: header tokens, nested lines, line number.  A block is
    referenced from the statement list only, so it is held by value. *)
Record LineBlock : Type := mkLineBlock {
  BToken : list string;
  BLine : list loc;
  BStart : nat;
}.

(** [Expr]: a statement of the file. *)
Inductive Expr : Type :=
| ELine (l : loc)
| ELineBlock (b : LineBlock)
| ECommentBlock (text : list string).

(** [FileSyntax], with the store of the [Line] objects allocated so far. *)
Record FileSyntax : Type := mkFileSyntax {
  Name : string;
  Stmt : list Expr;
  Lines : gmap loc Line;
}.

(** The typed records.  [Syntax] is a [*Line]: [None] is the nil pointer
    of a blanked record. *)
Record ModuleStmt : Type := mkModule { mMod : Version; mSyntax : option loc }.
Record RequireStmt : Type := mkRequire { rMod : Version; rSyntax : option loc }.
Record ExcludeStmt : Type := mkExclude { xMod : Version; xSyntax : option loc }.
Record ReplaceStmt : Type := mkReplace { Old : Version; New : Version; pSyntax : option loc }.

(** [File].  [fSyntax] is allocated: Parse, AddModuleStmt and AddComment
    allocate it before any other method reads it. *)
Record File : Type := mkFile {
  fModule : option ModuleStmt;
  fRequire : list RequireStmt;
  fExclude : list ExcludeStmt;
  fReplace : list ReplaceStmt;
  fSyntax : FileSyntax;
}.

Global Instance Version_eq_dec : EqDecision Version.
Proof. solve_decision. Defined.
Global Instance Version_countable : Countable Version.
Proof.
  refine (inj_countable' (fun v => (Path v, Vers v)) (fun p => mkVersion p.1 p.2) _).
  by intros [].
Defined.
Global Instance Line_eq_dec : EqDecision Line.
Proof. solve_decision. Defined.
Global Instance Line_inhabited : Inhabited Line := populate (mkLine [] false 0).
Global Instance RequireStmt_eq_dec : EqDecision RequireStmt.
Proof. solve_decision. Defined.
Global Instance ExcludeStmt_eq_dec : EqDecision ExcludeStmt.
Proof. solve_decision. Defined.
Global Instance ReplaceStmt_eq_dec : EqDecision ReplaceStmt.
Proof. solve_decision. Defined.

(** The zero values [module.Version{}], [Require{}], [Exclude{}], [Replace{}]. *)
Definition Version0 : Version := mkVersion "" "".
Definition Require0 : RequireStmt := mkRequire Version0 None.
Definition Exclude0 : ExcludeStmt := mkExclude Version0 None.
Definition Replace0 : ReplaceStmt := mkReplace Version0 Version0 None.

(** The tokens of the line at an address; a line that was never allocated
    has none. *)
Definition line_at (fs : FileSyntax) (l : loc) : Line := Lines fs !!! l.
Definition tokens_at (fs : FileSyntax) (l : loc) : list string := Token (line_at fs l).

Definition set_Lines (fs : FileSyntax) (h : gmap loc Line) : FileSyntax :=
  mkFileSyntax (Name fs) (Stmt fs) h.
Definition set_Stmt (fs : FileSyntax) (st : list Expr) : FileSyntax :=
  mkFileSyntax (Name fs) st (Lines fs).
Definition set_Token (ln : Line) (t : list string) : Line :=
  mkLine t (InBlock ln) (StartLine ln).

(** [line.Token = t] through the pointer [l]. *)
Definition store_Token (fs : FileSyntax) (l : loc) (t : list string) : FileSyntax :=
  set_Lines fs (<[l := set_Token (line_at fs l) t]> (Lines fs)).

Definition set_fSyntax (f : File) (fs : FileSyntax) : File :=
  mkFile (fModule f) (fRequire f) (fExclude f) (fReplace f) fs.
Definition set_fModule (f : File) (m : option ModuleStmt) : File :=
  mkFile m (fRequire f) (fExclude f) (fReplace f) (fSyntax f).
Definition set_fRequire (f : File) (r : list RequireStmt) : File :=
  mkFile (fModule f) r (fExclude f) (fReplace f) (fSyntax f).
Definition set_fExclude (f : File) (x : list ExcludeStmt) : File :=
  mkFile (fModule f) (fRequire f) x (fReplace f) (fSyntax f).
Definition set_fReplace (f : File) (r : list ReplaceStmt) : File :=
  mkFile (fModule f) (fRequire f) (fExclude f) r (fSyntax f).

(** What [add] and [Parse] print into the error buffer, one value per
    [fmt.Fprintf]: the file name, the line number and the message with its
    operands. *)
Inductive Msg : Type :=
| UnknownDirective (verb : string)
| UnknownBlockType (tokens : list string)
| RepeatedModule
| UsageModule
| InvalidQuotedString (e : error)
| UsageRequire (verb : string)
| InvalidModuleVersion (old : string) (e : error)
| ModulePathError (e : error)
| InvalidModule (s v1 v2 v : string)
| UsageReplace (verb : string)
| ReplacementNotDirectory
| ReplacementWindowsPath
| ReplacementDirectoryWithVersion (ns : string).

Record Diag : Type := mkDiag { dFile : string; dLine : nat; dMsg : Msg }.

(** ** String classification, quoting and versions *)

Section Decoder.
Variable E : Externals.

(** [IsDirectoryPath] *)
Definition IsDirectoryPath (ns : string) : bool :=
  HasPrefix ns "./" || HasPrefix ns "../" || HasPrefix ns "/" ||
  HasPrefix ns ".\" || HasPrefix ns "..\" || HasPrefix ns "\" ||
  (2 <=? String.length ns)%nat &&
  (byte_leb "A" (at_ ns 0) && byte_leb (at_ ns 0) "Z" ||
   byte_leb "a" (at_ ns 0) && byte_leb (at_ ns 0) "z") &&
  byte_eqb (at_ ns 1) ":".

(** [MustQuote] *)
Definition MustQuote (s : string) : bool :=
  existsb (fun r => negb (unicode_IsPrint E r) || (r =? 32)%N || (r =? 34)%N ||
                    (r =? 39)%N || (r =? 96)%N) (runes s) ||
  (String.eqb s "" || Contains s "//" || Contains s "/*").

(** [AutoQuote] *)
Definition AutoQuote (s : string) : string :=
  if MustQuote s then strconv_Quote E s else s.

Definition quote_chars : string :=
  String dquote (String squote (String bquote EmptyString)).

(** [parseString(s *string)]: the string left in [*s] and the result. *)
Definition parseString (s : string) : string * result string :=
  if HasPrefix s (String dquote EmptyString) then
    match strconv_Unquote E s with
    | Err e => (s, Err e)
    | Ok t => (AutoQuote t, Ok t)
    end
  else if ContainsAny s quote_chars then
    (s, Err "unquoted string cannot contain quote")
  else (AutoQuote s, Ok s).

(** [parseVersion(path, s *string, fix)]: the string left in [*s] and the
    result. *)
Definition parseVersion (path s : string) (fix_ : option VersionFixer)
  : string * result string :=
  match parseString s with
  | (s1, Err e) => (s1, Err e)
  | (s1, Ok t) =>
      match (match fix_ with Some fx => fx path t | None => Ok t end) with
      | Err e => (s1, Err e)
      | Ok t' =>
          if semver_IsValid E t' then
            (semver_Canonical E t', Ok (semver_Canonical E t'))
          else (s1, Err "version must be of the form v1.2.3")
      end
  end.

Fixpoint all_digits (v : string) : bool :=
  match v with
  | EmptyString => true
  | String c v' => byte_leb "0" c && byte_leb c "9" && all_digits v'
  end.

(** [isMajorVersion]: the loop runs over [v[1:]]. *)
Definition isMajorVersion (v : string) : bool :=
  if (String.length v <? 2)%nat || negb (byte_eqb (at_ v 0) "v") then false
  else all_digits (skip 1 v).

(** The final path segment [p[strings.LastIndex(p, "/")+1:]]. *)
Definition last_segment (p : string) : string :=
  skip (Z.to_nat (LastIndex p "/" + 1)) p.

(** [moduleMajorVersion] *)
Definition moduleMajorVersion (p : string) : result string :=
  match ParseGopkgIn E p with
  | Some major => Ok major
  | None =>
      let v := last_segment p in
      if negb (isMajorVersion v) then Ok "v1"
      else if byte_eqb (at_ v 1) "0" || String.eqb v "v1" then
        Err ("module path has invalid version number " +:+ v)
      else Ok v
  end.

(** ** The directive decoder *)

(** [args[i]], read after the length of [args] was checked. *)
Definition arg (args : list string) (i : nat) : string := default "" (args !! i).

(** The test of lines 179 and 215: the statement is refused when it holds. *)
Definition major_mismatch (v1 v2 : string) : bool :=
  negb (String.eqb v1 v2) && (negb (String.eqb v1 "v1") || negb (String.eqb v2 "v0")).

(** Lines 163-182 and 199-218: the path and version on the left of a
    require, exclude or replace statement.  [args] is the slice of the
    line's tokens; the result is the slice after the writes through
    [&args[0]] and [&args[1]], and either the message printed or the
    decoded [module.Version]. *)
Definition decode_left (args : list string) (fix_ : option VersionFixer)
  : list string * (Msg + Version) :=
  match parseString (arg args 0) with
  | (_, Err e) => (args, inl (InvalidQuotedString e))
  | (a0, Ok s) =>
      let args := <[0 := a0]> args in
      let old := arg args 1 in
      match parseVersion s (arg args 1) fix_ with
      | (a1, Err e) => (<[1 := a1]> args, inl (InvalidModuleVersion old e))
      | (a1, Ok v) =>
          let args := <[1 := a1]> args in
          match moduleMajorVersion s with
          | Err e => (args, inl (ModulePathError e))
          | Ok v1 =>
              let v2 := semver_Major E v in
              if major_mismatch v1 v2 then (args, inl (InvalidModule s v1 v2 v))
              else (args, inr (mkVersion s v))
          end
      end
  end.

(** [case "require", "exclude"] *)
Definition decode_require (verb : string) (args : list string)
    (fix_ : option VersionFixer) : list string * (Msg + Version) :=
  if negb (length args =? 2)%nat then (args, inl (UsageRequire verb))
  else decode_left args fix_.

(** [case "replace"] *)
Definition decode_replace (verb : string) (args : list string)
    (fix_ : option VersionFixer) : list string * (Msg + Version * Version) :=
  if (length args <? 4)%nat || (5 <? length args)%nat || negb (String.eqb (arg args 2) "=>")
  then (args, inl (UsageReplace verb))
  else
    match decode_left args fix_ with
    | (args, inl m) => (args, inl m)
    | (args, inr old) =>
        match parseString (arg args 3) with
        | (_, Err e) => (args, inl (InvalidQuotedString e))
        | (a3, Ok ns) =>
            let args := <[3 := a3]> args in
            if (length args =? 4)%nat && negb (IsDirectoryPath ns) then
              (args, inl ReplacementNotDirectory)
            else if (length args =? 4)%nat && byte_eqb (filepath_Separator E) "/"
                    && Contains ns "\" then
              (args, inl ReplacementWindowsPath)
            else if (length args =? 5)%nat then
              let old4 := arg args 4 in
              match parseVersion ns (arg args 4) fix_ with
              | (a4, Err e) => (<[4 := a4]> args, inl (InvalidModuleVersion old4 e))
              | (a4, Ok nv) =>
                  let args := <[4 := a4]> args in
                  if IsDirectoryPath ns then
                    (args, inl (ReplacementDirectoryWithVersion ns))
                  else (args, inr (old, mkVersion ns nv))
              end
            else (args, inr (old, mkVersion ns ""))
        end
    end.

(** [case "module"], after the record was installed (lines 147-157): the
    slice after the write through [&args[0]] and the message or the path. *)
Definition decode_module (args : list string) : list string * (Msg + string) :=
  if negb (length args =? 1)%nat then (args, inl UsageModule)
  else
    match parseString (arg args 0) with
    | (_, Err e) => (args, inl (InvalidQuotedString e))
    | (a0, Ok s) => (<[0 := a0]> args, inr s)
    end.

(** The line's tokens after [add] wrote through its slice [args], which
    starts at token [off] of the line. *)
Definition write_args (f : File) (l : loc) (off : nat) (args : list string) : File :=
  set_fSyntax f
    (store_Token (fSyntax f) l (take off (tokens_at (fSyntax f) l) ++ args)).

(** [File.add(errs, line, verb, args, fix)].  [args] is [line.Token[off:]]:
    Parse passes [x.Token[1:]] for a bare line and [l.Token] for a line of
    a block.  The result is the file and the error buffer after the call. *)
Definition add (f : File) (errs : list Diag) (l : loc) (verb : string)
    (off : nat) (fix_ : option VersionFixer) : File * list Diag :=
  let fs := fSyntax f in
  let args := drop off (tokens_at fs l) in
  let printed m := errs ++ [mkDiag (Name fs) (StartLine (line_at fs l)) m] in
  if String.eqb verb "module" then
    match fModule f with
    | Some _ => (f, printed RepeatedModule)
    | None =>
        let f := set_fModule f (Some (mkModule Version0 (Some l))) in
        match decode_module args with
        | (args, inl m) => (write_args f l off args, printed m)
        | (args, inr s) =>
            (write_args (set_fModule f (Some (mkModule (mkVersion s "") (Some l))))
               l off args, errs)
        end
    end
  else if String.eqb verb "require" || String.eqb verb "exclude" then
    match decode_require verb args fix_ with
    | (args, inl m) => (write_args f l off args, printed m)
    | (args, inr v) =>
        let f := write_args f l off args in
        if String.eqb verb "require" then
          (set_fRequire f (fRequire f ++ [mkRequire v (Some l)]), errs)
        else (set_fExclude f (fExclude f ++ [mkExclude v (Some l)]), errs)
    end
  else if String.eqb verb "replace" then
    match decode_replace verb args fix_ with
    | (args, inl m) => (write_args f l off args, printed m)
    | (args, inr (old, new)) =>
        let f := write_args f l off args in
        (set_fReplace f (fReplace f ++ [mkReplace old new (Some l)]), errs)
    end
  else (f, printed (UnknownDirective verb)).

Definition known_block (verb : string) : bool :=
  String.eqb verb "module" || String.eqb verb "require" ||
  String.eqb verb "exclude" || String.eqb verb "replace".

(** One turn of the loop of [Parse] over [fs.Stmt]; [None] is the panic of
    [x.Token[0]] on a statement without tokens. *)
Definition decode_stmt (file : string) (fix_ : option VersionFixer)
    (st : File * list Diag) (x : Expr) : option (File * list Diag) :=
  let '(f, errs) := st in
  match x with
  | ELine l =>
      match tokens_at (fSyntax f) l with
      | [] => None
      | verb :: _ => Some (add f errs l verb 1 fix_)
      end
  | ELineBlock b =>
      if (1 <? length (BToken b))%nat then
        Some (f, errs ++ [mkDiag file (BStart b) (UnknownBlockType (BToken b))])
      else
        match BToken b with
        | [] => None
        | verb :: _ =>
            if known_block verb then
              Some (fold_left (fun st l => add st.1 st.2 l verb 0 fix_) (BLine b) (f, errs))
            else
              Some (f, errs ++ [mkDiag file (BStart b) (UnknownBlockType (BToken b))])
        end
  | ECommentBlock _ => Some (f, errs)
  end.

Fixpoint decode_loop (file : string) (fix_ : option VersionFixer)
    (stmts : list Expr) (st : File * list Diag) : option (File * list Diag) :=
  match stmts with
  | [] => Some st
  | x :: stmts' =>
      match decode_stmt file fix_ st x with
      | None => None
      | Some st' => decode_loop file fix_ stmts' st'
      end
  end.

(** The file [Parse] starts from: [&File{Syntax: fs}]. *)
Definition new_File (fs : FileSyntax) : File := mkFile None [] [] [] fs.

(** The loop of [Parse] (lines 94-119) on the tree [fs] that [parse]
    returned: the file and the error buffer when the loop ends. *)
Definition decode (file : string) (fs : FileSyntax) (fix_ : option VersionFixer)
  : option (File * list Diag) :=
  decode_loop file fix_ (Stmt fs) (new_File fs, []).

(** [Parse], given the result of the tokenizer [parse(file, data)]: the
    file, or the error (of the tokenizer, or the diagnostics printed). *)
Definition Parse (file : string) (parsed : result FileSyntax)
    (fix_ : option VersionFixer) : option (File + (error + list Diag)) :=
  match parsed with
  | Err e => Some (inr (inl e))
  | Ok fs =>
      match decode file fs fix_ with
      | None => None
      | Some (f, []) => Some (inl f)
      | Some (_, errs) => Some (inr (inr errs))
      end
  end.

End Decoder.

(** ** The syntax tree's editing primitives (read.go) *)

(** Modelled from the spec: [FileSyntax.addLine(hint, tokens...)] of
    read.go, which is not among the sources.  The spec: insert after node X
    if given, else append at end.  The new [Line] is a fresh object; a line
    nested in a block carries its tokens without the verb, which is the
    block's header. *)
Fixpoint insert_after_line (hint new : loc) (ls : list loc) : option (list loc) :=
  match ls with
  | [] => None
  | l :: ls' =>
      if Nat.eqb l hint then Some (l :: new :: ls')
      else option_map (cons l) (insert_after_line hint new ls')
  end.

Fixpoint insert_after_hint (hint new : loc) (stmts : list Expr)
  : option (list Expr * bool) :=
  match stmts with
  | [] => None
  | x :: rest =>
      let later :=
        match insert_after_hint hint new rest with
        | Some (rest', nested) => Some (x :: rest', nested)
        | None => None
        end in
      match x with
      | ELine l => if Nat.eqb l hint then Some (x :: ELine new :: rest, false) else later
      | ELineBlock b =>
          match insert_after_line hint new (BLine b) with
          | Some ls => Some (ELineBlock (mkLineBlock (BToken b) ls (BStart b)) :: rest, true)
          | None => later
          end
      | ECommentBlock _ => later
      end
  end.

Definition addLine (fs : FileSyntax) (hint : option loc) (tokens : list string)
  : FileSyntax * loc :=
  let new : loc := fresh (dom (Lines fs) : gset loc) in
  let placed : option (list Expr * bool) :=
    match hint with
    | Some h => insert_after_hint h new (Stmt fs)
    | None => None
    end in
  match placed with
  | Some (stmts, nested) =>
      (mkFileSyntax (Name fs) stmts
         (<[new := mkLine (if nested then drop 1 tokens else tokens) nested 0]> (Lines fs)),
       new)
  | None =>
      (mkFileSyntax (Name fs) (Stmt fs ++ [ELine new])
         (<[new := mkLine tokens false 0]> (Lines fs)),
       new)
  end.

(** Modelled from the spec: [FileSyntax.updateLine(line, tokens...)] of
    read.go: the line's tokens are replaced in place (without the verb when
    the line is nested in a block).  The nil pointer panics. *)
Definition updateLine (fs : FileSyntax) (line : option loc) (tokens : list string)
  : option FileSyntax :=
  match line with
  | None => None
  | Some l =>
      Some (store_Token fs l (if InBlock (line_at fs l) then drop 1 tokens else tokens))
  end.

(** Modelled from the spec: [FileSyntax.removeLine(line)] of read.go: the
    line loses its tokens and stays where it is until [Cleanup] compacts
    the tree.  The nil pointer panics. *)
Definition removeLine (fs : FileSyntax) (line : option loc) : option FileSyntax :=
  match line with
  | None => None
  | Some l => Some (store_Token fs l [])
  end.

Definition stale (fs : FileSyntax) (l : loc) : bool :=
  match tokens_at fs l with [] => true | _ => false end.

(** Modelled from the spec: [FileSyntax.Cleanup()] of read.go drops the
    stale nodes: the removed lines, and the blocks left without a line. *)
Definition Cleanup_stmt (fs : FileSyntax) (x : Expr) : option Expr :=
  match x with
  | ELine l => if stale fs l then None else Some x
  | ELineBlock b =>
      match filter (fun l : loc => stale fs l = false) (BLine b) with
      | [] => None
      | ls => Some (ELineBlock (mkLineBlock (BToken b) ls (BStart b)))
      end
  | ECommentBlock _ => Some x
  end.

Definition FileSyntax_Cleanup (fs : FileSyntax) : FileSyntax :=
  set_Stmt fs (omap (Cleanup_stmt fs) (Stmt fs)).

(** The lines of the tree, in order: the bare lines and the lines of the
    blocks. *)
Definition stmt_lines (x : Expr) : list loc :=
  match x with
  | ELine l => [l]
  | ELineBlock b => BLine b
  | ECommentBlock _ => []
  end.

Definition tree_lines (stmts : list Expr) : list loc :=
  concat (map stmt_lines stmts).

(** ** The edit engine *)

Section Editor.
Variable E : Externals.

(** [AddModuleStmt] *)
Definition AddModuleStmt (f : File) (path : string) : option File :=
  match fModule f with
  | None =>
      let '(fs, l) := addLine (fSyntax f) None ["module"; AutoQuote E path] in
      Some (set_fSyntax (set_fModule f (Some (mkModule (mkVersion path "") (Some l)))) fs)
  | Some m =>
      match updateLine (fSyntax f) (mSyntax m) ["module"; AutoQuote E path] with
      | None => None
      | Some fs =>
          Some (set_fSyntax
                  (set_fModule f (Some (mkModule (mkVersion path (Vers (mMod m))) (mSyntax m))))
                  fs)
      end
  end.

(** [AddComment] *)
Definition AddComment (f : File) (text : string) : File :=
  set_fSyntax f (set_Stmt (fSyntax f) (Stmt (fSyntax f) ++ [ECommentBlock [text]])).

(** [AddNewRequire] *)
Definition AddNewRequire (f : File) (path vers : string) : File :=
  let '(fs, l) := addLine (fSyntax f) None ["require"; AutoQuote E path; vers] in
  set_fSyntax (set_fRequire f (fRequire f ++ [mkRequire (mkVersion path vers) (Some l)])) fs.

(** The loop of [AddRequire] over [f.Require], from the record list [rs]
    on: the records after the loop, the tree and the flag [need]. *)
Fixpoint AddRequire_loop (path vers : string) (rs : list RequireStmt)
    (need : bool) (fs : FileSyntax) : option (list RequireStmt * FileSyntax * bool) :=
  match rs with
  | [] => Some ([], fs, need)
  | r :: rs' =>
      if String.eqb (Path (rMod r)) path then
        if need then
          match updateLine fs (rSyntax r) ["require"; AutoQuote E path; vers] with
          | None => None
          | Some fs' =>
              match AddRequire_loop path vers rs' false fs' with
              | None => None
              | Some (out, fs'', need') =>
                  Some (mkRequire (mkVersion (Path (rMod r)) vers) (rSyntax r) :: out,
                        fs'', need')
              end
          end
        else
          match removeLine fs (rSyntax r) with
          | None => None
          | Some fs' =>
              match AddRequire_loop path vers rs' need fs' with
              | None => None
              | Some (out, fs'', need') => Some (Require0 :: out, fs'', need')
              end
          end
      else
        match AddRequire_loop path vers rs' need fs with
        | None => None
        | Some (out, fs'', need') => Some (r :: out, fs'', need')
        end
  end.

(** [AddRequire] *)
Definition AddRequire (f : File) (path vers : string) : option File :=
  match AddRequire_loop path vers (fRequire f) true (fSyntax f) with
  | None => None
  | Some (rs, fs, need) =>
      let f := set_fSyntax (set_fRequire f rs) fs in
      Some (if need then AddNewRequire f path vers else f)
  end.

(** [DropRequire] *)
Fixpoint DropRequire_loop (path : string) (rs : list RequireStmt) (fs : FileSyntax)
  : option (list RequireStmt * FileSyntax) :=
  match rs with
  | [] => Some ([], fs)
  | r :: rs' =>
      if String.eqb (Path (rMod r)) path then
        match removeLine fs (rSyntax r) with
        | None => None
        | Some fs' =>
            match DropRequire_loop path rs' fs' with
            | None => None
            | Some (out, fs'') => Some (Require0 :: out, fs'')
            end
        end
      else
        match DropRequire_loop path rs' fs with
        | None => None
        | Some (out, fs'') => Some (r :: out, fs'')
        end
  end.

Definition DropRequire (f : File) (path : string) : option File :=
  match DropRequire_loop path (fRequire f) (fSyntax f) with
  | None => None
  | Some (rs, fs) => Some (set_fSyntax (set_fRequire f rs) fs)
  end.

(** The loop of [AddExclude]: [None] when it returns from inside the loop
    (the pair is there), else the hint it leaves. *)
Fixpoint AddExclude_scan (path vers : string) (xs : list ExcludeStmt)
    (hint : option loc) : option (option loc) :=
  match xs with
  | [] => Some hint
  | x :: xs' =>
      if String.eqb (Path (xMod x)) path && String.eqb (Vers (xMod x)) vers then None
      else if String.eqb (Path (xMod x)) path then AddExclude_scan path vers xs' (xSyntax x)
      else AddExclude_scan path vers xs' hint
  end.

(** [AddExclude] *)
Definition AddExclude (f : File) (path vers : string) : File :=
  match AddExclude_scan path vers (fExclude f) None with
  | None => f
  | Some hint =>
      let '(fs, l) := addLine (fSyntax f) hint ["exclude"; AutoQuote E path; vers] in
      set_fSyntax (set_fExclude f (fExclude f ++ [mkExclude (mkVersion path vers) (Some l)])) fs
  end.

(** [DropExclude] *)
Fixpoint DropExclude_loop (path vers : string) (xs : list ExcludeStmt) (fs : FileSyntax)
  : option (list ExcludeStmt * FileSyntax) :=
  match xs with
  | [] => Some ([], fs)
  | x :: xs' =>
      if String.eqb (Path (xMod x)) path && String.eqb (Vers (xMod x)) vers then
        match removeLine fs (xSyntax x) with
        | None => None
        | Some fs' =>
            match DropExclude_loop path vers xs' fs' with
            | None => None
            | Some (out, fs'') => Some (Exclude0 :: out, fs'')
            end
        end
      else
        match DropExclude_loop path vers xs' fs with
        | None => None
        | Some (out, fs'') => Some (x :: out, fs'')
        end
  end.

Definition DropExclude (f : File) (path vers : string) : option File :=
  match DropExclude_loop path vers (fExclude f) (fSyntax f) with
  | None => None
  | Some (xs, fs) => Some (set_fSyntax (set_fExclude f xs) fs)
  end.

(** The loop of [AddReplace]: the records, the tree, [need] and [hint]. *)
Fixpoint AddReplace_loop (old new : Version) (tokens : list string)
    (rs : list ReplaceStmt) (need : bool) (hint : option loc) (fs : FileSyntax)
  : option (list ReplaceStmt * FileSyntax * bool * option loc) :=
  match rs with
  | [] => Some ([], fs, need, hint)
  | r :: rs' =>
      if bool_decide (Old r = old) then
        if need then
          match updateLine fs (pSyntax r) tokens with
          | None => None
          | Some fs' =>
              match AddReplace_loop old new tokens rs' false hint fs' with
              | None => None
              | Some (out, fs'', need', hint') =>
                  Some (mkReplace (Old r) new (pSyntax r) :: out, fs'', need', hint')
              end
          end
        else
          match removeLine fs (pSyntax r) with
          | None => None
          | Some fs' =>
              (* the blanked record has the empty path *)
              let hint1 := if String.eqb "" (Path old) then None else hint in
              match AddReplace_loop old new tokens rs' need hint1 fs' with
              | None => None
              | Some (out, fs'', need', hint') => Some (Replace0 :: out, fs'', need', hint')
              end
          end
      else
        let hint1 := if String.eqb (Path (Old r)) (Path old) then pSyntax r else hint in
        match AddReplace_loop old new tokens rs' need hint1 fs with
        | None => None
        | Some (out, fs'', need', hint') => Some (r :: out, fs'', need', hint')
        end
  end.

(** [AddReplace] *)
Definition AddReplace (f : File) (oldPath oldVers newPath newVers : string)
  : option File :=
  let old := mkVersion oldPath oldVers in
  let new := mkVersion newPath newVers in
  let tokens :=
    ["replace"; AutoQuote E oldPath; oldVers; "=>"; AutoQuote E newPath] ++
    (if String.eqb newVers "" then [] else [newVers]) in
  match AddReplace_loop old new tokens (fReplace f) true None (fSyntax f) with
  | None => None
  | Some (rs, fs, need, hint) =>
      let f := set_fSyntax (set_fReplace f rs) fs in
      if need then
        let '(fs', l) := addLine (fSyntax f) hint tokens in
        Some (set_fSyntax (set_fReplace f (fReplace f ++ [mkReplace old new (Some l)])) fs')
      else Some f
  end.

(** [DropReplace] *)
Fixpoint DropReplace_loop (oldPath oldVers : string) (rs : list ReplaceStmt)
    (fs : FileSyntax) : option (list ReplaceStmt * FileSyntax) :=
  match rs with
  | [] => Some ([], fs)
  | r :: rs' =>
      if String.eqb (Path (Old r)) oldPath && String.eqb (Vers (Old r)) oldVers then
        match removeLine fs (pSyntax r) with
        | None => None
        | Some fs' =>
            match DropReplace_loop oldPath oldVers rs' fs' with
            | None => None
            | Some (out, fs'') => Some (Replace0 :: out, fs'')
            end
        end
      else
        match DropReplace_loop oldPath oldVers rs' fs with
        | None => None
        | Some (out, fs'') => Some (r :: out, fs'')
        end
  end.

Definition DropReplace (f : File) (oldPath oldVers : string) : option File :=
  match DropReplace_loop oldPath oldVers (fReplace f) (fSyntax f) with
  | None => None
  | Some (rs, fs) => Some (set_fSyntax (set_fReplace f rs) fs)
  end.

(** [Cleanup] *)
Definition Cleanup (f : File) : File :=
  mkFile (fModule f)
    (filter (fun r : RequireStmt => Path (rMod r) ≠ "") (fRequire f))
    (filter (fun x : ExcludeStmt => Path (xMod x) ≠ "") (fExclude f))
    (filter (fun r : ReplaceStmt => Path (Old r) ≠ "") (fReplace f))
    (FileSyntax_Cleanup (fSyntax f)).

End Editor.

(** ** The normalizer and SetRequire *)

Section Normalizer.
Variable E : Externals.

(** One of the two marking loops of [removeDups], over the records [xs]
    in the order the loop visits them: [have] is the set of keys seen,
    [kill] the set of [*Line] keys marked (the nil pointer is a key too). *)
Fixpoint mark_dups {A : Type} (key : A -> Version) (syn : A -> option loc)
    (xs : list A) (have : gset Version) (kill : gset (option loc))
  : gset (option loc) :=
  match xs with
  | [] => kill
  | x :: xs' =>
      if bool_decide (key x ∈ have) then mark_dups key syn xs' have ({[syn x]} ∪ kill)
      else mark_dups key syn xs' ({[key x]} ∪ have) kill
  end.

(** The filter pass of [removeDups] on one statement: [None] is [continue]. *)
Definition removeDups_stmt (kill : gset (option loc)) (x : Expr) : option Expr :=
  match x with
  | ELine l => if bool_decide (Some l ∈ kill) then None else Some x
  | ELineBlock b =>
      match filter (fun l : loc => Some l ∉ kill) (BLine b) with
      | [] => None
      | ls => Some (ELineBlock (mkLineBlock (BToken b) ls (BStart b)))
      end
  | ECommentBlock _ => Some x
  end.

(** The [kill] map after the first and after the second marking loop. *)
Definition kill_exclude (f : File) : gset (option loc) :=
  mark_dups xMod xSyntax (fExclude f) ∅ ∅.
Definition kill_all (f : File) : gset (option loc) :=
  mark_dups Old pSyntax (reverse (fReplace f)) ∅ (kill_exclude f).

(** [removeDups] *)
Definition removeDups (f : File) : File :=
  let excl := filter (fun x : ExcludeStmt => xSyntax x ∉ kill_exclude f) (fExclude f) in
  let repl := filter (fun x : ReplaceStmt => pSyntax x ∉ kill_all f) (fReplace f) in
  mkFile (fModule f) (fRequire f) excl repl
    (set_Stmt (fSyntax f) (omap (removeDups_stmt (kill_all f)) (Stmt (fSyntax f)))).

(** The [less] function of [SortBlocks] (lines 553-560) on the tokens of
    two lines. *)
Fixpoint less_tokens (ti tj : list string) : bool :=
  match ti, tj with
  | a :: ti', b :: tj' =>
      if negb (String.eqb a b) then String.ltb a b else less_tokens ti' tj'
  | [], _ :: _ => true
  | _, [] => false
  end.

Definition less_line (fs : FileSyntax) (li lj : loc) : bool :=
  less_tokens (tokens_at fs li) (tokens_at fs lj).

Definition SortBlocks_stmt (fs : FileSyntax) (x : Expr) : Expr :=
  match x with
  | ELineBlock b =>
      ELineBlock (mkLineBlock (BToken b)
                    (sort_Slice E loc (less_line fs) (BLine b)) (BStart b))
  | _ => x
  end.

(** [SortBlocks] *)
Definition SortBlocks (f : File) : File :=
  let f := removeDups f in
  set_fSyntax f
    (set_Stmt (fSyntax f) (map (SortBlocks_stmt (fSyntax f)) (Stmt (fSyntax f)))).

(** [need] after the first loop of [SetRequire]. *)
Definition need_of (req : list Version) : gmap string string :=
  fold_left (fun need m => <[Path m := Vers m]> need) req ∅.

(** The second loop of [SetRequire], on one record. *)
Definition set_version (need : gmap string string) (r : RequireStmt) : RequireStmt :=
  match need !! Path (rMod r) with
  | Some v => mkRequire (mkVersion (Path (rMod r)) v) (rSyntax r)
  | None => r
  end.

(** [len(tokens) > 0 && tokens[0] == "require"] *)
Definition is_require (tokens : list string) : bool :=
  match tokens with
  | t :: _ => String.eqb t "require"
  | [] => false
  end.

(** Lines 434-437 and 448-450 on the line [l], whose path is token [idx]
    and whose version is token [idx + 1]: the map, the store, and whether
    the line is kept.  [None] is the panic of an index out of range. *)
Definition SetRequire_line (idx : nat) (need : gmap string string)
    (fs : FileSyntax) (l : loc) : option (gmap string string * FileSyntax * bool) :=
  let tokens := tokens_at fs l in
  match tokens !! idx with
  | None => None
  | Some t =>
      match parseString E t with
      | (_, Err _) => Some (need, fs, false)
      | (t', Ok p) =>
          let tokens := <[idx := t']> tokens in
          let fs := store_Token fs l tokens in
          let v := default "" (need !! p) in
          if String.eqb v "" then Some (need, fs, false)
          else if (S idx <? length tokens)%nat then
            Some (delete p need, store_Token fs l (<[S idx := v]> tokens), true)
          else None
      end
  end.

(** The loop over the lines of a require block: [newLines]. *)
Fixpoint SetRequire_lines (need : gmap string string) (fs : FileSyntax)
    (ls : list loc) : option (gmap string string * FileSyntax * list loc) :=
  match ls with
  | [] => Some (need, fs, [])
  | l :: ls' =>
      '(need, fs, keep) ← SetRequire_line 0 need fs l;
      '(need, fs, out) ← SetRequire_lines need fs ls';
      Some (need, fs, if keep : bool then l :: out else out)
  end.

(** The loop over [f.Syntax.Stmt]: [newStmts]. *)
Fixpoint SetRequire_stmts (need : gmap string string) (fs : FileSyntax)
    (stmts : list Expr) : option (gmap string string * FileSyntax * list Expr) :=
  match stmts with
  | [] => Some (need, fs, [])
  | x :: rest =>
      match x with
      | ELineBlock b =>
          if is_require (BToken b) then
            '(need, fs, newLines) ← SetRequire_lines need fs (BLine b);
            '(need, fs, out) ← SetRequire_stmts need fs rest;
            Some (need, fs,
                  match newLines with
                  | [] => out
                  | _ => ELineBlock (mkLineBlock (BToken b) newLines (BStart b)) :: out
                  end)
          else
            '(need, fs, out) ← SetRequire_stmts need fs rest;
            Some (need, fs, x :: out)
      | ELine l =>
          if is_require (tokens_at fs l) then
            '(need, fs, keep) ← SetRequire_line 1 need fs l;
            '(need, fs, out) ← SetRequire_stmts need fs rest;
            Some (need, fs, if keep : bool then x :: out else out)
          else
            '(need, fs, out) ← SetRequire_stmts need fs rest;
            Some (need, fs, x :: out)
      | ECommentBlock _ =>
          '(need, fs, out) ← SetRequire_stmts need fs rest;
          Some (need, fs, x :: out)
      end
  end.

(** The last loop of [SetRequire]: the entries left in [need] are added
    in the order in which [range] visits the map. *)
Definition add_needed (f : File) (need : gmap string string) : File :=
  fold_left (fun f pv => AddNewRequire E f pv.1 pv.2) (map_range E need) f.

(** [SetRequire] up to the call of [SortBlocks] (lines 416-462). *)
Definition SetRequire_edits (f : File) (req : list Version) : option File :=
  let need := need_of req in
  let f := set_fRequire f (map (set_version need) (fRequire f)) in
  '(need, fs, newStmts) ← SetRequire_stmts need (fSyntax f) (Stmt (fSyntax f));
  Some (add_needed (set_fSyntax f (set_Stmt fs newStmts)) need).

(** [SetRequire] *)
Definition SetRequire (f : File) (req : list Version) : option File :=
  SortBlocks <$> SetRequire_edits f req.

End Normalizer.

(** ** A concrete environment

    The collaborators, written out so that the decoder and the editor can
    be evaluated on example manifests.  The theorems below do not depend on
    it: each is stated for every [Externals]. *)

Module GoEnv.

Definition is_digit (c : ascii) : bool := byte_leb "0" c && byte_leb c "9".

Definition is_ident_char (c : ascii) : bool :=
  byte_leb "A" c && byte_leb c "Z" || byte_leb "a" c && byte_leb c "z" ||
  is_digit c || byte_eqb c "-".

(** The longest prefix of bytes that satisfy [p], and the rest. *)
Fixpoint span (p : ascii -> bool) (s : string) : string * string :=
  match s with
  | String c s' =>
      if p c then let '(t, rest) := span p s' in (String c t, rest)
      else (EmptyString, s)
  | EmptyString => (EmptyString, EmptyString)
  end.

Fixpoint all_bytes (p : ascii -> bool) (s : string) : bool :=
  match s with
  | String c s' => p c && all_bytes p s'
  | EmptyString => true
  end.

(** The pieces of [s] between the occurrences of the byte [sep]. *)
Fixpoint split_on (sep : ascii) (s : string) : list string :=
  match s with
  | EmptyString => [EmptyString]
  | String c s' =>
      if byte_eqb c sep then EmptyString :: split_on sep s'
      else
        match split_on sep s' with
        | t :: ts => String c t :: ts
        | [] => [String c EmptyString]
        end
  end.

(** Modelled from the spec: the Version Utility (package semver, not among
    the sources): semantic-version syntax validation, canonicalization and
    major-component extraction.  A version is [vMAJOR[.MINOR[.PATCH[-PRE][+BUILD]]]];
    numbers have no leading zero; the canonical form completes a short
    version with zeros and drops the build suffix. *)
Record parsed : Type := mkParsed {
  major : string; minor : string; patch : string;
  short : string; prerelease : string; build : string;
}.

Definition parseInt (v : string) : option (string * string) :=
  match v with
  | EmptyString => None
  | String c _ =>
      if is_digit c then
        let '(t, rest) := span is_digit v in
        if byte_eqb c "0" && negb (String.length t =? 1)%nat then None
        else Some (t, rest)
      else None
  end.

Definition isBadNum (v : string) : bool :=
  all_bytes is_digit v && (1 <? String.length v)%nat && byte_eqb (at_ v 0) "0".

Definition good_ident (numeric_rule : bool) (t : string) : bool :=
  negb (String.eqb t "") && all_bytes is_ident_char t &&
  negb (numeric_rule && isBadNum t).

(** [v] starts with the hyphen: the prerelease runs to the first plus sign. *)
Definition parsePrerelease (v : string) : option (string * string) :=
  let '(body, rest) := span (fun c => negb (byte_eqb c "+")) (skip 1 v) in
  if forallb (good_ident true) (split_on "." body) then
    Some (String "-" body, rest)
  else None.

(** [v] starts with the plus sign: the build suffix runs to the end. *)
Definition parseBuild (v : string) : option (string * string) :=
  if forallb (good_ident false) (split_on "." (skip 1 v)) then Some (v, EmptyString)
  else None.

Definition parse_tail (mj mn pt v : string) : option parsed :=
  match (if HasPrefix v "-" then parsePrerelease v else Some (EmptyString, v)) with
  | None => None
  | Some (pre, v) =>
      match (if HasPrefix v "+" then parseBuild v else Some (EmptyString, v)) with
      | None => None
      | Some (bld, v) =>
          if String.eqb v "" then Some (mkParsed mj mn pt "" pre bld) else None
      end
  end.

Definition parse (v : string) : option parsed :=
  match v with
  | String "v" v1 =>
      '(mj, v) ← parseInt v1;
      match v with
      | EmptyString => Some (mkParsed mj "0" "0" ".0.0" "" "")
      | String "." v2 =>
          '(mn, v) ← parseInt v2;
          match v with
          | EmptyString => Some (mkParsed mj mn "0" ".0" "" "")
          | String "." v3 =>
              '(pt, v) ← parseInt v3;
              parse_tail mj mn pt v
          | _ => None
          end
      | _ => None
      end
  | _ => None
  end.

Definition IsValid (v : string) : bool :=
  match parse v with Some _ => true | None => false end.

Definition Canonical (v : string) : string :=
  match parse v with
  | None => ""
  | Some p =>
      if negb (String.eqb (build p) "") then
        String.substring 0 (String.length v - String.length (build p)) v
      else if negb (String.eqb (short p) "") then v +:+ short p
      else v
  end.

Definition Major (v : string) : string :=
  match parse v with
  | None => ""
  | Some p => String "v" (major p)
  end.

(** Modelled from the spec: the legacy dotted-host encoding of the major
    version (gopkgin.go, not among the sources): a path under gopkg.in
    whose second or third element ends in [.vN]. *)
Definition dotV (name : string) : option string :=
  match reverse (split_on "." name) with
  | String "v" digits :: _ :: _ =>
      if negb (String.eqb digits "") && all_bytes is_digit digits &&
         negb (byte_eqb (at_ digits 0) "0" && negb (String.length digits =? 1)%nat)
      then Some (String "v" digits)
      else None
  | _ => None
  end.

Definition ParseGopkgIn (path : string) : option string :=
  if HasPrefix path "gopkg.in/" then
    match split_on "/" path with
    | _ :: f1 :: rest =>
        match dotV f1 with
        | Some v => Some v
        | None =>
            match rest with
            | f2 :: _ => dotV f2
            | [] => None
            end
        end
    | _ => None
    end
  else None.

(** [unicode.IsPrint]: exact up to U+00FF; above, the tables of package
    unicode are not reproduced and a rune counts as printable unless it is
    a surrogate, a line or paragraph separator, or beyond U+10FFFF. *)
Definition IsPrint (r : N) : bool :=
  if (r <? 128)%N then (32 <=? r)%N && (r <=? 126)%N
  else if (r <? 256)%N then (161 <=? r)%N && negb (r =? 173)%N
  else negb ((55296 <=? r)%N && (r <=? 57343)%N) &&
       negb ((r =? 8232)%N || (r =? 8233)%N) && (r <=? 1114111)%N.

Definition hex_digit (n : N) : ascii :=
  at_ "0123456789abcdef" (N.to_nat n).

Fixpoint hex (digits : nat) (n : N) : string :=
  match digits with
  | O => EmptyString
  | S d => hex d (N.shiftr n 4) +:+ String (hex_digit (N.land n 15)) EmptyString
  end.

Definition byte_of (n : N) : ascii := ascii_of_N n.

(** [utf8.EncodeRune]; a surrogate or a value past U+10FFFF is encoded as
    U+FFFD. *)
Definition encode_rune (r : N) : string :=
  let r := if (55296 <=? r)%N && (r <=? 57343)%N || (1114111 <? r)%N
           then RuneError else r in
  if (r <? 128)%N then String (byte_of r) EmptyString
  else if (r <? 2048)%N then
    String (byte_of (N.lor 192 (N.shiftr r 6)))
      (String (byte_of (N.lor 128 (N.land r 63))) EmptyString)
  else if (r <? 65536)%N then
    String (byte_of (N.lor 224 (N.shiftr r 12)))
      (String (byte_of (N.lor 128 (N.land (N.shiftr r 6) 63)))
         (String (byte_of (N.lor 128 (N.land r 63))) EmptyString))
  else
    String (byte_of (N.lor 240 (N.shiftr r 18)))
      (String (byte_of (N.lor 128 (N.land (N.shiftr r 12) 63)))
         (String (byte_of (N.lor 128 (N.land (N.shiftr r 6) 63)))
            (String (byte_of (N.lor 128 (N.land r 63))) EmptyString))).

(** The escape of one rune inside [strconv.Quote]. *)
Definition escape_rune (r : N) : string :=
  if (r =? 34)%N || (r =? 92)%N then String "\" (String (byte_of r) EmptyString)
  else if IsPrint r then encode_rune r
  else if (r =? 7)%N then "\a" else if (r =? 8)%N then "\b"
  else if (r =? 12)%N then "\f" else if (r =? 10)%N then "\n"
  else if (r =? 13)%N then "\r" else if (r =? 9)%N then "\t"
  else if (r =? 11)%N then "\v"
  else if (r <? 32)%N then "\x" +:+ hex 2 r
  else if (r <? 65536)%N then "\u" +:+ hex 4 r
  else "\U" +:+ hex 8 r.

(** [strconv.Quote], one rune at a time; [fuel] bounds the bytes left. *)
Fixpoint quote_loop (fuel : nat) (s : string) : string :=
  match fuel, s with
  | S fuel', String b0 _ =>
      match runes s with
      | r :: _ =>
          if (r =? RuneError)%N && (128 <=? N_of_ascii b0)%N &&
             negb (HasPrefix s (encode_rune RuneError))
          then "\x" +:+ hex 2 (N_of_ascii b0) +:+ quote_loop fuel' (skip 1 s)
          else escape_rune r +:+
               quote_loop fuel' (skip (String.length (encode_rune r)) s)
      | [] => EmptyString
      end
  | _, _ => EmptyString
  end.

Definition Quote (s : string) : string :=
  String dquote (quote_loop (String.length s) s +:+ String dquote EmptyString).

Definition unhex (c : ascii) : option N :=
  if is_digit c then Some (N_of_ascii c - 48)%N
  else if byte_leb "a" c && byte_leb c "f" then Some (N_of_ascii c - 87)%N
  else if byte_leb "A" c && byte_leb c "F" then Some (N_of_ascii c - 55)%N
  else None.

Fixpoint read_base (bits : N) (digit : ascii -> option N) (s : string) (acc : N)
  : option N :=
  match s with
  | EmptyString => Some acc
  | String c s' =>
      match digit c with
      | Some x => read_base bits digit s' (N.lor (N.shiftl acc bits) x)
      | None => None
      end
  end.

Definition unoct (c : ascii) : option N :=
  if byte_leb "0" c && byte_leb c "7" then Some (N_of_ascii c - 48)%N else None.

Definition ErrSyntax : error := "invalid syntax".

(** The body of an interpreted string literal, one [strconv.UnquoteChar]
    at a time; [fuel] bounds the bytes left. *)
Fixpoint unquote_loop (fuel : nat) (s : string) : result string :=
  match fuel, s with
  | _, EmptyString => Ok EmptyString
  | O, _ => Err ErrSyntax
  | S fuel', String c s1 =>
      let next (out rest : string) : result string :=
        match unquote_loop fuel' rest with
        | Ok t => Ok (out +:+ t)
        | Err e => Err e
        end in
      if byte_eqb c dquote then Err ErrSyntax
      else if (128 <=? N_of_ascii c)%N then
        match runes s with
        | r :: _ =>
            let w := if (r =? RuneError)%N && negb (HasPrefix s (encode_rune RuneError))
                     then 1 else String.length (encode_rune r) in
            next (encode_rune r) (skip w s)
        | [] => Err ErrSyntax
        end
      else if negb (byte_eqb c "\") then next (String c EmptyString) s1
      else
        match s1 with
        | EmptyString => Err ErrSyntax
        | String e s2 =>
            let simple (n : N) := next (String (byte_of n) EmptyString) s2 in
            let coded (w : nat) (is_byte : bool) :=
              if (String.length s2 <? w)%nat then Err ErrSyntax
              else
                match read_base 4 unhex (String.substring 0 w s2) 0%N with
                | None => Err ErrSyntax
                | Some v =>
                    if is_byte then next (String (byte_of v) EmptyString) (skip w s2)
                    else if (1114111 <? v)%N then Err ErrSyntax
                    else next (encode_rune v) (skip w s2)
                end in
            if byte_eqb e "a" then simple 7%N else if byte_eqb e "b" then simple 8%N
            else if byte_eqb e "f" then simple 12%N else if byte_eqb e "n" then simple 10%N
            else if byte_eqb e "r" then simple 13%N else if byte_eqb e "t" then simple 9%N
            else if byte_eqb e "v" then simple 11%N else if byte_eqb e "\" then simple 92%N
            else if byte_eqb e dquote then simple 34%N
            else if byte_eqb e "x" then coded 2 true
            else if byte_eqb e "u" then coded 4 false
            else if byte_eqb e "U" then coded 8 false
            else if byte_leb "0" e && byte_leb e "7" then
              if (String.length s2 <? 2)%nat then Err ErrSyntax
              else
                match read_base 3 unoct (String.substring 0 2 s2) (N_of_ascii e - 48)%N with
                | None => Err ErrSyntax
                | Some v =>
                    if (255 <? v)%N then Err ErrSyntax
                    else next (String (byte_of v) EmptyString) (skip 2 s2)
                end
            else Err ErrSyntax
        end
  end.

(** [strconv.Unquote] on a token that starts with the double quote, the
    only tokens rule.go passes to it. *)
Definition Unquote (s : string) : result string :=
  let n := String.length s in
  if (n <? 2)%nat then Err ErrSyntax
  else if negb (byte_eqb (at_ s 0) dquote && byte_eqb (at_ s (n - 1)) dquote)
  then Err ErrSyntax
  else
    let body := String.substring 1 (n - 2) s in
    if mem_byte (ascii_of_nat 10) body then Err ErrSyntax
    else unquote_loop (String.length body) body.

(** [sort.Slice] as package sort runs it on a slice of at most twelve
    elements (up to Go 1.18): one pass of swaps at distance six, then
    insertion sort.  A longer slice, which Go partitions first, is
    insertion-sorted here. *)
Fixpoint sorted_insert {A : Type} (less : A -> A -> bool) (x : A) (l : list A) : list A :=
  match l with
  | [] => [x]
  | y :: l' => if less x y then x :: l else y :: sorted_insert less x l'
  end.

Definition insertionSort {A : Type} (less : A -> A -> bool) (l : list A) : list A :=
  fold_left (fun sorted x => sorted_insert less x sorted) l [].

Fixpoint gap_swaps {A : Type} (less : A -> A -> bool) (lo hi : list A)
  : list A * list A :=
  match lo, hi with
  | x :: lo', y :: hi' =>
      let '(lo'', hi'') := gap_swaps less lo' hi' in
      if less y x then (y :: lo'', x :: hi'') else (x :: lo'', y :: hi'')
  | _, _ => (lo, hi)
  end.

Definition gap_pass {A : Type} (less : A -> A -> bool) (l : list A) : list A :=
  if (length l <=? 12)%nat then
    let '(lo, hi) := gap_swaps less (take 6 l) (drop 6 l) in lo ++ hi
  else l.

Definition Slice (A : Type) (less : A -> A -> bool) (l : list A) : list A :=
  insertionSort less (gap_pass less l).

Definition env : Externals :=
  mkExternals IsValid Canonical Major ParseGopkgIn Unquote Quote IsPrint "/"
    Slice map_to_list.

End GoEnv.

(** * Specification-level notions *)

(** [v] is the final segment of [p]: what follows the last slash, or all
    of [p] when it has none. *)
Definition final_segment (p v : string) : Prop :=
  mem_byte "/" v = false /\ (p = v \/ exists pre, p = pre +:+ "/" +:+ v).

(** The explicit-major pattern: the letter v followed by one or more
    digits. *)
Definition major_pattern (v : string) : Prop :=
  exists ds, v = String "v" ds /\ ds <> "" /\ all_digits ds = true.

(** The first digit after the v is a zero. *)
Definition leading_zero (v : string) : Prop := exists ds, v = "v0" +:+ ds.

(** A directory-style path: it begins with [./], [../], [/], one of their
    backslash forms, or a drive letter and a colon. *)
Definition ascii_letter (c : ascii) : Prop :=
  (N_of_ascii "A" <= N_of_ascii c <= N_of_ascii "Z")%N \/
  (N_of_ascii "a" <= N_of_ascii c <= N_of_ascii "z")%N.

Definition directory_style (ns : string) : Prop :=
  (exists rest, ns = "./" +:+ rest) \/ (exists rest, ns = "../" +:+ rest) \/
  (exists rest, ns = "/" +:+ rest) \/ (exists rest, ns = ".\" +:+ rest) \/
  (exists rest, ns = "..\" +:+ rest) \/ (exists rest, ns = "\" +:+ rest) \/
  (exists c rest, ns = String c (String ":" rest) /\ ascii_letter c).

(** A tree of one bare line at address 0, source line 1, in go.mod. *)
Definition one_line (tokens : list string) : FileSyntax :=
  mkFileSyntax "go.mod" [ELine 0] {[0 := mkLine tokens false 1]}.

(** [add] on that line, as [Parse] calls it, in the concrete environment. *)
Definition add_one (tokens : list string) : File * list Diag :=
  add GoEnv.env (new_File (one_line tokens)) [] 0 (arg tokens 0) 1 None.

(** What a call of [add] for a require or exclude statement did, read off
    the file and the error buffer before and after it: it accepted the
    statement (nothing printed, the record for [v] appended, with the line
    as its handle), or refused it (one diagnostic printed, no record). *)
Definition accepted_dep (isreq : bool) (f f' : File) (errs errs' : list Diag)
    (l : loc) (v : Version) : Prop :=
  errs' = errs /\
  fRequire f' = fRequire f ++ (if isreq then [mkRequire v (Some l)] else []) /\
  fExclude f' = fExclude f ++ (if isreq then [] else [mkExclude v (Some l)]).

Definition refused_dep (f f' : File) (errs errs' : list Diag) : Prop :=
  (exists d, errs' = errs ++ [d]) /\
  fRequire f' = fRequire f /\ fExclude f' = fExclude f.

(** The path names no major version: the legacy encoding does not apply
    to it and its last segment is no [vN]. *)
Definition no_major_suffix (E : Externals) (s : string) : Prop :=
  ParseGopkgIn E s = None /\ isMajorVersion (last_segment s) = false.

(** A call of [add] on the line [l] created the one record of its
    statement: the module record with its path, or a record appended to
    the list of its verb; the other records are as before. *)
Definition record_created (verb : string) (f f' : File) (l : loc) : Prop :=
  (verb = "module" /\ fModule f = None /\
   (exists s, fModule f' = Some (mkModule (mkVersion s "") (Some l))) /\
   fRequire f' = fRequire f /\ fExclude f' = fExclude f /\ fReplace f' = fReplace f) \/
  (verb = "require" /\ fModule f' = fModule f /\
   (exists v, fRequire f' = fRequire f ++ [mkRequire v (Some l)]) /\
   fExclude f' = fExclude f /\ fReplace f' = fReplace f) \/
  (verb = "exclude" /\ fModule f' = fModule f /\ fRequire f' = fRequire f /\
   (exists v, fExclude f' = fExclude f ++ [mkExclude v (Some l)]) /\
   fReplace f' = fReplace f) \/
  (verb = "replace" /\ fModule f' = fModule f /\ fRequire f' = fRequire f /\
   fExclude f' = fExclude f /\
   (exists old new, fReplace f' = fReplace f ++ [mkReplace old new (Some l)])).

(** A call of [add] created no Require, Exclude or Replace record, and left
    the module record alone unless the statement is the first module
    statement, whose record is installed, without a path, before its
    arguments are checked. *)
Definition no_record_created (verb : string) (f f' : File) (l : loc) : Prop :=
  fRequire f' = fRequire f /\ fExclude f' = fExclude f /\ fReplace f' = fReplace f /\
  (fModule f' = fModule f \/
   (verb = "module" /\ fModule f = None /\
    fModule f' = Some (mkModule Version0 (Some l)))).

(** The statements on which the loop of [Parse] panics: they have no token
    ([x.Token[0]] is out of range). *)
Definition tokenless (fs : FileSyntax) (x : Expr) : Prop :=
  match x with
  | ELine l => tokens_at fs l = []
  | ELineBlock b => BToken b = []
  | ECommentBlock _ => False
  end.

(** What package sort documents of [sort.Slice]: the slice is permuted,
    and it ends sorted when [less] is a strict weak ordering.  The order
    in which equal elements end is not specified. *)
Definition strict_weak_order {A : Type} (less : A -> A -> bool) : Prop :=
  (forall a b, less a b = true -> less b a = false) /\
  (forall a b c, less b a = false -> less c b = false -> less c a = false).

Definition sorted_by {A : Type} (less : A -> A -> bool) (l : list A) : Prop :=
  StronglySorted (fun a b => less b a = false) l.

Definition sort_Slice_contract (E : Externals) : Prop :=
  forall (A : Type) (less : A -> A -> bool) (l : list A),
    sort_Slice E A less l ≡ₚ l /\
    (strict_weak_order less -> sorted_by less (sort_Slice E A less l)).

(** The order of the token sequences, in the words of the spec: at the
    first position where the sequences differ the token of the first is
    the smaller string, or the first is a proper prefix of the second. *)
Definition tokens_before (ti tj : list string) : Prop :=
  (exists k a b, ti !! k = Some a /\ tj !! k = Some b /\
                 take k ti = take k tj /\ String.ltb a b = true) \/
  (exists rest, rest <> [] /\ tj = ti ++ rest).

(** [x'] is the statement [x] after the sorting loop of [SortBlocks]: a
    block keeps its header and holds the same lines, sorted; any other
    statement is unchanged. *)
Definition block_sorted (fs : FileSyntax) (x x' : Expr) : Prop :=
  match x with
  | ELineBlock b =>
      exists ls, x' = ELineBlock (mkLineBlock (BToken b) ls (BStart b)) /\
                 ls ≡ₚ BLine b /\ sorted_by (less_line fs) ls
  | _ => x' = x
  end.

(** The file that [Parse] decodes from a tree, in the concrete
    environment, without a version fixer. *)
Definition decoded (fs : FileSyntax) : File :=
  match decode GoEnv.env "go.mod" fs None with
  | Some (f, _) => f
  | None => new_File fs
  end.

(** A require block of seven lines; the first and the fourth line are the
    same requirement. *)
Definition seven_requires : FileSyntax :=
  mkFileSyntax "go.mod"
    [ELineBlock (mkLineBlock ["require"] [0; 1; 2; 3; 4; 5; 6] 1)]
    (list_to_map
       [(0, mkLine ["example.com/b"; "v1.0.0"] true 2);
        (1, mkLine ["example.com/c"; "v1.0.0"] true 3);
        (2, mkLine ["example.com/d"; "v1.0.0"] true 4);
        (3, mkLine ["example.com/b"; "v1.0.0"] true 5);
        (4, mkLine ["example.com/e"; "v1.0.0"] true 6);
        (5, mkLine ["example.com/f"; "v1.0.0"] true 7);
        (6, mkLine ["example.com/a"; "v1.0.0"] true 8)]).

(** The non-nil line handles of the Exclude and Replace records are
    pairwise distinct: no two records were decoded from, or created for,
    the same line. *)
Definition handles_distinct (f : File) : Prop :=
  NoDup (omap xSyntax (fExclude f) ++ omap pSyntax (fReplace f)).

(** The line at [h] is the line of an Exclude or Replace record that
    [removeDups] removed. *)
Definition line_of_removed (f f' : File) (h : loc) : Prop :=
  (exists x, x ∈ fExclude f /\ xSyntax x = Some h /\ x ∉ fExclude f') \/
  (exists r, r ∈ fReplace f /\ pSyntax r = Some h /\ r ∉ fReplace f').

(** Two replace statements with the same old path and version, as decoded
    from a file of two lines. *)
Definition two_replaces : FileSyntax :=
  mkFileSyntax "go.mod" [ELine 0; ELine 1]
    {[0 := mkLine ["replace"; "example.com/a"; "v1.0.0"; "=>"; "./first"] false 1;
      1 := mkLine ["replace"; "example.com/a"; "v1.0.0"; "=>"; "./second"] false 2]}.

(** Two exclude statements for the same path and version, as a file may
    hold them: [Parse] does not remove duplicates. *)
Definition two_excludes : FileSyntax :=
  mkFileSyntax "go.mod" [ELine 0; ELine 1]
    {[0 := mkLine ["exclude"; "example.com/a"; "v1.0.0"] false 1;
      1 := mkLine ["exclude"; "example.com/a"; "v1.0.0"] false 2]}.

(** The Exclude records of [f] for the pair (path, version). *)
Definition excludes_of (f : File) (path vers : string) : list ExcludeStmt :=
  filter (fun x : ExcludeStmt => xMod x = mkVersion path vers) (fExclude f).

(** The tree [fs'] is the tree [fs] with the one new line [l]: a fresh
    object that holds [tokens] (without the verb when it is nested in a
    block), inserted at one place among the lines. *)
Definition line_added (fs fs' : FileSyntax) (l : loc) (tokens : list string) : Prop :=
  Lines fs !! l = None /\
  (exists ln, Lines fs' = <[l := ln]> (Lines fs) /\
              (Token ln = tokens /\ InBlock ln = false \/
               Token ln = drop 1 tokens /\ InBlock ln = true)) /\
  (exists pre post, tree_lines (Stmt fs) = pre ++ post /\
                    tree_lines (Stmt fs') = pre ++ l :: post) /\
  Name fs' = Name fs.

(** The Require records of [f] for [path]. *)
Definition requires_of (f : File) (path : string) : list RequireStmt :=
  filter (fun r : RequireStmt => Path (rMod r) = path) (fRequire f).

(** The records for [path] hold lines, and no two of them hold the same
    line. *)
Definition require_handles_ok (f : File) (path : string) : Prop :=
  (forall r, r ∈ requires_of f path -> is_Some (rSyntax r)) /\
  NoDup (map rSyntax (requires_of f path)).

(** A record for [path] is blanked; any other record stays. *)
Definition blank_path (path : string) (r : RequireStmt) : RequireStmt :=
  if decide (Path (rMod r) = path) then Require0 else r.

(** The tokens [updateLine] leaves in a line. *)
Definition tokens_in (fs : FileSyntax) (l : loc) (tokens : list string) : list string :=
  if InBlock (line_at fs l) then drop 1 tokens else tokens.

(** Two require statements for the same path, and the file decoded from
    them. *)
Definition two_requires : FileSyntax :=
  mkFileSyntax "go.mod" [ELine 0; ELine 1]
    {[0 := mkLine ["require"; "example.com/a"; "v1.0.0"] false 1;
      1 := mkLine ["require"; "example.com/a"; "v1.1.0"] false 2]}.

(** The require statements of a tree, in the order [SetRequire] meets
    them: each with the index of its path token (1 in a bare line, 0 in a
    line of a require block); the version token follows the path token. *)
Definition require_lines_of (fs : FileSyntax) (x : Expr) : list (loc * nat) :=
  match x with
  | ELine l => if is_require (tokens_at fs l) then [(l, 1)] else []
  | ELineBlock b => if is_require (BToken b) then map (fun l => (l, 0)) (BLine b) else []
  | ECommentBlock _ => []
  end.

Definition require_lines (fs : FileSyntax) (stmts : list Expr) : list (loc * nat) :=
  concat (map (require_lines_of fs) stmts).

(** The path of a require statement: its path token, unquoted. *)
Definition line_path (E : Externals) (fs : FileSyntax) (li : loc * nat) : option string :=
  match tokens_at fs li.1 !! li.2 with
  | Some t =>
      match parseString E t with
      | (_, Ok p) => Some p
      | (_, Err _) => None
      end
  | None => None
  end.

(** [need[p] != ""]: the map holds a non-empty version for [p]. *)
Definition wanted (need : gmap string string) (p : string) : Prop :=
  default "" (need !! p) <> "".

(** The require statements that survive, and the map that is left, when
    the statements [lis] are met in order with the map [need]: a statement
    survives when the map holds a non-empty version for its path, and its
    path then leaves the map. *)
Fixpoint kept_lines (E : Externals) (need : gmap string string) (fs : FileSyntax)
    (lis : list (loc * nat)) : list loc :=
  match lis with
  | [] => []
  | li :: rest =>
      match line_path E fs li with
      | Some p =>
          if decide (wanted need p) then li.1 :: kept_lines E (delete p need) fs rest
          else kept_lines E need fs rest
      | None => kept_lines E need fs rest
      end
  end.

Fixpoint need_after (E : Externals) (need : gmap string string) (fs : FileSyntax)
    (lis : list (loc * nat)) : gmap string string :=
  match lis with
  | [] => need
  | li :: rest =>
      match line_path E fs li with
      | Some p =>
          if decide (wanted need p) then need_after E (delete p need) fs rest
          else need_after E need fs rest
      | None => need_after E need fs rest
      end
  end.

(** A statement of the tree after the require statements outside [K] were
    dropped: a require line outside [K] goes, a require block keeps its
    lines in [K] and goes when none is left, any other statement stays. *)
Definition keep_stmt (fs : FileSyntax) (K : list loc) (x : Expr) : option Expr :=
  match x with
  | ELine l =>
      if is_require (tokens_at fs l) then
        if decide (l ∈ K) then Some x else None
      else Some x
  | ELineBlock b =>
      if is_require (BToken b) then
        match filter (fun l : loc => l ∈ K) (BLine b) with
        | [] => None
        | ls => Some (ELineBlock (mkLineBlock (BToken b) ls (BStart b)))
        end
      else Some x
  | ECommentBlock _ => Some x
  end.

(** Every line object stands once in the tree, and every require
    statement has its path token and its version token. *)
Definition require_tree_ok (fs : FileSyntax) : Prop :=
  NoDup (tree_lines (Stmt fs)) /\
  forall li, li ∈ require_lines fs (Stmt fs) -> S li.2 < length (tokens_at fs li.1).

(** [range] visits every entry of the map once, in some order. *)
Definition range_visits_all (E : Externals) : Prop :=
  forall m : gmap string string, map_range E m ≡ₚ map_to_list m.

(** The file [f'] is the file [f] with one new require statement per
    entry of [pvs] at the end of its statement list, and one new Require
    record per entry at the end of its records: the lines [news], in the
    order of [pvs]. *)
Definition appended (E : Externals) (f f' : File) (pvs : list (string * string))
    (news : list loc) : Prop :=
  Stmt (fSyntax f') = Stmt (fSyntax f) ++ map ELine news /\
  Forall2 (fun pv l =>
             Lines (fSyntax f) !! l = None /\
             Lines (fSyntax f') !! l
             = Some (mkLine ["require"; AutoQuote E pv.1; pv.2] false 0)) pvs news /\
  NoDup news /\
  fRequire f'
  = fRequire f ++ zip_with (fun pv l => mkRequire (mkVersion pv.1 pv.2) (Some l)) pvs news /\
  (forall l, is_Some (Lines (fSyntax f) !! l) ->
             Lines (fSyntax f') !! l = Lines (fSyntax f) !! l) /\
  Name (fSyntax f') = Name (fSyntax f) /\
  fModule f' = fModule f /\ fExclude f' = fExclude f /\ fReplace f' = fReplace f.

(** The line [l] is new in [fs'] and holds the require statement of the
    entry [pv]. *)
Definition new_require (E : Externals) (fs fs' : FileSyntax) (pv : string * string)
    (l : loc) : Prop :=
  Lines fs !! l = None /\ tokens_at fs' l = ["require"; AutoQuote E pv.1; pv.2].

(** A require block of two lines, and the file decoded from it. *)
Definition require_block : FileSyntax :=
  mkFileSyntax "go.mod" [ELineBlock (mkLineBlock ["require"] [0; 1] 1)]
    {[0 := mkLine ["example.com/a"; "v1.0.0"] true 2;
      1 := mkLine ["example.com/b"; "v1.0.0"] true 3]}.

(** Lexicographic comparison of lists over a comparison [c] of their
    elements; a proper prefix comes first. *)
Fixpoint lex {A : Type} (c : A -> A -> comparison) (l1 l2 : list A) : comparison :=
  match l1, l2 with
  | [], [] => Eq
  | [], _ :: _ => Lt
  | _ :: _, [] => Gt
  | a :: l1', b :: l2' =>
      match c a b with
      | Eq => lex c l1' l2'
      | r => r
      end
  end.

(** The tree [fs'] differs from [fs] at most in the lines [ls]: the
    statement list is the same, every other line is the same, and no line
    leaves the store. *)
Definition same_but (fs fs' : FileSyntax) (ls : list loc) : Prop :=
  Name fs' = Name fs /\ Stmt fs' = Stmt fs /\
  (forall l, l ∉ ls -> line_at fs' l = line_at fs l) /\
  (forall l, is_Some (Lines fs !! l) -> is_Some (Lines fs' !! l)).

(** What treating the require statements [lis] with the map [need] does to
    the store: it touches their lines only, and every statement that
    survives has the unquoted-and-requoted path and the version of the map
    in place of its path and version tokens. *)
Definition treated (E : Externals) (need : gmap string string) (fs fs' : FileSyntax)
    (lis : list (loc * nat)) : Prop :=
  same_but fs fs' (map fst lis) /\
  forall li p, li ∈ lis -> li.1 ∈ kept_lines E need fs lis ->
    line_path E fs li = Some p ->
    tokens_at fs' li.1
    = <[S li.2 := default "" (need !! p)]> (<[li.2 := AutoQuote E p]> (tokens_at fs li.1)).

(** The [*Line] pointers that the records of a file hold, the Module
    record first. *)
Definition all_handles (f : File) : list (option loc) :=
  match fModule f with Some m => [mSyntax m] | None => [] end ++
  map rSyntax (fRequire f) ++ map xSyntax (fExclude f) ++ map pSyntax (fReplace f).

(** A version in canonical form: what [semver.Canonical] returns for a
    valid version. *)
Definition canonical_version (E : Externals) (v : string) : Prop :=
  exists t, semver_IsValid E t = true /\ v = semver_Canonical E t.

(** A path and version that the decoder accepts on the left of a
    statement: the version is canonical and its major fits the path. *)
Definition dependency_ok (E : Externals) (m : Version) : Prop :=
  canonical_version E (Vers m) /\
  exists v1, moduleMajorVersion E (Path m) = Ok v1 /\
             major_mismatch v1 (semver_Major E (Vers m)) = false.

(** The right-hand side of a replace statement: a directory without a
    version, or a module path with a canonical version. *)
Definition replacement_ok (E : Externals) (m : Version) : Prop :=
  (IsDirectoryPath (Path m) = true /\ Vers m = "") \/
  (IsDirectoryPath (Path m) = false /\ canonical_version E (Vers m)).

Definition records_ok (E : Externals) (f : File) : Prop :=
  (forall m, fModule f = Some m -> Vers (mMod m) = "") /\
  Forall (fun r => dependency_ok E (rMod r)) (fRequire f) /\
  Forall (fun x => dependency_ok E (xMod x)) (fExclude f) /\
  Forall (fun r => dependency_ok E (Old r) /\ replacement_ok E (New r)) (fReplace f).

(** [add] writes the tokens of its own line only, from token [off] on, and
    keeps their number. *)
Definition rewritten (off : nat) (l : loc) (fs fs' : FileSyntax) : Prop :=
  Name fs' = Name fs /\ Stmt fs' = Stmt fs /\
  (forall l', l' <> l -> line_at fs' l' = line_at fs l') /\
  InBlock (line_at fs' l) = InBlock (line_at fs l) /\
  StartLine (line_at fs' l) = StartLine (line_at fs l) /\
  length (tokens_at fs' l) = length (tokens_at fs l) /\
  take off (tokens_at fs' l) = take off (tokens_at fs l).

(** The records hold lines decoded so far, each once, and every list of
    records holds them in the order of the tree. *)
Definition handles_in (done : list loc) (st : File * list Diag) : Prop :=
  NoDup (all_handles st.1) /\
  (forall h, h ∈ all_handles st.1 -> exists l, h = Some l /\ l ∈ done) /\
  map rSyntax (fRequire st.1) `sublist_of` (Some <$> done) /\
  map xSyntax (fExclude st.1) `sublist_of` (Some <$> done) /\
  map pSyntax (fReplace st.1) `sublist_of` (Some <$> done).

(** A tree with a module statement, a require block, an exclude and a
    replace statement and a comment, and the file decoded from it. *)
Definition sample_tree : FileSyntax :=
  mkFileSyntax "go.mod"
    [ELine 0; ELineBlock (mkLineBlock ["require"] [1; 2] 2); ELine 3; ELine 4;
     ECommentBlock ["// local fork"]]
    (list_to_map
       [(0, mkLine ["module"; "example.com/m"] false 1);
        (1, mkLine ["example.com/a"; "v1.2.3"] true 3);
        (2, mkLine ["example.com/b/v2"; "v2.0.0"] true 4);
        (3, mkLine ["exclude"; "example.com/a"; "v1.0.0"] false 6);
        (4, mkLine ["replace"; "example.com/b/v2"; "v2.0.0"; "=>"; "./b"] false 7)]).

(** The loop that [DropRequire], [DropExclude] and [DropReplace] share:
    every record that [hit] selects loses its line and is blanked to the
    zero record. *)
Fixpoint drop_loop {A : Type} (hit : A -> bool) (syn : A -> option loc) (zero : A)
    (rs : list A) (fs : FileSyntax) : option (list A * FileSyntax) :=
  match rs with
  | [] => Some ([], fs)
  | r :: rs' =>
      if hit r then
        match removeLine fs (syn r) with
        | None => None
        | Some fs' =>
            match drop_loop hit syn zero rs' fs' with
            | None => None
            | Some (out, fs'') => Some (zero :: out, fs'')
            end
        end
      else
        match drop_loop hit syn zero rs' fs with
        | None => None
        | Some (out, fs'') => Some (r :: out, fs'')
        end
  end.

(** The lines of the records that [hit] selects. *)
Definition hit_lines {A : Type} (hit : A -> bool) (syn : A -> option loc)
    (rs : list A) : list loc :=
  omap syn (filter (fun r => hit r = true) rs).

(** What a drop leaves of the tree: the lines of the records dropped have
    no tokens, and nothing else changed. *)
Definition lines_emptied (fs fs' : FileSyntax) (ls : list loc) : Prop :=
  same_but fs fs' ls /\ forall l, l ∈ ls -> tokens_at fs' l = [].

(** An Exclude record for the pair is blanked; any other record stays. *)
Definition blank_pair (path vers : string) (x : ExcludeStmt) : ExcludeStmt :=
  if decide (xMod x = mkVersion path vers) then Exclude0 else x.

(** A Replace record for the old pair is blanked; any other record stays. *)
Definition blank_old (oldPath oldVers : string) (r : ReplaceStmt) : ReplaceStmt :=
  if decide (Old r = mkVersion oldPath oldVers) then Replace0 else r.

(** The Replace records of [f] for the old pair. *)
Definition replaces_of (f : File) (old : Version) : list ReplaceStmt :=
  filter (fun r : ReplaceStmt => Old r = old) (fReplace f).

(** The records for the old pair hold lines, and no two of them hold the
    same line. *)
Definition replace_handles_ok (f : File) (old : Version) : Prop :=
  (forall r, r ∈ replaces_of f old -> is_Some (pSyntax r)) /\
  NoDup (map pSyntax (replaces_of f old)).

(** The tokens of the replace statement that [AddReplace] writes. *)
Definition replace_tokens (E : Externals) (oldPath oldVers newPath newVers : string)
  : list string :=
  ["replace"; AutoQuote E oldPath; oldVers; "=>"; AutoQuote E newPath] ++
  (if String.eqb newVers "" then [] else [newVers]).

(** The file has a Module record for [path] whose line is in the store and
    holds the module statement for [path]. *)
Definition module_set (E : Externals) (f : File) (path : string) : Prop :=
  exists m h,
    fModule f = Some m /\ Path (mMod m) = path /\ mSyntax m = Some h /\
    is_Some (Lines (fSyntax f) !! h) /\
    tokens_at (fSyntax f) h = tokens_in (fSyntax f) h ["module"; AutoQuote E path].

(** The comment blocks of a statement list, in order. *)
Definition comment_of (x : Expr) : option (list string) :=
  match x with ECommentBlock text => Some text | _ => None end.

Definition comment_blocks (stmts : list Expr) : list (list string) :=
  omap comment_of stmts.

Definition comments (f : File) : list (list string) :=
  comment_blocks (Stmt (fSyntax f)).

(** The path token and the version token of a require statement. *)
Definition stmt_pair (fs : FileSyntax) (li : loc * nat) : option (string * string) :=
  match tokens_at fs li.1 !! li.2, tokens_at fs li.1 !! S li.2 with
  | Some p, Some v => Some (p, v)
  | _, _ => None
  end.

(** The tokens that stand for an entry of the map. *)
Definition entry_tokens (E : Externals) (pv : string * string) : string * string :=
  (AutoQuote E pv.1, pv.2).

(** The entries of the map that the loop of [SetRequire] writes into the
    statements it keeps, in the order of the statements. *)
Fixpoint kept_entries (E : Externals) (need : gmap string string) (fs : FileSyntax)
    (lis : list (loc * nat)) : list (string * string) :=
  match lis with
  | [] => []
  | li :: rest =>
      match line_path E fs li with
      | Some p =>
          if decide (wanted need p)
          then (p, default "" (need !! p)) :: kept_entries E (delete p need) fs rest
          else kept_entries E need fs rest
      | None => kept_entries E need fs rest
      end
  end.

(** Every line of the tree is an object of the store. *)
Definition tree_in_store (fs : FileSyntax) : Prop :=
  forall l, l ∈ tree_lines (Stmt fs) -> is_Some (Lines fs !! l).

(** What a call of [add] that printed a diagnostic left of the records:
    the Require, Exclude and Replace records as they were, and the Module
    record as it was, but for a module statement met while the file has no
    Module record: its record is installed, without a path, before the
    arguments are checked (line 146), and stays. *)
Definition rejected_records (verb : string) (f f' : File) (l : loc) : Prop :=
  fRequire f' = fRequire f /\ fExclude f' = fExclude f /\ fReplace f' = fReplace f /\
  fModule f' = match fModule f with
               | Some m => Some m
               | None => if String.eqb verb "module"
                         then Some (mkModule Version0 (Some l)) else None
               end.

(** A tree with rejected statements before accepted ones: an unknown
    directive, a require block whose second line has the wrong major, a
    block of unknown type, and an exclude statement. *)
Definition rejected_tree : FileSyntax :=
  mkFileSyntax "go.mod"
    [ELine 0;
     ELineBlock (mkLineBlock ["require"] [1; 2; 3] 2);
     ELineBlock (mkLineBlock ["retract"] [4] 7);
     ELine 5]
    (list_to_map
       [(0, mkLine ["bogus"; "x"] false 1);
        (1, mkLine ["example.com/a"; "v1.0.0"] true 3);
        (2, mkLine ["example.com/b/v2"; "v1.0.0"] true 4);
        (3, mkLine ["example.com/c"; "v1.2.3"] true 5);
        (4, mkLine ["example.com/d"; "v1.0.0"] true 8);
        (5, mkLine ["exclude"; "example.com/e"; "v1.0.0"] false 10)]).

(** The lines that the Exclude and Replace records hold are lines of the
    tree, and none of them is a require statement. *)
Definition other_handles_apart (f : File) : Prop :=
  forall l, Some l ∈ map xSyntax (fExclude f) ++ map pSyntax (fReplace f) ->
            l ∈ tree_lines (Stmt (fSyntax f)) /\
            l ∉ map fst (require_lines (fSyntax f) (Stmt (fSyntax f))).

(** * Properties of the decoder and the editor *)

Lemma HasPrefix_byte c s :
  HasPrefix s (String c EmptyString) = true <-> exists s', s = String c s'.
Proof.
  destruct s as [|d s]; cbn [HasPrefix].
  - split; [done | by intros [? ?]].
  - destruct (Ascii.eqb_spec c d) as [<- | Hne]; cbn.
    + split; [eauto | done].
    + split; [done | intros [s' [=]]; congruence].
Qed.

Lemma LastIndex_from_none s : forall i,
  mem_byte "/" s = false -> LastIndex_from i s "/" = (-1)%Z.
Proof.
  induction s as [|c s IH]; intros i H; [done |].
  cbn [mem_byte] in H. apply orb_false_iff in H as [Hc Hs].
  cbn [LastIndex_from HasPrefix]. rewrite IH by done.
  rewrite Hc. done.
Qed.

Lemma LastIndex_from_last pre v : forall i,
  (0 <= i)%Z -> mem_byte "/" v = false ->
  LastIndex_from i (pre +:+ "/" +:+ v) "/" = (i + Z.of_nat (String.length pre))%Z.
Proof.
  induction pre as [|c pre IH]; intros i Hi Hv.
  - change ("" +:+ "/" +:+ v) with (String "/" v).
    cbn [LastIndex_from]. rewrite LastIndex_from_none by done. cbn. lia.
  - change (String c pre +:+ "/" +:+ v) with (String c (pre +:+ "/" +:+ v)).
    cbn [LastIndex_from]. rewrite IH by (done || lia).
    destruct (Z.leb_spec 0 (i + 1 + Z.of_nat (String.length pre))); cbn [String.length]; lia.
Qed.

Lemma skip_past pre c s : skip (S (String.length pre)) (pre +:+ String c s) = s.
Proof. induction pre as [|a pre IH]; [done | exact IH]. Qed.

Lemma last_segment_final p v : final_segment p v -> last_segment p = v.
Proof.
  intros [Hv [-> | [pre ->]]]; unfold last_segment, LastIndex.
  - by rewrite LastIndex_from_none.
  - rewrite LastIndex_from_last by (done || lia).
    replace (Z.to_nat (0 + Z.of_nat (String.length pre) + 1)) with (S (String.length pre)) by lia.
    apply skip_past.
Qed.

Lemma isMajorVersion_pattern v : isMajorVersion v = true <-> major_pattern v.
Proof.
  unfold isMajorVersion, major_pattern. split.
  - destruct v as [|c [|d ds]]; cbn; try done.
    unfold byte_eqb.
    destruct (Ascii.eqb_spec c "v") as [-> | Hne]; cbn; [|done].
    intros H. exists (String d ds). split; [done | split; [done | exact H]].
  - intros (ds & -> & Hne & Hd). destruct ds as [|d ds]; [done |]. exact Hd.
Qed.

Lemma leading_zero_byte v :
  major_pattern v -> byte_eqb (at_ v 1) "0" = true <-> leading_zero v.
Proof.
  intros (ds & -> & Hne & _). destruct ds as [|d ds]; [done |].
  unfold at_, byte_eqb, leading_zero; cbn.
  destruct (Ascii.eqb_spec d "0") as [-> | Hd].
  - split; [eauto | done].
  - split; [done | intros [ds' [=]]; congruence].
Qed.

(** ** The required major version of a path *)

Section Paths.
Variable E : Externals.

(** C5, as amended.  For a path [p] that [ParseGopkgIn] does not recognise,
    with final segment [v]: when [v] does not match the explicit-major
    pattern the required major is v1; when it matches and its first digit
    is a zero (v0, v01, v007, ...) or it is exactly v1, the path is
    rejected; any other matching segment is the required major. *)
Theorem moduleMajorVersion_spec (p v : string) :
  ParseGopkgIn E p = None -> final_segment p v ->
  (~ major_pattern v -> moduleMajorVersion E p = Ok "v1") /\
  (major_pattern v -> leading_zero v \/ v = "v1" ->
   exists e, moduleMajorVersion E p = Err e) /\
  (major_pattern v -> ~ leading_zero v -> v <> "v1" ->
   moduleMajorVersion E p = Ok v).
Proof.
  intros Hg Hseg. unfold moduleMajorVersion. rewrite Hg.
  rewrite (last_segment_final _ _ Hseg).
  destruct (isMajorVersion v) eqn:Hm; cbn [negb].
  - apply isMajorVersion_pattern in Hm as Hpat.
    pose proof (leading_zero_byte v Hpat) as Hz.
    split; [tauto |]. split.
    + intros _ [Hlz | ->].
      * apply Hz in Hlz. rewrite Hlz. cbn. eauto.
      * rewrite orb_true_r. eauto.
    + intros _ Hnz Hne.
      destruct (byte_eqb (at_ v 1) "0") eqn:Hb; [tauto |].
      destruct (String.eqb_spec v "v1"); [done | done].
  - assert (~ major_pattern v) by (rewrite <- isMajorVersion_pattern; congruence).
    split; [done | split; tauto].
Qed.

End Paths.

(** The theorem at example.com/foo/v2. *)
Lemma moduleMajorVersion_spec_witness :
  moduleMajorVersion GoEnv.env "example.com/foo/v2" = Ok "v2".
Proof.
  refine (proj2 (proj2 (moduleMajorVersion_spec GoEnv.env "example.com/foo/v2" "v2" _ _)) _ _ _).
  - reflexivity.
  - split; [reflexivity | right; exists "example.com/foo"; reflexivity].
  - exists "2". split; [reflexivity | split; [discriminate | reflexivity]].
  - intros [ds H]; discriminate.
  - discriminate.
Defined.

(** C5 as stated fails: the segment v01 matches the pattern and is neither
    v0 nor v1, yet the path is rejected rather than given the major v01. *)
Lemma moduleMajorVersion_leading_zero_rejected :
  ParseGopkgIn GoEnv.env "example.com/foo/v01" = None /\
  last_segment "example.com/foo/v01" = "v01" /\
  isMajorVersion "v01" = true /\
  "v01" <> "v0" /\ "v01" <> "v1" /\
  moduleMajorVersion GoEnv.env "example.com/foo/v01"
  = Err "module path has invalid version number v01".
Proof. repeat split; (reflexivity || discriminate). Qed.

(** ** The decoder: replace, require and exclude statements, diagnostics *)

Lemma HasPrefix_app s p : HasPrefix s p = true <-> exists rest, s = p +:+ rest.
Proof.
  revert s. induction p as [|a p IH]; intros s; cbn [HasPrefix].
  - split; [eauto | done].
  - destruct s as [|b s]; [split; [done | by intros [? ?]] |].
    destruct (Ascii.eqb_spec a b) as [<- | Hne]; cbn.
    + rewrite IH. split; intros [rest H]; exists rest; [by rewrite H | by injection H].
    + split; [done | intros [rest [=]]; congruence].
Qed.

Lemma byte_leb_le a b : byte_leb a b = true <-> (N_of_ascii a <= N_of_ascii b)%N.
Proof. unfold byte_leb. apply N.leb_le. Qed.

Lemma IsDirectoryPath_style ns : IsDirectoryPath ns = true <-> directory_style ns.
Proof.
  unfold IsDirectoryPath, directory_style.
  rewrite !orb_true_iff, !HasPrefix_app.
  assert ((2 <=? String.length ns)%nat &&
          (byte_leb "A" (at_ ns 0) && byte_leb (at_ ns 0) "Z"
           || byte_leb "a" (at_ ns 0) && byte_leb (at_ ns 0) "z") &&
          byte_eqb (at_ ns 1) ":" = true <->
          exists c rest, ns = String c (String ":" rest) /\ ascii_letter c) as ->.
  { unfold ascii_letter. split.
    - destruct ns as [|c [|d rest]]; [done | done |].
      unfold at_, byte_eqb; cbn [String.get String.length].
      rewrite !andb_true_iff, orb_true_iff, !andb_true_iff, !byte_leb_le.
      intros [[_ H] Hd]. apply Ascii.eqb_eq in Hd as ->. eauto.
    - intros (c & rest & -> & H). unfold at_, byte_eqb; cbn [String.get String.length].
      rewrite !andb_true_iff, orb_true_iff, !andb_true_iff, !byte_leb_le.
      split; [split; [done | exact H] | apply Ascii.eqb_refl]. }
  tauto.
Qed.

Section AddProperties.
Variable E : Externals.

Lemma fReplace_write_args f l off args : fReplace (write_args f l off args) = fReplace f.
Proof. done. Qed.

Lemma decode_replace_accepts verb args fix_ args' old new :
  decode_replace E verb args fix_ = (args', inr (old, new)) ->
  (length args = 4 \/ length args = 5) /\
  (parseString E (arg args 3)).2 = Ok (Path new) /\
  (length args = 4 -> IsDirectoryPath (Path new) = true /\ Vers new = "") /\
  (length args = 5 -> IsDirectoryPath (Path new) = false /\
     (parseVersion E (Path new) (arg args 4) fix_).2 = Ok (Vers new)).
Proof.
  unfold decode_replace.
  destruct (_ || _ || _) eqn:Hlen; [done |].
  apply orb_false_iff in Hlen as [Hlen _]. apply orb_false_iff in Hlen as [H4 H5].
  apply Nat.ltb_ge in H4, H5.
  destruct (decode_left E args fix_) as [args1 [m | old1]] eqn:Hleft; [done |].
  assert (length args1 = length args /\ arg args1 3 = arg args 3 /\ arg args1 4 = arg args 4)
    as (Hl1 & H3 & H44).
  { revert Hleft. unfold decode_left. repeat case_match; intros [= <- _];
      rewrite ?length_insert; unfold arg;
      rewrite ?list_lookup_insert_ne by lia; done. }
  rewrite H3.
  destruct (parseString E (arg args 3)) as [a3 [ns | e]] eqn:Hps; [|done].
  rewrite !length_insert, Hl1.
  replace (arg (<[3:=a3]> args1) 4) with (arg args 4)
    by (rewrite <- H44; unfold arg; by rewrite list_lookup_insert_ne by lia).
  destruct (length args =? 4)%nat eqn:E4; cbn [andb].
  - apply Nat.eqb_eq in E4.
    destruct (IsDirectoryPath ns) eqn:Hdir; cbn [negb]; [|done].
    destruct (_ && _); [done |].
    replace (length args =? 5)%nat with false by (symmetry; apply Nat.eqb_neq; lia).
    intros [= _ <- <-]. cbn.
    split; [auto |]. split; [done |]. split; [done | intros; exfalso; lia].
  - apply Nat.eqb_neq in E4.
    destruct (length args =? 5)%nat eqn:E5. 2:{ apply Nat.eqb_neq in E5. exfalso. lia. }
    destruct (parseVersion E ns (arg args 4) fix_) as [a4 [nv | e]] eqn:Hpv; [|done].
    destruct (IsDirectoryPath ns) eqn:Hdir; [done |].
    intros [= _ <- <-]. cbn. apply Nat.eqb_eq in E5.
    split; [auto |]. split; [done |]. split; [intros; exfalso; lia |].
    intros _. by rewrite Hpv.
Qed.

(** C9.  A call of [add] for a replace statement either appends one
    Replace record and prints nothing, or prints one diagnostic and appends
    nothing.  When it appends: with 4 arguments the right-hand side is a
    directory-style path; with 5 arguments the 5th went through
    [parseVersion] and the 4th is not a directory-style path.  A 4-argument
    replace with a module path on the right is rejected; with ./local it is
    accepted. *)
Theorem add_replace_rule (f : File) (errs : list Diag) (l : loc) (off : nat)
    (fix_ : option VersionFixer) :
  let args := drop off (tokens_at (fSyntax f) l) in
  let f' := (add E f errs l "replace" off fix_).1 in
  let errs' := (add E f errs l "replace" off fix_).2 in
  ((exists r, fReplace f' = fReplace f ++ [r] /\ errs' = errs) \/
   (fReplace f' = fReplace f /\ exists d, errs' = errs ++ [d])) /\
  (forall r, fReplace f' = fReplace f ++ [r] ->
     (length args = 4 \/ length args = 5) /\
     (parseString E (arg args 3)).2 = Ok (Path (New r)) /\
     (length args = 4 -> IsDirectoryPath (Path (New r)) = true /\ Vers (New r) = "") /\
     (length args = 5 -> IsDirectoryPath (Path (New r)) = false /\
        (parseVersion E (Path (New r)) (arg args 4) fix_).2 = Ok (Vers (New r)))) /\
  (forall ns, IsDirectoryPath ns = true <-> directory_style ns) /\
  (add_one ["replace"; "example.com/a"; "v1.0.0"; "=>"; "example.com/b"]).2
    = [mkDiag "go.mod" 1 ReplacementNotDirectory] /\
  fReplace (add_one ["replace"; "example.com/a"; "v1.0.0"; "=>"; "example.com/b"]).1 = [] /\
  (add_one ["replace"; "example.com/a"; "v1.0.0"; "=>"; "./local"]).2 = [] /\
  fReplace (add_one ["replace"; "example.com/a"; "v1.0.0"; "=>"; "./local"]).1
    = [mkReplace (mkVersion "example.com/a" "v1.0.0") (mkVersion "./local" "") (Some 0)].
Proof.
  intros args f' errs'. subst f' errs'. unfold add. cbn [String.eqb Ascii.eqb Bool.eqb orb].
  fold args.
  destruct (decode_replace E "replace" args fix_) as [args' [m | [old new]]] eqn:Hd; cbn [fst snd].
  - split; [right; split; [done | eauto] |].
    split; [| split; [apply IsDirectoryPath_style | by vm_compute]].
    intros r Hr. rewrite fReplace_write_args in Hr.
    apply (f_equal length) in Hr. rewrite length_app in Hr. cbn in Hr. lia.
  - split; [left; eauto |].
    split; [| split; [apply IsDirectoryPath_style | by vm_compute]].
    intros r Hr. cbn in Hr. apply app_inv_head in Hr. injection Hr as <-.
    cbn [New]. eapply decode_replace_accepts; eauto.
Qed.

End AddProperties.

Section RequireRule.
Variable E : Externals.

Lemma major_mismatch_false v1 v2 :
  major_mismatch v1 v2 = false <-> v2 = v1 \/ (v1 = "v1" /\ v2 = "v0").
Proof.
  unfold major_mismatch.
  destruct (String.eqb_spec v1 v2), (String.eqb_spec v1 "v1"), (String.eqb_spec v2 "v0");
    cbn; intuition congruence.
Qed.

Lemma decode_left_spec args fix_ s v v1 :
  (parseString E (arg args 0)).2 = Ok s ->
  (parseVersion E s (arg args 1) fix_).2 = Ok v ->
  moduleMajorVersion E s = Ok v1 ->
  exists args',
    decode_left E args fix_ =
    (args', if major_mismatch v1 (semver_Major E v)
            then inl (InvalidModule s v1 (semver_Major E v) v)
            else inr (mkVersion s v)).
Proof.
  intros Hs Hv Hm. unfold decode_left.
  destruct (parseString E (arg args 0)) as [a0 r0]; cbn in Hs; subst r0.
  replace (arg (<[0:=a0]> args) 1) with (arg args 1)
    by (unfold arg; by rewrite list_lookup_insert_ne by lia).
  destruct (parseVersion E s (arg args 1) fix_) as [a1 r1]; cbn in Hv; subst r1.
  rewrite Hm. destruct (major_mismatch _ _); eauto.
Qed.

Lemma app_nil_end_inv {A} (l : list A) x : l ++ [x] <> l.
Proof.
  intros H. apply (f_equal length) in H. rewrite length_app in H. cbn in H. lia.
Qed.

(** C1, as amended.  For a require or exclude statement whose path and
    version pass the earlier checks, [add] accepts it exactly when the
    semver major of the canonical version equals the required major of the
    path, or the required major is v1 and the version's major is v0;
    otherwise it refuses it.  The required major is v1 in two cases and no
    other: the path names no major version, or the legacy encoding names
    v1 for it, as in gopkg.in/yaml.v1.  So a path of the second kind,
    whose major is explicit, takes the versions of major v0 as well. *)
Theorem add_require_major_rule (f : File) (errs : list Diag) (l : loc) (off : nat)
    (fix_ : option VersionFixer) (isreq : bool) :
  let verb := if isreq then "require" else "exclude" in
  let args := drop off (tokens_at (fSyntax f) l) in
  let f' := (add E f errs l verb off fix_).1 in
  let errs' := (add E f errs l verb off fix_).2 in
  (forall s v v1,
     length args = 2 ->
     (parseString E (arg args 0)).2 = Ok s ->
     (parseVersion E s (arg args 1) fix_).2 = Ok v ->
     moduleMajorVersion E s = Ok v1 ->
     (accepted_dep isreq f f' errs errs' l (mkVersion s v) <->
        semver_Major E v = v1 \/ (v1 = "v1" /\ semver_Major E v = "v0")) /\
     (refused_dep f f' errs errs' <->
        ~ (semver_Major E v = v1 \/ (v1 = "v1" /\ semver_Major E v = "v0")))) /\
  (forall s, moduleMajorVersion E s = Ok "v1" <->
               no_major_suffix E s \/ ParseGopkgIn E s = Some "v1") /\
  (add_one ["require"; "gopkg.in/yaml.v1"; "v0.5.0"]).2 = [] /\
  fRequire (add_one ["require"; "gopkg.in/yaml.v1"; "v0.5.0"]).1
    = [mkRequire (mkVersion "gopkg.in/yaml.v1" "v0.5.0") (Some 0)] /\
  (add_one ["require"; "gopkg.in/yaml.v2"; "v0.5.0"]).2
    = [mkDiag "go.mod" 1 (InvalidModule "gopkg.in/yaml.v2" "v2" "v0" "v0.5.0")] /\
  (add_one ["require"; "example.com/foo/v2"; "v1.9.0"]).2
    = [mkDiag "go.mod" 1 (InvalidModule "example.com/foo/v2" "v2" "v1" "v1.9.0")] /\
  fRequire (add_one ["require"; "example.com/foo/v2"; "v1.9.0"]).1 = [] /\
  (add_one ["require"; "example.com/foo/v2"; "v2.0.0"]).2 = [] /\
  fRequire (add_one ["require"; "example.com/foo/v2"; "v2.0.0"]).1
    = [mkRequire (mkVersion "example.com/foo/v2" "v2.0.0") (Some 0)] /\
  (add_one ["require"; "example.com/foo"; "v0.9.0"]).2 = [] /\
  fRequire (add_one ["require"; "example.com/foo"; "v0.9.0"]).1
    = [mkRequire (mkVersion "example.com/foo" "v0.9.0") (Some 0)] /\
  (add_one ["require"; "example.com/foo"; "v1.0.0"]).2 = [] /\
  fRequire (add_one ["require"; "example.com/foo"; "v1.0.0"]).1
    = [mkRequire (mkVersion "example.com/foo" "v1.0.0") (Some 0)] /\
  (add_one ["exclude"; "example.com/foo/v2"; "v1.9.0"]).2
    = [mkDiag "go.mod" 1 (InvalidModule "example.com/foo/v2" "v2" "v1" "v1.9.0")] /\
  fExclude (add_one ["exclude"; "example.com/foo"; "v0.9.0"]).1
    = [mkExclude (mkVersion "example.com/foo" "v0.9.0") (Some 0)].
Proof.
  intros verb args f' errs'.
  split; [| split; [| by vm_compute]].
  - intros s v v1 Hlen Hs Hv Hm.
    destruct (decode_left_spec args fix_ s v v1 Hs Hv Hm) as [args' Hd].
    assert (add E f errs l verb off fix_ =
            if major_mismatch v1 (semver_Major E v)
            then (write_args f l off args',
                  errs ++ [mkDiag (Name (fSyntax f)) (StartLine (line_at (fSyntax f) l))
                             (InvalidModule s v1 (semver_Major E v) v)])
            else (if isreq
                  then set_fRequire (write_args f l off args')
                         (fRequire f ++ [mkRequire (mkVersion s v) (Some l)])
                  else set_fExclude (write_args f l off args')
                         (fExclude f ++ [mkExclude (mkVersion s v) (Some l)]),
                  errs)) as Hadd.
    { unfold add, verb. fold args.
      replace (String.eqb (if isreq then "require" else "exclude") "module") with false
        by (by destruct isreq).
      replace (String.eqb (if isreq then "require" else "exclude") "require"
               || String.eqb (if isreq then "require" else "exclude") "exclude") with true
        by (by destruct isreq).
      unfold decode_require. rewrite Hlen. cbn [Nat.eqb negb]. rewrite Hd.
      destruct (major_mismatch _ _); [done |]. by destruct isreq. }
    subst f' errs'. rewrite Hadd. rewrite <- major_mismatch_false.
    unfold accepted_dep, refused_dep.
    destruct (major_mismatch v1 (semver_Major E v)); cbn [fst snd].
    + split; split.
      * intros [H _]. by apply app_nil_end_inv in H.
      * done.
      * done.
      * intros _. split; [eauto | done].
    + split; split.
      * done.
      * intros _. destruct isreq; cbn; by rewrite ?app_nil_r.
      * intros [[d H] _]. symmetry in H. by apply app_nil_end_inv in H.
      * done.
  - intros s. unfold moduleMajorVersion, no_major_suffix.
    destruct (ParseGopkgIn E s) as [major |].
    { split; [intros [= ->]; by right | intros [[[=] _] | [= ->]]; done]. }
    destruct (isMajorVersion (last_segment s)); cbn [negb].
    + split; [| intros [[_ [=]] | [=]]].
      destruct (byte_eqb _ _ || String.eqb _ _) eqn:Hb; [done |].
      apply orb_false_iff in Hb as [_ Hb]. apply String.eqb_neq in Hb.
      intros [= H]. done.
    + split; [intros _; by left | done].
Qed.

End RequireRule.

(** C1 as stated fails: gopkg.in/yaml.v1 names its major, v1, in the
    legacy encoding, so it is no path without a major suffix; version
    v0.5.0 has major v0, not v1; and [add] accepts the require statement
    and creates its record. *)
Lemma explicit_v1_accepts_v0 :
  ParseGopkgIn GoEnv.env "gopkg.in/yaml.v1" = Some "v1" /\
  ~ no_major_suffix GoEnv.env "gopkg.in/yaml.v1" /\
  moduleMajorVersion GoEnv.env "gopkg.in/yaml.v1" = Ok "v1" /\
  semver_Major GoEnv.env "v0.5.0" = "v0" /\
  add_one ["require"; "gopkg.in/yaml.v1"; "v0.5.0"]
  = (set_fRequire (new_File (one_line ["require"; "gopkg.in/yaml.v1"; "v0.5.0"]))
       [mkRequire (mkVersion "gopkg.in/yaml.v1" "v0.5.0") (Some 0)], []) /\
  accepted_dep true (new_File (one_line ["require"; "gopkg.in/yaml.v1"; "v0.5.0"]))
    (add_one ["require"; "gopkg.in/yaml.v1"; "v0.5.0"]).1 []
    (add_one ["require"; "gopkg.in/yaml.v1"; "v0.5.0"]).2 0
    (mkVersion "gopkg.in/yaml.v1" "v0.5.0").
Proof.
  split; [by vm_compute |]. split; [intros [H _]; by vm_compute in H |].
  repeat (split; [by vm_compute |]). by vm_compute.
Qed.

Section DecodeProperties.
Variable E : Externals.

Lemma add_dichotomy f errs l verb off fix_ :
  let f' := (add E f errs l verb off fix_).1 in
  let errs' := (add E f errs l verb off fix_).2 in
  (errs' = errs /\ record_created verb f f' l) \/
  ((exists d, errs' = errs ++ [d]) /\ no_record_created verb f f' l).
Proof.
  cbn zeta. unfold add.
  destruct (String.eqb_spec verb "module") as [-> | Hm].
  { destruct (fModule f) as [m |] eqn:Hmod.
    - right. cbn. split; [eauto |]. repeat split; auto.
    - destruct (decode_module E _) as [args' [m | s]]; cbn.
      + right. split; [eauto |]. repeat split; auto.
      + left. split; [done |]. left. repeat split; eauto. }
  destruct (String.eqb_spec verb "require") as [-> | Hr]; cbn [orb].
  { destruct (decode_require E _ _ _) as [args' [m | v]]; cbn.
    - right. split; [eauto |]. repeat split; auto.
    - left. split; [done |]. right; left. repeat split; eauto. }
  destruct (String.eqb_spec verb "exclude") as [-> | Hx].
  { destruct (decode_require E _ _ _) as [args' [m | v]]; cbn.
    - right. split; [eauto |]. repeat split; auto.
    - left. split; [done |]. right; right; left. repeat split; eauto. }
  destruct (String.eqb_spec verb "replace") as [-> | Hp].
  { destruct (decode_replace E _ _ _) as [args' [m | [old new]]]; cbn.
    - right. split; [eauto |]. repeat split; auto.
    - left. split; [done |]. right; right; right. repeat split; eauto. }
  right. cbn. split; [eauto |]. repeat split; auto.
Qed.

Lemma add_errs_extend f errs l verb off fix_ :
  exists ds, (add E f errs l verb off fix_).2 = errs ++ ds.
Proof.
  destruct (add_dichotomy f errs l verb off fix_) as [[-> _] | [[d ->] _]].
  - exists []. by rewrite app_nil_r.
  - eauto.
Qed.

Lemma add_fold_errs_extend verb fix_ ls : forall st,
  exists ds,
    (fold_left (fun st l => add E st.1 st.2 l verb 0 fix_) ls st).2 = st.2 ++ ds.
Proof.
  induction ls as [|l ls IH]; intros st; cbn [fold_left].
  - exists []. by rewrite app_nil_r.
  - destruct (IH (add E st.1 st.2 l verb 0 fix_)) as [ds ->].
    destruct (add_errs_extend st.1 st.2 l verb 0 fix_) as [ds' ->].
    exists (ds' ++ ds). by rewrite app_assoc.
Qed.

Lemma decode_stmt_panics file fix_ f errs x :
  decode_stmt E file fix_ (f, errs) x = None <-> tokenless (fSyntax f) x.
Proof.
  unfold decode_stmt, tokenless. destruct x as [l | b | c].
  - destruct (tokens_at (fSyntax f) l); split; done.
  - destruct (BToken b) as [|t [|t' ts]]; cbn; [done | | done].
    destruct (known_block t); split; done.
  - split; done.
Qed.

Lemma decode_stmt_accumulates file fix_ f errs x f' errs' :
  decode_stmt E file fix_ (f, errs) x = Some (f', errs') ->
  exists ds, errs' = errs ++ ds.
Proof.
  unfold decode_stmt. destruct x as [l | b | c].
  - destruct (tokens_at (fSyntax f) l) as [|verb ts]; [done |].
    intros [= H]. destruct (add_errs_extend f errs l verb 1 fix_) as [ds Hds].
    rewrite H in Hds. eauto.
  - destruct (1 <? length (BToken b))%nat; [intros [= <- <-]; eauto |].
    destruct (BToken b) as [|verb ts]; [done |].
    destruct (known_block verb); [| intros [= <- <-]; eauto].
    intros [= H]. destruct (add_fold_errs_extend verb fix_ (BLine b) (f, errs)) as [ds Hds].
    rewrite H in Hds. eauto.
  - intros [= <- <-]. exists []. by rewrite app_nil_r.
Qed.

Lemma decode_loop_app file fix_ xs : forall ys st,
  decode_loop E file fix_ (xs ++ ys) st =
  decode_loop E file fix_ xs st ≫= decode_loop E file fix_ ys.
Proof.
  induction xs as [|x xs IH]; intros ys st; cbn; [done |].
  destruct (decode_stmt E file fix_ st x); [apply IH | done].
Qed.

End DecodeProperties.

(** C6 as stated fails: a module statement with two arguments is rejected
    with the usage diagnostic, and the Module record is created all the
    same. *)
Lemma module_usage_error_creates_record :
  decode GoEnv.env "go.mod" (one_line ["module"; "example.com/m"; "extra"]) None
  = Some (mkFile (Some (mkModule Version0 (Some 0))) [] [] []
            (one_line ["module"; "example.com/m"; "extra"]),
          [mkDiag "go.mod" 1 UsageModule]).
Proof. by vm_compute. Qed.

(** ** The normalizer: removeDups *)

Section Marking.
Context {A : Type} (key : A -> Version) (syn : A -> option loc).

Lemma mark_dups_spec xs : forall have kill o,
  o ∈ mark_dups key syn xs have kill <->
  o ∈ kill \/
  exists pre x post, xs = pre ++ x :: post /\ syn x = o /\
    (key x ∈ have \/ exists y, y ∈ pre /\ key y = key x).
Proof.
  induction xs as [|x xs IH]; intros have kill o; cbn [mark_dups].
  - split; [auto |]. intros [H | (pre & y & post & H & _)]; [done |].
    by destruct pre.
  - case_bool_decide as Hin; rewrite IH; clear IH.
    + split.
      * intros [H | (pre & y & post & -> & Hs & Hd)].
        -- apply elem_of_union in H as [H | H]; [|auto].
           apply elem_of_singleton in H as ->.
           right. exists [], x, xs. auto.
        -- right. exists (x :: pre), y, post. split; [done |]. split; [done |].
           destruct Hd as [Hd | (z & Hz & Hk)]; [auto |].
           right. exists z. split; [by right | done].
      * intros [H | (pre & y & post & Hxs & Hs & Hd)]; [left; set_solver |].
        destruct pre as [|p pre]; injection Hxs as <- ->.
        -- left. apply elem_of_union. left. by apply elem_of_singleton.
        -- right. exists pre, y, post. split; [done |]. split; [done |].
           destruct Hd as [Hd | (z & Hz & Hk)]; [auto |].
           apply elem_of_cons in Hz as [-> | Hz]; [left; congruence | eauto].
    + split.
      * intros [H | (pre & y & post & -> & Hs & Hd)]; [auto |].
        right. exists (x :: pre), y, post. split; [done |]. split; [done |].
        destruct Hd as [Hd | (z & Hz & Hk)].
        -- apply elem_of_union in Hd as [Hd | Hd]; [|auto].
           apply elem_of_singleton in Hd. right. exists x. split; [by left | done].
        -- right. exists z. split; [by right | done].
      * intros [H | (pre & y & post & Hxs & Hs & Hd)]; [auto |].
        destruct pre as [|p pre]; injection Hxs as <- ->.
        -- destruct Hd as [Hd | (z & Hz & _)]; [done | by apply elem_of_nil in Hz].
        -- right. exists pre, y, post. split; [done |]. split; [done |].
           destruct Hd as [Hd | (z & Hz & Hk)]; [left; set_solver |].
           apply elem_of_cons in Hz as [-> | Hz]; [left; set_solver | eauto].
Qed.

Lemma mark_dups_mono xs have kill o :
  o ∈ kill -> o ∈ mark_dups key syn xs have kill.
Proof. intros H. apply mark_dups_spec. auto. Qed.

(** An occurrence with a given non-nil handle is the only one. *)
Lemma occurrence_unique xs : forall pre x post pre' x' post' h,
  NoDup (omap syn xs) ->
  xs = pre ++ x :: post -> xs = pre' ++ x' :: post' ->
  syn x = Some h -> syn x' = Some h ->
  pre = pre' /\ x = x' /\ post = post'.
Proof.
  induction xs as [|a xs IH]; intros pre x post pre' x' post' h Hnd H1 H2 Hx Hx'.
  - by destruct pre.
  - assert (forall pre0 x0 post0, xs = pre0 ++ x0 :: post0 -> syn x0 = Some h ->
                                  Some h = syn a -> False) as Hclash.
    { intros pre0 x0 post0 -> H0 Ha. cbn in Hnd. rewrite <- Ha in Hnd.
      apply NoDup_cons in Hnd as [Hnd _]. apply Hnd.
      apply list_elem_of_omap. exists x0. split; [|done].
      apply elem_of_app. right. by left. }
    assert (NoDup (omap syn xs)) as Hnd'.
    { cbn in Hnd. destruct (syn a); [by apply NoDup_cons in Hnd as [_ ?] | done]. }
    destruct pre as [|p pre], pre' as [|p' pre']; cbn in H1, H2.
    + injection H1 as <- <-. injection H2 as <- <-; done.
    + injection H1 as <- <-. injection H2 as <- ->.
      exfalso. eapply Hclash; eauto.
    + injection H1 as <- ->. injection H2 as <- H2.
      exfalso. eapply (Hclash pre x post); eauto.
    + injection H1 as <- ->. injection H2 as <- H2.
      destruct (IH pre x post pre' x' post' h) as (-> & -> & ->); auto.
Qed.

End Marking.

Lemma omap_elem_split {A B} (g : A -> option B) (pre : list A) x post h :
  g x = Some h -> h ∈ omap g (pre ++ x :: post).
Proof.
  intros H. apply list_elem_of_omap. exists x. split; [|done].
  apply elem_of_app. right. by left.
Qed.

Lemma tree_lines_omap_filter (kill : gset (option loc)) stmts :
  tree_lines (omap (removeDups_stmt kill) stmts)
  = filter (fun h : loc => Some h ∉ kill) (tree_lines stmts).
Proof.
  unfold tree_lines. induction stmts as [|x stmts IH]; [done |].
  cbn [omap list_omap map concat]. rewrite filter_app, <- IH. clear IH.
  destruct x as [l | b | c]; cbn [removeDups_stmt stmt_lines].
  - case_bool_decide as Hk.
    + by rewrite filter_cons_False by tauto.
    + by rewrite filter_cons_True by done.
  - destruct (filter _ (BLine b)) eqn:Hf; [done |]. cbn. done.
  - done.
Qed.

Lemma omap_removeDups_no_empty_block (kill : gset (option loc)) (stmts : list Expr) b :
  ELineBlock b ∈ omap (removeDups_stmt kill) stmts -> BLine b <> [].
Proof.
  intros H. apply list_elem_of_omap in H as (x & _ & Hx).
  destruct x as [l | b' | c]; cbn in Hx.
  - by case_bool_decide.
  - destruct (filter _ (BLine b')); [done |]. by injection Hx as <-.
  - done.
Qed.

(** C4.  When the line handles of the Exclude and Replace records are
    pairwise distinct, [removeDups] keeps, of the Exclude records that have
    a line, exactly the first per (path, version) key, in their order; of
    the Replace records that have a line, exactly the last per (old path,
    old version) key, in their order; the killed lines are the lines of the
    records removed; the tree loses exactly the killed lines, at top level
    and inside blocks, and no block without lines remains; nothing else
    changes.  Two replace statements with the same key leave only the
    second, after [removeDups] and after [SortBlocks]. *)
Theorem removeDups_spec (f : File) :
  handles_distinct f ->
  let f' := removeDups f in
  fExclude f' `sublist_of` fExclude f /\
  (forall pre x post, fExclude f = pre ++ x :: post -> is_Some (xSyntax x) ->
     (x ∈ fExclude f' <-> forall y, y ∈ pre -> xMod y <> xMod x)) /\
  fReplace f' `sublist_of` fReplace f /\
  (forall pre r post, fReplace f = pre ++ r :: post -> is_Some (pSyntax r) ->
     (r ∈ fReplace f' <-> forall y, y ∈ post -> Old y <> Old r)) /\
  (forall h, Some h ∈ kill_all f <-> line_of_removed f f' h) /\
  tree_lines (Stmt (fSyntax f'))
    = filter (fun h : loc => Some h ∉ kill_all f) (tree_lines (Stmt (fSyntax f))) /\
  (forall b, ELineBlock b ∈ Stmt (fSyntax f') -> BLine b <> []) /\
  fModule f' = fModule f /\ fRequire f' = fRequire f /\
  Lines (fSyntax f') = Lines (fSyntax f) /\
  (forall E,
     option_map (fun st => (fReplace (removeDups st.1), Stmt (fSyntax (removeDups st.1)),
                            fReplace (SortBlocks E st.1), Stmt (fSyntax (SortBlocks E st.1))))
       (decode GoEnv.env "go.mod" two_replaces None)
     = let second := mkReplace (mkVersion "example.com/a" "v1.0.0")
                       (mkVersion "./second" "") (Some 1) in
       Some ([second], [ELine 1], [second], [ELine 1])).
Proof.
  intros Hnd f'. unfold handles_distinct in Hnd.
  apply NoDup_app in Hnd as (HndE & Hdisj & HndR).
  assert (forall x, x ∈ fExclude f' <-> x ∈ fExclude f /\ xSyntax x ∉ kill_exclude f) as HE.
  { intros x. unfold f', removeDups. cbn [fExclude]. rewrite list_elem_of_filter. tauto. }
  assert (forall r, r ∈ fReplace f' <-> r ∈ fReplace f /\ pSyntax r ∉ kill_all f) as HR.
  { intros r. unfold f', removeDups. cbn [fReplace]. rewrite list_elem_of_filter. tauto. }
  split; [apply sublist_filter |].
  split.
  { intros pre x post Hx [h Hh]. rewrite HE.
    split.
    - intros [_ Hk] y Hy Hkey. apply Hk. unfold kill_exclude.
      apply mark_dups_spec. right. exists pre, x, post.
      split; [done |]. split; [done |]. right. eauto.
    - intros Hfirst. split; [rewrite Hx; apply elem_of_app; right; by left |].
      unfold kill_exclude. rewrite mark_dups_spec.
      intros [Hk | (pre' & x' & post' & Hx' & Hs & [Hd | (y & Hy & Hkey)])].
      + done.
      + clear -Hd. set_solver.
      + rewrite Hh in Hs.
        destruct (occurrence_unique xSyntax (fExclude f) pre x post pre' x' post' h)
          as (<- & <- & _); auto.
        by apply (Hfirst y). }
  split; [apply sublist_filter |].
  split.
  { intros pre r post Hr [h Hh]. rewrite HR.
    assert (reverse (fReplace f) = reverse post ++ r :: reverse pre) as Hrev.
    { by rewrite Hr, reverse_app, reverse_cons, <- app_assoc. }
    split.
    - intros [_ Hk] y Hy Hkey. apply Hk. unfold kill_all.
      apply mark_dups_spec. right. exists (reverse post), r, (reverse pre).
      split; [done |]. split; [done |]. right. exists y.
      split; [| done]. by apply elem_of_reverse.
    - intros Hlast. split; [rewrite Hr; apply elem_of_app; right; by left |].
      unfold kill_all. rewrite mark_dups_spec.
      intros [Hk | (pre' & r' & post' & Hr' & Hs & [Hd | (y & Hy & Hkey)])].
      + unfold kill_exclude in Hk. apply mark_dups_spec in Hk
          as [Hk | (pre' & x' & post' & Hx' & Hs & _)]; [done |].
        apply (Hdisj h).
        * rewrite Hx'. by apply omap_elem_split; congruence.
        * rewrite Hr. by apply omap_elem_split.
      + clear -Hd. set_solver.
      + rewrite Hh in Hs.
        assert (fReplace f = reverse post' ++ r' :: reverse pre') as Hr''.
        { rewrite <- (reverse_involutive (fReplace f)), Hr'.
          by rewrite reverse_app, reverse_cons, <- app_assoc. }
        rewrite Hr in Hr''.
        destruct (occurrence_unique pSyntax (pre ++ r :: post) pre r post
                    (reverse post') r' (reverse pre') h) as (_ & <- & Hpost); auto.
        { by rewrite <- Hr. }
        apply (Hlast y); [|done]. rewrite Hpost.
        by apply elem_of_reverse. }
  split.
  { intros h. unfold line_of_removed. split.
    - intros Hk. unfold kill_all in Hk. apply mark_dups_spec in Hk
        as [Hk | (pre & r & post & Hr & Hs & Hd)].
      + left. unfold kill_exclude in Hk. apply mark_dups_spec in Hk
          as [Hk | (pre & x & post & Hx & Hs & Hd)]; [done |].
        exists x. split; [rewrite Hx; apply elem_of_app; right; by left |].
        split; [done |]. rewrite HE. intros [_ Hn]. apply Hn. rewrite Hs.
        unfold kill_exclude. apply mark_dups_spec. right. exists pre, x, post. auto.
      + right. exists r.
        assert (r ∈ fReplace f) as Hin.
        { rewrite <- (reverse_involutive (fReplace f)), Hr.
          apply elem_of_reverse. apply elem_of_app. right. by left. }
        split; [done |]. split; [done |]. rewrite HR. intros [_ Hn]. apply Hn.
        rewrite Hs. unfold kill_all. apply mark_dups_spec. right.
        exists pre, r, post. auto.
    - intros [(x & Hx & Hs & Hn) | (r & Hr & Hs & Hn)].
      + rewrite HE in Hn. rewrite <- Hs. unfold kill_all. apply mark_dups_mono.
        destruct (decide (xSyntax x ∈ kill_exclude f)); [done | tauto].
      + rewrite HR in Hn. rewrite <- Hs.
        destruct (decide (pSyntax r ∈ kill_all f)); [done | tauto]. }
  split; [apply tree_lines_omap_filter |].
  split; [apply omap_removeDups_no_empty_block |].
  split; [done |]. split; [done |]. split; [done |].
  intros E. by vm_compute.
Qed.

(** The theorem on the file decoded from the two replace statements. *)
Lemma removeDups_spec_witness :
  handles_distinct (decoded two_replaces) /\
  fReplace (removeDups (decoded two_replaces))
    `sublist_of` fReplace (decoded two_replaces) /\
  fReplace (removeDups (decoded two_replaces))
  = [mkReplace (mkVersion "example.com/a" "v1.0.0") (mkVersion "./second" "") (Some 1)].
Proof.
  assert (handles_distinct (decoded two_replaces)) as H.
  { unfold handles_distinct. vm_compute. apply NoDup_cons. split.
    - intros Hin. apply list_elem_of_singleton in Hin. discriminate.
    - apply NoDup_singleton. }
  split; [exact H |]. split; [| by vm_compute].
  apply (removeDups_spec (decoded two_replaces) H).
Defined.

(** ** The normalizer: SortBlocks *)

(** Lexicographic comparison of lists, over a comparison of the elements
    that is antisymmetric, decides equality and is transitive. *)
Section Lex.
Context {A : Type} (c : A -> A -> comparison).
Hypothesis c_antisym : forall a b, c a b = CompOpp (c b a).
Hypothesis c_eq : forall a b, c a b = Eq -> a = b.
Hypothesis c_trans : forall a b d, c a b = Lt -> c b d = Lt -> c a d = Lt.

Lemma c_refl a : c a a = Eq.
Proof. pose proof (c_antisym a a) as H. by destruct (c a a). Qed.

Lemma lex_antisym l1 : forall l2, lex c l1 l2 = CompOpp (lex c l2 l1).
Proof.
  induction l1 as [|a l1 IH]; intros [|b l2]; cbn; try done.
  rewrite (c_antisym b a). destruct (c a b); cbn; auto.
Qed.

Lemma lex_eq l1 : forall l2, lex c l1 l2 = Eq -> l1 = l2.
Proof.
  induction l1 as [|a l1 IH]; intros [|b l2]; cbn; try done.
  destruct (c a b) eqn:Hc; try done.
  intros H. apply c_eq in Hc as ->. by rewrite (IH l2 H).
Qed.

Lemma lex_trans l1 : forall l2 l3,
  lex c l1 l2 = Lt -> lex c l2 l3 = Lt -> lex c l1 l3 = Lt.
Proof.
  induction l1 as [|a l1 IH]; intros [|b l2] [|d l3]; cbn; try done.
  destruct (c a b) eqn:Hab; try done; destruct (c b d) eqn:Hbd; try done.
  - apply c_eq in Hab as ->. rewrite Hbd. apply IH.
  - apply c_eq in Hab as ->. by rewrite Hbd.
  - apply c_eq in Hbd as <-. by rewrite Hab.
  - by rewrite (c_trans a b d).
Qed.

Lemma lex_strict_weak : strict_weak_order (fun l1 l2 => bool_decide (lex c l1 l2 = Lt)).
Proof.
  split.
  - intros l1 l2 H. apply bool_decide_eq_true in H. apply bool_decide_eq_false.
    rewrite lex_antisym, H. done.
  - intros l1 l2 l3 H21 H32. apply bool_decide_eq_false in H21, H32.
    apply bool_decide_eq_false. intros H31.
    destruct (lex c l3 l2) eqn:H; [| done |].
    + apply lex_eq in H as ->. done.
    + apply H21. apply (lex_trans l2 l3 l1); [| done].
      rewrite lex_antisym, H. done.
Qed.

End Lex.

Lemma ascii_compare_trans a b d :
  Ascii.compare a b = Lt -> Ascii.compare b d = Lt -> Ascii.compare a d = Lt.
Proof. unfold Ascii.compare. rewrite !N.compare_lt_iff. lia. Qed.

Lemma string_compare_lex s1 : forall s2,
  String.compare s1 s2
  = lex Ascii.compare (list_ascii_of_string s1) (list_ascii_of_string s2).
Proof.
  induction s1 as [|a s1 IH]; intros [|b s2]; cbn; try done.
  rewrite IH. done.
Qed.

Lemma string_compare_trans s1 s2 s3 :
  String.compare s1 s2 = Lt -> String.compare s2 s3 = Lt -> String.compare s1 s3 = Lt.
Proof.
  rewrite !string_compare_lex. intros H1 H2.
  eapply lex_trans; eauto using Ascii.compare_eq_iff, ascii_compare_trans.
Qed.

Lemma string_compare_eq s1 s2 : String.compare s1 s2 = Eq <-> s1 = s2.
Proof.
  split; [apply String.compare_eq_iff |]. intros ->.
  pose proof (String.compare_antisym s2 s2) as H. by destruct (String.compare s2 s2).
Qed.

Lemma less_tokens_lex ti : forall tj,
  less_tokens ti tj = bool_decide (lex String.compare ti tj = Lt).
Proof.
  induction ti as [|a ti IH]; intros [|b tj]; cbn; try done.
  unfold String.ltb. destruct (String.eqb_spec a b) as [-> | Hne]; cbn.
  - rewrite (proj2 (string_compare_eq b b) eq_refl). apply IH.
  - destruct (String.compare a b) eqn:Hc; try done.
    by apply string_compare_eq in Hc.
Qed.

Lemma less_tokens_strict_weak : strict_weak_order less_tokens.
Proof.
  pose proof (lex_strict_weak String.compare String.compare_antisym
                String.compare_eq_iff string_compare_trans) as [H1 H2].
  split.
  - intros a b. rewrite !less_tokens_lex. apply H1.
  - intros a b d. rewrite !less_tokens_lex. apply H2.
Qed.

Lemma less_line_strict_weak fs : strict_weak_order (less_line fs).
Proof.
  destruct less_tokens_strict_weak as [H1 H2]. unfold less_line. split.
  - intros a b. apply H1.
  - intros a b d. apply H2.
Qed.

Lemma ltb_irrefl a : String.ltb a a = false.
Proof. unfold String.ltb. by rewrite (proj2 (string_compare_eq a a) eq_refl). Qed.

Lemma less_tokens_before ti : forall tj,
  less_tokens ti tj = true <-> tokens_before ti tj.
Proof.
  unfold tokens_before.
  induction ti as [|a ti IH]; intros [|b tj]; cbn [less_tokens].
  - split; [done |]. intros [(k & a & b & H & _) | (rest & Hne & H)]; [done |].
    cbn in H. congruence.
  - split; [| done]. intros _. right. exists (b :: tj). done.
  - split; [done |]. intros [(k & a' & b & _ & H & _) | (rest & _ & H)]; done.
  - destruct (String.eqb_spec a b) as [-> | Hne]; cbn [negb].
    + rewrite IH. split.
      * intros [(k & a' & b' & H1 & H2 & H3 & H4) | (rest & Hne & ->)].
        -- left. exists (S k), a', b'. cbn. by rewrite H3.
        -- right. by exists rest.
      * intros [(k & a' & b' & H1 & H2 & H3 & H4) | (rest & Hne & H)].
        -- destruct k as [|k]; cbn in *.
           ++ injection H1 as <-. injection H2 as <-. by rewrite ltb_irrefl in H4.
           ++ left. exists k, a', b'. injection H3 as H3. done.
        -- right. exists rest. by injection H as ->.
    + split.
      * intros H. left. exists 0, a, b. done.
      * intros [(k & a' & b' & H1 & H2 & H3 & H4) | (rest & _ & H)].
        -- destruct k as [|k]; cbn in *; [congruence |]. by injection H3.
        -- by injection H.
Qed.

(** The concrete [sort.Slice] meets the contract. *)
Section InsertionSort.
Context {A : Type} (less : A -> A -> bool).

Lemma sorted_insert_perm x l : GoEnv.sorted_insert less x l ≡ₚ x :: l.
Proof.
  induction l as [|y l IH]; cbn; [done |].
  destruct (less x y); [done |]. rewrite IH. apply Permutation_swap.
Qed.

Lemma insertionSort_fold_perm l : forall acc,
  fold_left (fun sorted x => GoEnv.sorted_insert less x sorted) l acc ≡ₚ acc ++ l.
Proof.
  induction l as [|x l IH]; intros acc; cbn; [by rewrite app_nil_r |].
  rewrite IH, sorted_insert_perm. cbn. apply Permutation_middle.
Qed.

Lemma gap_swaps_perm lo : forall hi,
  (GoEnv.gap_swaps less lo hi).1 ++ (GoEnv.gap_swaps less lo hi).2 ≡ₚ lo ++ hi.
Proof.
  induction lo as [|x lo IH]; intros [|y hi]; cbn; try done.
  specialize (IH hi). destruct (GoEnv.gap_swaps less lo hi) as [lo' hi']. cbn in IH.
  destruct (less y x); cbn.
  - rewrite <- !Permutation_middle, IH. apply Permutation_swap.
  - by rewrite <- !Permutation_middle, IH.
Qed.

Lemma gap_pass_perm l : GoEnv.gap_pass less l ≡ₚ l.
Proof.
  unfold GoEnv.gap_pass. destruct (length l <=? 12)%nat; [|done].
  pose proof (gap_swaps_perm (take 6 l) (drop 6 l)) as H.
  destruct (GoEnv.gap_swaps less (take 6 l) (drop 6 l)) as [lo hi]. cbn in H.
  by rewrite H, take_drop.
Qed.

Hypothesis Hless : strict_weak_order less.

Lemma sorted_insert_sorted x l :
  sorted_by less l -> sorted_by less (GoEnv.sorted_insert less x l).
Proof.
  destruct Hless as [Hasym Hneg]. unfold sorted_by.
  induction l as [|y l IH]; intros Hs; cbn.
  - repeat constructor.
  - apply StronglySorted_inv in Hs as [Hs Hy].
    destruct (less x y) eqn:Hxy.
    + constructor; [by constructor |].
      constructor; [by apply Hasym |].
      eapply Forall_impl; [exact Hy |]. cbn. intros z Hz.
      apply (Hneg x y z); [by apply Hasym | done].
    + constructor; [by apply IH |].
      rewrite sorted_insert_perm. by constructor.
Qed.

Lemma insertionSort_fold_sorted l : forall acc,
  sorted_by less acc ->
  sorted_by less (fold_left (fun sorted x => GoEnv.sorted_insert less x sorted) l acc).
Proof.
  induction l as [|x l IH]; intros acc Hs; cbn; [done |].
  apply IH. by apply sorted_insert_sorted.
Qed.

End InsertionSort.

Lemma GoEnv_sort_contract : sort_Slice_contract GoEnv.env.
Proof.
  intros A less l. cbn. unfold GoEnv.Slice, GoEnv.insertionSort. split.
  - rewrite insertionSort_fold_perm. cbn. apply gap_pass_perm.
  - intros Hless. apply insertionSort_fold_sorted; [done | constructor].
Qed.

Section Sorting.
Variable E : Externals.

Lemma SortBlocks_stmts fs stmts :
  sort_Slice_contract E ->
  Forall2 (block_sorted fs) stmts (map (SortBlocks_stmt E fs) stmts).
Proof.
  intros Hc. induction stmts as [|x stmts IH]; cbn; constructor; [|done].
  destruct x as [l | b | c]; cbn; [done | | done].
  destruct (Hc loc (less_line fs) (BLine b)) as [Hp Hs].
  eexists. split; [done |]. split; [done |].
  apply Hs, less_line_strict_weak.
Qed.

(** C7, as amended.  [SortBlocks] is [removeDups] followed by a sort of
    the lines of every block: the records, the store and every statement
    that is not a block are those of [removeDups f]; every block keeps its
    header and holds a permutation of its lines that is sorted by
    [less_tokens]: no line comes after a line it is less than.
    [less_tokens] compares the tokens pairwise up to the length of the
    shorter sequence and, on a full tie, puts the line with fewer tokens
    first.  Nothing is said of the order of two lines with equal token
    sequences: [sort.Slice] does not promise to keep it. *)
Theorem SortBlocks_spec (f : File) :
  sort_Slice_contract E ->
  let g := removeDups f in
  let f' := SortBlocks E f in
  fModule f' = fModule g /\ fRequire f' = fRequire g /\
  fExclude f' = fExclude g /\ fReplace f' = fReplace g /\
  Name (fSyntax f') = Name (fSyntax g) /\ Lines (fSyntax f') = Lines (fSyntax g) /\
  Forall2 (block_sorted (fSyntax g)) (Stmt (fSyntax g)) (Stmt (fSyntax f')) /\
  (forall ti tj, less_tokens ti tj = true <-> tokens_before ti tj).
Proof.
  intros Hc g f'. repeat (split; [done |]).
  split; [by apply SortBlocks_stmts | apply less_tokens_before].
Qed.

End Sorting.

(** The theorem in the concrete environment, on the block of seven lines. *)
Lemma SortBlocks_spec_witness :
  sort_Slice_contract GoEnv.env /\
  Forall2 (block_sorted (fSyntax (removeDups (decoded seven_requires))))
    (Stmt (fSyntax (removeDups (decoded seven_requires))))
    (Stmt (fSyntax (SortBlocks GoEnv.env (decoded seven_requires)))).
Proof.
  split; [exact GoEnv_sort_contract |].
  apply (SortBlocks_spec GoEnv.env (decoded seven_requires) GoEnv_sort_contract).
Defined.

(** C7 as stated fails: the sort is not stable.  In the block of seven
    lines the first and the fourth line have the same tokens; after
    [SortBlocks], with [sort.Slice] as package sort runs it on a short
    slice, the fourth line (address 3) stands before the first (address 0). *)
Lemma SortBlocks_reorders_equal_lines :
  decode GoEnv.env "go.mod" seven_requires None = Some (decoded seven_requires, []) /\
  tokens_at seven_requires 0 = tokens_at seven_requires 3 /\
  Stmt (fSyntax (decoded seven_requires))
  = [ELineBlock (mkLineBlock ["require"] [0; 1; 2; 3; 4; 5; 6] 1)] /\
  Stmt (fSyntax (SortBlocks GoEnv.env (decoded seven_requires)))
  = [ELineBlock (mkLineBlock ["require"] [6; 3; 0; 1; 2; 4; 5] 1)].
Proof. by vm_compute. Qed.

(** ** The edit engine: AddExclude *)

Lemma insert_after_line_spec hint new ls ls' :
  insert_after_line hint new ls = Some ls' ->
  exists pre post, ls = pre ++ post /\ ls' = pre ++ new :: post.
Proof.
  revert ls'. induction ls as [|l ls IH]; intros ls'; cbn; [done |].
  destruct (Nat.eqb l hint).
  - intros [= <-]. by exists [l], ls.
  - destruct (insert_after_line hint new ls) as [ls0 |]; cbn; [|done].
    intros [= <-]. destruct (IH ls0 eq_refl) as (pre & post & -> & ->).
    by exists (l :: pre), post.
Qed.

Lemma insert_after_hint_spec hint new stmts stmts' nested :
  insert_after_hint hint new stmts = Some (stmts', nested) ->
  exists pre post, tree_lines stmts = pre ++ post /\
                   tree_lines stmts' = pre ++ new :: post.
Proof.
  revert stmts'. induction stmts as [|x stmts IH]; intros stmts'; cbn; [done |].
  assert (match insert_after_hint hint new stmts with
          | Some (rest', nested0) => Some (x :: rest', nested0)
          | None => None
          end = Some (stmts', nested) ->
          exists pre post, tree_lines (x :: stmts) = pre ++ post /\
                           tree_lines stmts' = pre ++ new :: post) as Hlater.
  { destruct (insert_after_hint hint new stmts) as [[rest' n] |]; [|done].
    intros [= <- <-]. destruct (IH rest' eq_refl) as (pre & post & H1 & H2).
    exists (stmt_lines x ++ pre), post. unfold tree_lines in *. cbn.
    rewrite H1, H2, !app_assoc. done. }
  destruct x as [l | b | c]; [| | done].
  - destruct (Nat.eqb l hint); [|done].
    intros [= <- _]. exists [l], (tree_lines stmts). done.
  - destruct (insert_after_line hint new (BLine b)) as [ls |] eqn:Hl; [|done].
    intros [= <- _]. apply insert_after_line_spec in Hl as (pre & post & Hb & ->).
    exists pre, (post ++ tree_lines stmts). unfold tree_lines. cbn.
    rewrite Hb, <- !app_assoc. done.
Qed.

Lemma tree_lines_app xs ys : tree_lines (xs ++ ys) = tree_lines xs ++ tree_lines ys.
Proof. unfold tree_lines. by rewrite map_app, concat_app. Qed.

Lemma addLine_spec fs hint tokens :
  line_added fs (addLine fs hint tokens).1 (addLine fs hint tokens).2 tokens.
Proof.
  unfold addLine, line_added.
  set (new := fresh (dom (Lines fs) : gset loc)).
  assert (Lines fs !! new = None) as Hfresh.
  { apply not_elem_of_dom. apply is_fresh. }
  destruct (match hint with
            | Some h => insert_after_hint h new (Stmt fs)
            | None => None
            end) as [[stmts nested] |] eqn:Hp; cbn.
  - split; [done |]. split.
    + eexists. split; [done |]. cbn. destruct nested; auto.
    + split; [|done]. destruct hint as [h |]; [|done].
      by apply insert_after_hint_spec in Hp.
  - split; [done |]. split.
    + eexists. split; [done |]. cbn. auto.
    + split; [|done]. exists (tree_lines (Stmt fs)), [].
      split; [by rewrite app_nil_r |]. apply tree_lines_app.
Qed.

Section ExcludeProperties.
Variable E : Externals.

Lemma AddExclude_scan_None path vers xs : forall hint,
  AddExclude_scan path vers xs hint = None <->
  exists x, x ∈ xs /\ xMod x = mkVersion path vers.
Proof.
  induction xs as [|x xs IH]; intros hint; cbn.
  - split; [done | intros (x & Hx & _); by apply elem_of_nil in Hx].
  - destruct (String.eqb_spec (Path (xMod x)) path) as [Hp | Hp]; cbn.
    + destruct (String.eqb_spec (Vers (xMod x)) vers) as [Hv | Hv].
      * split; [|done]. intros _. exists x. split; [by left |].
        destruct (xMod x); cbn in *; by subst.
      * rewrite IH. split; intros (y & Hy & Hk).
        -- exists y. split; [by right | done].
        -- apply elem_of_cons in Hy as [-> | Hy]; [| eauto].
           rewrite Hk in Hv. done.
    + rewrite IH. split; intros (y & Hy & Hk).
      * exists y. split; [by right | done].
      * apply elem_of_cons in Hy as [-> | Hy]; [| eauto].
        rewrite Hk in Hp. done.
Qed.

Lemma excludes_of_absent f path vers :
  ~ (exists x, x ∈ fExclude f /\ xMod x = mkVersion path vers) ->
  excludes_of f path vers = [].
Proof.
  intros Hno. unfold excludes_of.
  induction (fExclude f) as [|x xs IH]; [done |].
  rewrite filter_cons_False.
  - apply IH. intros (y & Hy & Hk). apply Hno. exists y. split; [by right | done].
  - intros Hk. apply Hno. exists x. split; [by left | done].
Qed.

Lemma excludes_of_present f path vers :
  (exists x, x ∈ fExclude f /\ xMod x = mkVersion path vers) ->
  1 <= length (excludes_of f path vers).
Proof.
  intros (x & Hx & Hk). unfold excludes_of.
  assert (x ∈ filter (fun x : ExcludeStmt => xMod x = mkVersion path vers) (fExclude f)) as Hin
    by (by apply list_elem_of_filter).
  destruct (filter _ (fExclude f)); [by apply elem_of_nil in Hin | cbn; lia].
Qed.

(** C8, as amended.  [AddExclude] changes nothing when an Exclude record
    with exactly that pair exists; otherwise it appends one record, whose
    line is one new line of the tree.  A second call with the same
    arguments changes nothing.  After the call the file holds as many
    Exclude records for the pair as before, and one when it held none: so
    exactly one only if the starting state held at most one. *)
Theorem AddExclude_spec (f : File) (path vers : string) :
  let f' := AddExclude E f path vers in
  let present := exists x, x ∈ fExclude f /\ xMod x = mkVersion path vers in
  (present -> f' = f) /\
  (~ present ->
   exists l,
     fExclude f' = fExclude f ++ [mkExclude (mkVersion path vers) (Some l)] /\
     line_added (fSyntax f) (fSyntax f') l ["exclude"; AutoQuote E path; vers] /\
     fModule f' = fModule f /\ fRequire f' = fRequire f /\ fReplace f' = fReplace f) /\
  AddExclude E f' path vers = f' /\
  length (excludes_of f' path vers) = Nat.max 1 (length (excludes_of f path vers)).
Proof.
  intros f' present.
  assert (present -> f' = f) as Hyes.
  { intros Hp. unfold f', AddExclude.
    by rewrite (proj2 (AddExclude_scan_None path vers (fExclude f) None) Hp). }
  assert (~ present ->
          exists l,
            fExclude f' = fExclude f ++ [mkExclude (mkVersion path vers) (Some l)] /\
            line_added (fSyntax f) (fSyntax f') l ["exclude"; AutoQuote E path; vers] /\
            fModule f' = fModule f /\ fRequire f' = fRequire f /\
            fReplace f' = fReplace f) as Hno.
  { intros Hp. unfold f', AddExclude.
    destruct (AddExclude_scan path vers (fExclude f) None) as [hint |] eqn:Hs.
    - pose proof (addLine_spec (fSyntax f) hint ["exclude"; AutoQuote E path; vers]) as Ha.
      destruct (addLine (fSyntax f) hint _) as [fs l]. cbn in Ha.
      exists l. cbn. done.
    - apply AddExclude_scan_None in Hs. done. }
  split; [done |]. split; [done |].
  assert (exists x, x ∈ fExclude f' /\ xMod x = mkVersion path vers) as Hafter.
  { destruct (decide (AddExclude_scan path vers (fExclude f) None = None)) as [Hs | Hs].
    - apply AddExclude_scan_None in Hs as Hp. by rewrite (Hyes Hp).
    - rewrite AddExclude_scan_None in Hs. destruct (Hno Hs) as (l & -> & _).
      eexists. split; [apply elem_of_app; right; by left | done]. }
  split.
  { unfold AddExclude.
    by rewrite (proj2 (AddExclude_scan_None path vers (fExclude f') None) Hafter). }
  destruct (decide (AddExclude_scan path vers (fExclude f) None = None)) as [Hs | Hs].
  - apply AddExclude_scan_None in Hs as Hp. rewrite (Hyes Hp).
    pose proof (excludes_of_present f path vers Hp). lia.
  - rewrite AddExclude_scan_None in Hs. destruct (Hno Hs) as (l & Hx & _).
    rewrite (excludes_of_absent f path vers Hs).
    unfold excludes_of in *. rewrite Hx, filter_app.
    fold (excludes_of f path vers). rewrite (excludes_of_absent f path vers Hs).
    by rewrite filter_cons_True.
Qed.

End ExcludeProperties.

(** C8 as stated fails: from a file that holds the exclude statement
    twice, two calls of [AddExclude] leave two Exclude records for the
    pair. *)
Lemma AddExclude_twice_keeps_duplicates :
  decode GoEnv.env "go.mod" two_excludes None = Some (decoded two_excludes, []) /\
  excludes_of
    (AddExclude GoEnv.env
       (AddExclude GoEnv.env (decoded two_excludes) "example.com/a" "v1.0.0")
       "example.com/a" "v1.0.0")
    "example.com/a" "v1.0.0"
  = [mkExclude (mkVersion "example.com/a" "v1.0.0") (Some 0);
     mkExclude (mkVersion "example.com/a" "v1.0.0") (Some 1)].
Proof. by vm_compute. Qed.

(** ** The edit engine: AddRequire *)

Lemma tokens_at_store_eq fs l t : tokens_at (store_Token fs l t) l = t.
Proof. unfold tokens_at, line_at, store_Token. cbn. by rewrite lookup_total_insert_eq. Qed.

Lemma line_at_store_ne fs l l' t : l <> l' -> line_at (store_Token fs l t) l' = line_at fs l'.
Proof. intros H. unfold line_at, store_Token. cbn. by rewrite lookup_total_insert_ne. Qed.

Lemma tokens_at_store_ne fs l l' t :
  l <> l' -> tokens_at (store_Token fs l t) l' = tokens_at fs l'.
Proof. intros H. unfold tokens_at. by rewrite line_at_store_ne. Qed.

Lemma InBlock_store fs l l' t :
  InBlock (line_at (store_Token fs l t) l') = InBlock (line_at fs l').
Proof.
  destruct (decide (l = l')) as [<- | Hne]; [| by rewrite line_at_store_ne].
  unfold line_at, store_Token. cbn. by rewrite lookup_total_insert_eq.
Qed.

Lemma Stmt_store fs l t : Stmt (store_Token fs l t) = Stmt fs.
Proof. done. Qed.

Section RequireProperties.
Variable E : Externals.

(** The loop of [AddRequire] once the first record for the path was
    updated: every further record for the path is blanked and loses the
    tokens of its line. *)
Lemma AddRequire_loop_rest path vers rs : forall fs,
  (forall r, r ∈ rs -> Path (rMod r) = path -> is_Some (rSyntax r)) ->
  exists fs',
    AddRequire_loop E path vers rs false fs = Some (map (blank_path path) rs, fs', false) /\
    Stmt fs' = Stmt fs /\ Name fs' = Name fs /\
    (forall r h, r ∈ rs -> Path (rMod r) = path -> rSyntax r = Some h ->
                 tokens_at fs' h = []) /\
    (forall l, (forall r, r ∈ rs -> Path (rMod r) = path -> rSyntax r <> Some l) ->
               line_at fs' l = line_at fs l).
Proof.
  induction rs as [|r rs IH]; intros fs Hh; cbn.
  - exists fs. repeat split; auto. intros r h Hr. by apply elem_of_nil in Hr.
  - assert (forall r0, r0 ∈ rs -> Path (rMod r0) = path -> is_Some (rSyntax r0)) as Hh'
      by (intros r0 Hr0; apply Hh; by right).
    unfold blank_path at 1.
    destruct (String.eqb_spec (Path (rMod r)) path) as [Hp | Hp].
    + destruct (Hh r) as [h Hr]; [by left | done |]. rewrite Hr. cbn.
      destruct (IH (store_Token fs h []) Hh') as (fs' & -> & HS & HN & Hrem & Hkeep).
      exists fs'. rewrite decide_True by done. repeat split; auto.
      * intros r0 h0 Hr0 Hp0 Hs0. apply elem_of_cons in Hr0 as [-> | Hr0]; [| eauto].
        assert (h0 = h) as -> by congruence.
        destruct (decide (Exists (fun r1 => Path (rMod r1) = path /\ rSyntax r1 = Some h) rs))
          as [Hsame | Hnone].
        { apply Exists_exists in Hsame as (r1 & H1 & H2 & H3). eauto. }
        unfold tokens_at. rewrite Hkeep.
        -- apply tokens_at_store_eq.
        -- intros r1 H1 H2 H3. apply Hnone. apply Exists_exists. eauto.
      * intros l Hl. rewrite Hkeep.
        -- apply line_at_store_ne. intros ->. apply (Hl r); [by left | done | done].
        -- intros r1 H1. apply Hl. by right.
    + destruct (IH fs Hh') as (fs' & -> & HS & HN & Hrem & Hkeep).
      exists fs'. rewrite decide_False by done. repeat split; auto.
      * intros r0 h0 Hr0 Hp0 Hs0. apply elem_of_cons in Hr0 as [-> | Hr0]; [done | eauto].
      * intros l Hl. apply Hkeep. intros r1 H1. apply Hl. by right.
Qed.

Lemma AddRequire_loop_none path vers rs : forall need fs,
  (forall r, r ∈ rs -> Path (rMod r) <> path) ->
  AddRequire_loop E path vers rs need fs = Some (rs, fs, need).
Proof.
  induction rs as [|r rs IH]; intros need fs Hno; cbn; [done |].
  destruct (String.eqb_spec (Path (rMod r)) path) as [Hp | Hp].
  - exfalso. apply (Hno r); [by left | done].
  - rewrite IH; [done |]. intros r0 Hr0. apply Hno. by right.
Qed.

Lemma AddRequire_loop_first path vers pre r post fs h :
  (forall y, y ∈ pre -> Path (rMod y) <> path) ->
  Path (rMod r) = path -> rSyntax r = Some h ->
  (forall y, y ∈ post -> Path (rMod y) = path -> is_Some (rSyntax y)) ->
  (forall y, y ∈ post -> Path (rMod y) = path -> rSyntax y <> Some h) ->
  exists fs',
    AddRequire_loop E path vers (pre ++ r :: post) true fs
    = Some (pre ++ mkRequire (mkVersion path vers) (Some h) :: map (blank_path path) post,
            fs', false) /\
    Stmt fs' = Stmt fs /\ Name fs' = Name fs /\
    tokens_at fs' h = tokens_in fs h ["require"; AutoQuote E path; vers] /\
    (forall y h', y ∈ post -> Path (rMod y) = path -> rSyntax y = Some h' ->
                  tokens_at fs' h' = []) /\
    (forall l, l <> h ->
               (forall y, y ∈ post -> Path (rMod y) = path -> rSyntax y <> Some l) ->
               line_at fs' l = line_at fs l).
Proof.
  intros Hpre Hp Hh Hsome Hdist.
  induction pre as [|p pre IH]; cbn.
  - destruct (String.eqb_spec (Path (rMod r)) path) as [_ | Hne]; [|done].
    rewrite Hh. cbn.
    set (fs1 := store_Token fs h _).
    destruct (AddRequire_loop_rest path vers post fs1 Hsome)
      as (fs' & -> & HS & HN & Hrem & Hkeep).
    exists fs'. rewrite Hp. repeat split; auto.
    + unfold tokens_at. rewrite Hkeep by done. apply tokens_at_store_eq.
    + intros l Hl Hl'. rewrite Hkeep by done. by apply line_at_store_ne.
  - destruct (String.eqb_spec (Path (rMod p)) path) as [Hpp | Hpp].
    { exfalso. apply (Hpre p); [by left | done]. }
    destruct IH as (fs' & -> & Hrest); [intros y Hy; apply Hpre; by right |].
    exists fs'. done.
Qed.

Lemma requires_of_app_cons pre r post path :
  filter (fun r : RequireStmt => Path (rMod r) = path) (pre ++ r :: post)
  = filter (fun r : RequireStmt => Path (rMod r) = path) pre ++
    filter (fun r : RequireStmt => Path (rMod r) = path) [r] ++
    filter (fun r : RequireStmt => Path (rMod r) = path) post.
Proof. by rewrite filter_app, (filter_app _ [r] post). Qed.

Lemma filter_path_none (rs : list RequireStmt) path :
  (forall y, y ∈ rs -> Path (rMod y) <> path) ->
  filter (fun r : RequireStmt => Path (rMod r) = path) rs = [].
Proof.
  intros H. induction rs as [|r rs IH]; [done |].
  rewrite filter_cons_False by (apply H; by left).
  apply IH. intros y Hy. apply H. by right.
Qed.

Lemma filter_path_blank (rs : list RequireStmt) path :
  path <> "" ->
  filter (fun r : RequireStmt => Path (rMod r) = path) (map (blank_path path) rs) = [].
Proof.
  intros Hne. apply filter_path_none. intros y Hy.
  apply list_elem_of_fmap in Hy as (r & -> & _). unfold blank_path.
  case_decide; [cbn; congruence | done].
Qed.

(** C3.  For a non-empty [path] whose records hold distinct lines:
    [AddRequire] returns; if a record for the path exists, the first one
    gets the version, its line gets the new tokens, every further record
    for the path is blanked to the zero value and its line loses its
    tokens, and the statement list is unchanged; if none exists, one record
    is appended, whose line is one new line of the tree.  After the call
    exactly one record has the path, and it carries the version. *)
Theorem AddRequire_spec (f : File) (path vers : string) :
  path <> "" -> require_handles_ok f path ->
  exists f',
    AddRequire E f path vers = Some f' /\
    (forall pre r post,
       fRequire f = pre ++ r :: post ->
       (forall y, y ∈ pre -> Path (rMod y) <> path) -> Path (rMod r) = path ->
       exists h,
         rSyntax r = Some h /\
         fRequire f' = pre ++ mkRequire (mkVersion path vers) (Some h)
                           :: map (blank_path path) post /\
         tokens_at (fSyntax f') h
         = tokens_in (fSyntax f) h ["require"; AutoQuote E path; vers] /\
         (forall y h', y ∈ post -> Path (rMod y) = path -> rSyntax y = Some h' ->
                       tokens_at (fSyntax f') h' = []) /\
         (forall l, l <> h ->
                    (forall y, y ∈ post -> Path (rMod y) = path -> rSyntax y <> Some l) ->
                    line_at (fSyntax f') l = line_at (fSyntax f) l) /\
         Stmt (fSyntax f') = Stmt (fSyntax f)) /\
    ((forall y, y ∈ fRequire f -> Path (rMod y) <> path) ->
     exists l,
       fRequire f' = fRequire f ++ [mkRequire (mkVersion path vers) (Some l)] /\
       line_added (fSyntax f) (fSyntax f') l ["require"; AutoQuote E path; vers] /\
       Stmt (fSyntax f') = Stmt (fSyntax f) ++ [ELine l]) /\
    (exists h, requires_of f' path = [mkRequire (mkVersion path vers) (Some h)]) /\
    fModule f' = fModule f /\ fExclude f' = fExclude f /\ fReplace f' = fReplace f.
Proof.
  intros Hne [Hsome Hnd]. unfold AddRequire, requires_of in *.
  destruct (decide (Exists (fun r => Path (rMod r) = path) (fRequire f))) as [Hex | Hno];
    rewrite Exists_exists in *.
  - (* there is a first record for the path *)
    assert (exists pre r post, fRequire f = pre ++ r :: post /\
              (forall y, y ∈ pre -> Path (rMod y) <> path) /\ Path (rMod r) = path)
      as (pre & r & post & Hsplit & Hpre & Hp).
    { clear -Hex. induction (fRequire f) as [|a rs IH].
      - destruct Hex as (r & Hr & _). by apply elem_of_nil in Hr.
      - destruct (decide (Path (rMod a) = path)) as [Ha | Ha].
        + exists [], a, rs. split; [done |]. split; [|done].
          intros y Hy. by apply elem_of_nil in Hy.
        + destruct IH as (pre & r & post & -> & Hpre & Hp).
          { destruct Hex as (r & Hr & Hp). apply elem_of_cons in Hr as [-> | Hr]; [done | eauto]. }
          exists (a :: pre), r, post. split; [done |]. split; [|done].
          intros y Hy. apply elem_of_cons in Hy as [-> | Hy]; [done | auto]. }
    rewrite Hsplit in Hsome, Hnd. rewrite requires_of_app_cons in Hsome, Hnd.
    rewrite (filter_path_none pre path Hpre) in Hsome, Hnd.
    rewrite filter_cons_True, filter_nil in Hsome, Hnd by done. cbn in Hsome, Hnd.
    destruct (Hsome r) as [h Hh]; [by left |].
    apply NoDup_cons in Hnd as [Hfirst _].
    destruct (AddRequire_loop_first path vers pre r post (fSyntax f) h)
      as (fs' & Hloop & HS & HN & Htok & Hrem & Hkeep); auto.
    { intros y Hy Hpy. apply Hsome. right. by apply list_elem_of_filter. }
    { intros y Hy Hpy Hs. apply Hfirst. rewrite Hh, <- Hs.
      apply list_elem_of_fmap. exists y. split; [done |]. by apply list_elem_of_filter. }
    rewrite Hsplit, Hloop. eexists. split; [done |]. cbn.
    split.
    { intros pre0 r0 post0 Hsplit0 Hpre0 Hp0.
      assert (pre0 = pre /\ r0 = r /\ post0 = post) as (-> & -> & ->).
      { clear -Hsplit0 Hpre0 Hp0 Hpre Hp.
        revert pre0 Hsplit0 Hpre0. induction pre as [|a pre IH]; intros [|b pre0] H H0; cbn in H.
        - by injection H as <- <-.
        - injection H as <- H. exfalso. apply (H0 r); [by left | done].
        - injection H as -> H. exfalso. apply (Hpre r0); [by left | done].
        - injection H as <- H.
          destruct (IH (fun y Hy => Hpre y (proj2 (elem_of_cons _ _ _) (or_intror Hy))) pre0 H)
            as (-> & -> & ->); [| done].
          intros y Hy. apply H0. by right. }
      exists h. repeat split; auto. }
    split.
    { intros Hall. exfalso.
      apply (Hall r); [apply elem_of_app; right; by left | done]. }
    split; [| done].
    exists h. rewrite requires_of_app_cons, (filter_path_none pre path Hpre).
    rewrite filter_cons_True, filter_nil by done.
    by rewrite filter_path_blank.
  - (* no record for the path *)
    assert (forall y, y ∈ fRequire f -> Path (rMod y) <> path) as Hall
      by (intros y Hy Hp; apply Hno; eauto).
    rewrite (AddRequire_loop_none path vers (fRequire f) true (fSyntax f) Hall).
    eexists. split; [done |].
    unfold AddNewRequire. cbn [fSyntax set_fSyntax set_fRequire fRequire].
    pose proof (addLine_spec (fSyntax f) None ["require"; AutoQuote E path; vers]) as Ha.
    assert (Stmt (addLine (fSyntax f) None ["require"; AutoQuote E path; vers]).1
            = Stmt (fSyntax f) ++
              [ELine (addLine (fSyntax f) None ["require"; AutoQuote E path; vers]).2])
      as Hstmt by done.
    destruct (addLine (fSyntax f) None _) as [fs l]. cbn in *.
    split.
    { intros pre r post Hsplit _ Hp. exfalso. apply (Hall r); [| done].
      rewrite Hsplit. apply elem_of_app. right. by left. }
    split; [intros _; by exists l |].
    split; [| done].
    exists l. rewrite filter_app, (filter_path_none _ path Hall).
    by rewrite filter_cons_True.
Qed.

End RequireProperties.

(** The theorem on the file decoded from the two require statements for
    example.com/a. *)
Lemma AddRequire_spec_witness :
  "example.com/a" <> "" /\ require_handles_ok (decoded two_requires) "example.com/a" /\
  exists f',
    AddRequire GoEnv.env (decoded two_requires) "example.com/a" "v1.2.0" = Some f' /\
    requires_of f' "example.com/a"
    = [mkRequire (mkVersion "example.com/a" "v1.2.0") (Some 0)].
Proof.
  assert (require_handles_ok (decoded two_requires) "example.com/a") as H.
  { split.
    - intros r Hr. vm_compute in Hr.
      apply elem_of_cons in Hr as [-> | Hr]; [by eexists |].
      apply list_elem_of_singleton in Hr as ->. by eexists.
    - vm_compute. apply NoDup_cons. split; [| apply NoDup_singleton].
      intros Hin. apply list_elem_of_singleton in Hin. discriminate. }
  split; [discriminate |]. split; [exact H |].
  destruct (AddRequire_spec GoEnv.env (decoded two_requires) "example.com/a" "v1.2.0"
              ltac:(discriminate) H) as (f' & Hf & _).
  exists f'. split; [exact Hf |].
  vm_compute in Hf. injection Hf as <-. by vm_compute.
Defined.

(** ** The edit engine: SetRequire *)

Section SetRequireProperties.
Variable E : Externals.

Lemma parseString_Ok t t' p : parseString E t = (t', Ok p) -> t' = AutoQuote E p.
Proof.
  unfold parseString. repeat case_match; intros [= <- <-]; done.
Qed.

Lemma line_path_Some fs l idx p :
  line_path E fs (l, idx) = Some p <->
  exists t, tokens_at fs l !! idx = Some t /\ parseString E t = (AutoQuote E p, Ok p).
Proof.
  unfold line_path. cbn. split.
  - destruct (tokens_at fs l !! idx) as [t |]; [|done].
    destruct (parseString E t) as [t' [p' | e]] eqn:Hp; [|done].
    intros [= ->]. exists t. split; [done |]. by rewrite (parseString_Ok _ _ _ Hp) in Hp.
  - intros (t & -> & ->). done.
Qed.

Lemma same_but_refl fs ls : same_but fs fs ls.
Proof. done. Qed.

Lemma same_but_store fs l t : same_but fs (store_Token fs l t) [l].
Proof.
  split; [done |]. split; [done |]. split.
  - intros l' Hl'. apply line_at_store_ne. intros ->. apply Hl'. by left.
  - intros l' Hl'. unfold store_Token. cbn.
    destruct (decide (l = l')) as [-> | Hne].
    + by rewrite lookup_insert_eq.
    + by rewrite lookup_insert_ne.
Qed.

Lemma same_but_trans fs1 fs2 fs3 ls1 ls2 :
  same_but fs1 fs2 ls1 -> same_but fs2 fs3 ls2 -> same_but fs1 fs3 (ls1 ++ ls2).
Proof.
  intros (N1 & S1 & L1 & D1) (N2 & S2 & L2 & D2).
  split; [congruence |]. split; [congruence |]. split.
  - intros l Hl. rewrite L2, L1; [done | |]; intros H; apply Hl, elem_of_app; auto.
  - auto.
Qed.

Lemma same_but_weaken fs fs' ls ls' :
  same_but fs fs' ls -> (forall l, l ∈ ls -> l ∈ ls') -> same_but fs fs' ls'.
Proof.
  intros (N & S & L & D) Hsub. repeat split; auto.
Qed.

Lemma SetRequire_line_spec idx need fs l :
  S idx < length (tokens_at fs l) ->
  exists fs',
    SetRequire_line E idx need fs l
    = Some (need_after E need fs [(l, idx)], fs',
            bool_decide (l ∈ kept_lines E need fs [(l, idx)])) /\
    same_but fs fs' [l] /\
    length (tokens_at fs' l) = length (tokens_at fs l) /\
    (forall p, line_path E fs (l, idx) = Some p -> wanted need p ->
       tokens_at fs' l
       = <[S idx := default "" (need !! p)]> (<[idx := AutoQuote E p]> (tokens_at fs l))).
Proof.
  intros Hlen. unfold SetRequire_line. cbn [need_after kept_lines].
  destruct (tokens_at fs l !! idx) as [t |] eqn:Ht.
  2:{ apply lookup_ge_None in Ht. lia. }
  unfold line_path. cbn [fst snd]. rewrite Ht.
  destruct (parseString E t) as [t' [p | e]] eqn:Hp.
  - apply parseString_Ok in Hp as ->.
    destruct (decide (wanted need p)) as [Hw | Hw].
    + unfold wanted in Hw. destruct (String.eqb_spec (default "" (need !! p)) "") as [? | _]; [done |].
      rewrite length_insert.
      destruct (Nat.ltb_spec (S idx) (length (tokens_at fs l))) as [_ | ?]; [| lia].
      rewrite bool_decide_eq_true_2 by (by left).
      eexists. split; [reflexivity |].
      split.
      { eapply same_but_weaken.
        - eapply same_but_trans; apply same_but_store.
        - intros l' Hl'. apply elem_of_app in Hl'. tauto. }
      split.
      { by rewrite tokens_at_store_eq, !length_insert. }
      intros p' [= <-] _. apply tokens_at_store_eq.
    + unfold wanted in Hw. destruct (String.eqb_spec (default "" (need !! p)) "") as [Heq | ?]; [| done].
      rewrite bool_decide_eq_false_2 by (intros H; by apply elem_of_nil in H).
      eexists. split; [reflexivity |].
      split; [apply same_but_store |].
      split; [by rewrite tokens_at_store_eq, length_insert |].
      intros p' [= <-] Hw'. unfold wanted in Hw'. done.
  - rewrite bool_decide_eq_false_2 by (intros H; by apply elem_of_nil in H).
    exists fs. split; [reflexivity |].
    split; [apply same_but_refl |]. split; [done |]. done.
Qed.

Lemma line_path_ext fs fs' li :
  tokens_at fs' li.1 = tokens_at fs li.1 -> line_path E fs' li = line_path E fs li.
Proof. unfold line_path. by intros ->. Qed.

Lemma kept_lines_ext fs fs' lis : forall need,
  (forall li, li ∈ lis -> tokens_at fs' li.1 = tokens_at fs li.1) ->
  kept_lines E need fs' lis = kept_lines E need fs lis /\
  need_after E need fs' lis = need_after E need fs lis.
Proof.
  induction lis as [|li lis IH]; intros need H; cbn; [done |].
  rewrite (line_path_ext fs fs' li) by (apply H; by left).
  assert (forall li0, li0 ∈ lis -> tokens_at fs' li0.1 = tokens_at fs li0.1) as H'
    by (intros li0 Hli0; apply H; by right).
  destruct (line_path E fs li) as [p |]; [| by apply IH].
  destruct (decide (wanted need p)).
  - destruct (IH (delete p need) H') as [-> ->]. done.
  - by apply IH.
Qed.

Lemma kept_lines_app fs l1 : forall need l2,
  kept_lines E need fs (l1 ++ l2)
  = kept_lines E need fs l1 ++ kept_lines E (need_after E need fs l1) fs l2 /\
  need_after E need fs (l1 ++ l2) = need_after E (need_after E need fs l1) fs l2.
Proof.
  induction l1 as [|li l1 IH]; intros need l2; cbn; [done |].
  destruct (line_path E fs li) as [p |]; [| by apply IH].
  destruct (decide (wanted need p)).
  - destruct (IH (delete p need) l2) as [-> ->]. done.
  - by apply IH.
Qed.

Lemma kept_lines_subset fs lis : forall need l,
  l ∈ kept_lines E need fs lis -> l ∈ map fst lis.
Proof.
  induction lis as [|li lis IH]; intros need l; cbn; [done |].
  destruct (line_path E fs li) as [p |]; [| intros H; right; by eapply IH].
  destruct (decide (wanted need p)).
  - intros H. apply elem_of_cons in H as [-> | H]; [by left | right; by eapply IH].
  - intros H; right; by eapply IH.
Qed.

Lemma need_after_sub fs lis : forall need p v,
  need_after E need fs lis !! p = Some v -> need !! p = Some v.
Proof.
  induction lis as [|li lis IH]; intros need p v; cbn; [done |].
  destruct (line_path E fs li) as [q |]; [| apply IH].
  destruct (decide (wanted need q)); [| apply IH].
  intros H. apply IH in H. apply lookup_delete_Some in H. tauto.
Qed.

Lemma wanted_sub fs lis need p :
  wanted (need_after E need fs lis) p ->
  wanted need p /\ need_after E need fs lis !! p = need !! p.
Proof.
  unfold wanted. destruct (need_after E need fs lis !! p) as [v |] eqn:H; [| done].
  apply need_after_sub in H. rewrite H. done.
Qed.

Lemma wanted_delete need p q : wanted (delete q need) p <-> p <> q /\ wanted need p.
Proof.
  unfold wanted. destruct (decide (p = q)) as [-> | Hne].
  - rewrite lookup_delete_eq. cbn. tauto.
  - rewrite lookup_delete_ne by done. tauto.
Qed.

(** A require statement survives exactly when the map holds a non-empty
    version for its path and no earlier require statement has that path. *)
Lemma kept_lines_first fs pre : forall need li post,
  NoDup (map fst (pre ++ li :: post)) ->
  (li.1 ∈ kept_lines E need fs (pre ++ li :: post) <->
   exists p, line_path E fs li = Some p /\ wanted need p /\
             forall lj, lj ∈ pre -> line_path E fs lj <> Some p).
Proof.
  induction pre as [|a pre IH]; intros need li post Hnd.
  - cbn in *. apply NoDup_cons in Hnd as [Hli _].
    assert (forall need', li.1 ∉ kept_lines E need' fs post) as Hnot
      by (intros need' H; by apply kept_lines_subset in H).
    destruct (line_path E fs li) as [p |].
    + destruct (decide (wanted need p)) as [Hw | Hw].
      * split; [| intros _; by left]. intros _. exists p. split; [done |]. split; [done |].
        intros lj Hlj. by apply elem_of_nil in Hlj.
      * split; [intros H; by apply Hnot in H |]. intros (p' & [= <-] & Hw' & _). done.
    + split; [intros H; by apply Hnot in H |]. intros (p' & [=] & _).
  - cbn [app map] in Hnd. apply NoDup_cons in Hnd as [Ha Hnd].
    assert (li.1 <> a.1) as Hne.
    { intros Heq. apply Ha. rewrite <- Heq, map_app. apply elem_of_app. right. by left. }
    cbn [app kept_lines].
    destruct (line_path E fs a) as [q |] eqn:Hq.
    + destruct (decide (wanted need q)) as [Hw | Hw].
      * rewrite elem_of_cons, (IH (delete q need) li post Hnd).
        split.
        -- intros [? | (p & Hp & Hwp & Hpre)]; [done |].
           apply wanted_delete in Hwp as [Hpq Hwp].
           exists p. split; [done |]. split; [done |].
           intros lj Hlj. apply elem_of_cons in Hlj as [-> | Hlj]; [congruence | auto].
        -- intros (p & Hp & Hwp & Hpre). right. exists p. split; [done |]. split.
           ++ apply wanted_delete. split; [| done]. intros ->.
              apply (Hpre a); [by left | done].
           ++ intros lj Hlj. apply Hpre. by right.
      * rewrite (IH need li post Hnd). split.
        -- intros (p & Hp & Hwp & Hpre). exists p. split; [done |]. split; [done |].
           intros lj Hlj. apply elem_of_cons in Hlj as [-> | Hlj]; [| auto].
           rewrite Hq. intros [= ->]. done.
        -- intros (p & Hp & Hwp & Hpre). exists p. split; [done |]. split; [done |].
           intros lj Hlj. apply Hpre. by right.
    + rewrite (IH need li post Hnd). split.
      * intros (p & Hp & Hwp & Hpre). exists p. split; [done |]. split; [done |].
        intros lj Hlj. apply elem_of_cons in Hlj as [-> | Hlj]; [congruence | auto].
      * intros (p & Hp & Hwp & Hpre). exists p. split; [done |]. split; [done |].
        intros lj Hlj. apply Hpre. by right.
Qed.

Lemma kept_lines_wanted fs lis need li p :
  NoDup (map fst lis) -> li ∈ lis -> li.1 ∈ kept_lines E need fs lis ->
  line_path E fs li = Some p -> wanted need p.
Proof.
  intros Hnd Hin Hk Hp. apply list_elem_of_split in Hin as (pre & post & ->).
  apply kept_lines_first in Hk as (p' & Hp' & Hw & _); [| done]. congruence.
Qed.

Lemma treated_nil need fs : treated E need fs fs [].
Proof. split; [apply same_but_refl |]. intros li p H. by apply elem_of_nil in H. Qed.

Lemma tokens_same_but fs fs' ls l :
  same_but fs fs' ls -> l ∉ ls -> tokens_at fs' l = tokens_at fs l.
Proof. intros (_ & _ & H & _) Hl. unfold tokens_at. by rewrite H. Qed.

Lemma treated_app need fs fs1 fs2 l1 l2 :
  NoDup (map fst (l1 ++ l2)) ->
  treated E need fs fs1 l1 ->
  treated E (need_after E need fs l1) fs1 fs2 l2 ->
  treated E need fs fs2 (l1 ++ l2).
Proof.
  intros Hnd [Hs1 Ht1] [Hs2 Ht2]. rewrite map_app in Hnd.
  apply NoDup_app in Hnd as (Hnd1 & Hdisj & Hnd2).
  assert (forall li, li ∈ l2 -> tokens_at fs1 li.1 = tokens_at fs li.1) as Hext.
  { intros li Hli. eapply tokens_same_but; [exact Hs1 |]. intros Hin.
    apply (Hdisj li.1 Hin). apply list_elem_of_fmap. eauto. }
  destruct (kept_lines_ext fs fs1 l2 (need_after E need fs l1) Hext) as [Hk2 _].
  split.
  - rewrite map_app. by eapply same_but_trans.
  - intros li p Hli Hk Hp.
    destruct (kept_lines_app fs l1 need l2) as [Hkapp _]. rewrite Hkapp in Hk. clear Hkapp.
    apply elem_of_app in Hli as [Hli | Hli].
    + assert (li.1 ∈ map fst l1) as Hin1 by (apply list_elem_of_fmap; eauto).
      apply elem_of_app in Hk as [Hk | Hk].
      2:{ apply kept_lines_subset in Hk. by apply Hdisj in Hk. }
      rewrite (tokens_same_but fs1 fs2 (map fst l2) li.1 Hs2) by (by apply Hdisj).
      by apply Ht1.
    + assert (li.1 ∈ map fst l2) as Hin2 by (apply list_elem_of_fmap; eauto).
      apply elem_of_app in Hk as [Hk | Hk].
      { apply kept_lines_subset in Hk. by apply Hdisj in Hk. }
      rewrite <- Hk2 in Hk.
      rewrite <- (line_path_ext fs fs1 li (Hext li Hli)) in Hp.
      rewrite (Ht2 li p Hli Hk Hp), (Hext li Hli).
      assert (wanted (need_after E need fs l1) p) as Hw.
      { eapply (kept_lines_wanted fs1 l2); eauto. }
      apply wanted_sub in Hw as [_ ->]. done.
Qed.

Lemma treated_one idx need fs fs' l :
  same_but fs fs' [l] ->
  (forall p, line_path E fs (l, idx) = Some p -> wanted need p ->
     tokens_at fs' l
     = <[S idx := default "" (need !! p)]> (<[idx := AutoQuote E p]> (tokens_at fs l))) ->
  treated E need fs fs' [(l, idx)].
Proof.
  intros Hs Ht. split; [done |].
  intros li p Hli Hk Hp. apply list_elem_of_singleton in Hli as ->. cbn in *.
  apply Ht; [done |]. rewrite Hp in Hk. destruct (decide (wanted need p)); [done |].
  by apply elem_of_nil in Hk.
Qed.

Lemma filter_ext_elem {A} (P Q : A -> Prop) `{!forall x, Decision (P x)}
    `{!forall x, Decision (Q x)} (l : list A) :
  (forall x, x ∈ l -> P x <-> Q x) -> filter P l = filter Q l.
Proof.
  induction l as [|x l IH]; intros Hpq; [done |].
  rewrite !filter_cons. rewrite IH by (intros y Hy; apply Hpq; by right).
  destruct (decide (P x)) as [HP | HP], (decide (Q x)) as [HQ | HQ]; try done.
  - exfalso. apply HQ, Hpq; [by left | done].
  - exfalso. apply HP, Hpq; [by left | done].
Qed.

Lemma omap_ext_elem {A B} (g h : A -> option B) (l : list A) :
  (forall x, x ∈ l -> g x = h x) -> omap g l = omap h l.
Proof.
  induction l as [|x l IH]; intros H; [done |]. cbn.
  rewrite (H x) by (by left). rewrite IH by (intros y Hy; apply H; by right). done.
Qed.

Lemma SetRequire_lines_spec ls : forall need fs,
  NoDup ls -> (forall l, l ∈ ls -> 1 < length (tokens_at fs l)) ->
  exists fs',
    SetRequire_lines E need fs ls
    = Some (need_after E need fs (map (fun l => (l, 0)) ls), fs',
            filter (fun l : loc => l ∈ kept_lines E need fs (map (fun l => (l, 0)) ls)) ls) /\
    treated E need fs fs' (map (fun l => (l, 0)) ls).
Proof.
  induction ls as [|l ls IH]; intros need fs Hnd Hlen.
  - exists fs. split; [done | apply treated_nil].
  - apply NoDup_cons in Hnd as Hnd'. destruct Hnd' as [Hl Hnd'].
    destruct (SetRequire_line_spec 0 need fs l) as (fs1 & Hline & Hs1 & Hlen1 & Htok1);
      [apply Hlen; by left |].
    assert (forall l', l' ∈ ls -> tokens_at fs1 l' = tokens_at fs l') as Hext.
    { intros l' Hl'. eapply tokens_same_but; [exact Hs1 |]. intros Hin.
      apply list_elem_of_singleton in Hin as ->. done. }
    destruct (IH (need_after E need fs [(l, 0)]) fs1 Hnd') as (fs' & Hrest & Htr).
    { intros l' Hl'. rewrite Hext by done. apply Hlen. by right. }
    set (lis := map (fun l0 : loc => (l0, 0)) ls) in *.
    assert (forall li, li ∈ lis -> tokens_at fs1 li.1 = tokens_at fs li.1) as Hext'.
    { intros li Hli. apply list_elem_of_fmap in Hli as (l' & -> & Hl'). by apply Hext. }
    destruct (kept_lines_ext fs fs1 lis (need_after E need fs [(l, 0)]) Hext') as [Hk1 Hn1].
    destruct (kept_lines_app fs [(l, 0)] need lis) as [Hkapp Hnapp].
    exists fs'. split.
    + cbn [SetRequire_lines]. rewrite Hline. cbn [mbind option_bind]. rewrite Hrest.
      cbn [mbind option_bind].
      change (map (fun l0 : loc => (l0, 0)) (l :: ls)) with ([(l, 0)] ++ lis).
      rewrite Hkapp, Hnapp, <- Hk1, <- Hn1. f_equal. f_equal.
      rewrite filter_cons.
      assert (forall K1, (forall x, x ∈ K1 -> x ∈ ls) ->
                filter (fun l0 : loc => l0 ∈ kept_lines E need fs [(l, 0)] ++ K1) ls
                = filter (fun l0 : loc => l0 ∈ K1) ls) as Hf.
      { intros K1 HK1. apply filter_ext_elem. intros x Hx. rewrite elem_of_app.
        split; [| auto]. intros [H | H]; [| done].
        apply kept_lines_subset in H. cbn in H. apply list_elem_of_singleton in H as ->. done. }
      assert (forall x, x ∈ kept_lines E (need_after E need fs [(l, 0)]) fs1 lis -> x ∈ ls) as Hsub.
      { intros x Hx. apply kept_lines_subset in Hx.
        apply list_elem_of_fmap in Hx as (li & -> & Hli).
        apply list_elem_of_fmap in Hli as (l' & -> & Hl'). done. }
      rewrite (Hf _ Hsub).
      destruct (decide (l ∈ kept_lines E need fs [(l, 0)])) as [Hk | Hk].
      * rewrite bool_decide_eq_true_2 by done.
        rewrite decide_True by (apply elem_of_app; by left). done.
      * rewrite bool_decide_eq_false_2 by done.
        rewrite decide_False; [done |]. rewrite elem_of_app. intros [H | H]; [done |].
        by apply Hsub in H.
    + change (map (fun l0 : loc => (l0, 0)) (l :: ls)) with ([(l, 0)] ++ lis).
      apply (treated_app need fs fs1 fs').
      * cbn. rewrite NoDup_cons. split.
        -- unfold lis. rewrite <- list_fmap_compose. cbn.
           intros H. apply list_elem_of_fmap in H as (l' & -> & Hl'). done.
        -- unfold lis. rewrite <- list_fmap_compose.
           replace (fst ∘ (fun l0 : loc => (l0, 0))) with (@id loc) by done.
           by rewrite list_fmap_id.
      * by apply treated_one.
      * done.
Qed.

Lemma map_fst_zero (ls : list loc) : map fst (map (fun l : loc => (l, 0)) ls) = ls.
Proof. induction ls as [|l ls IH]; [done |]. cbn. by rewrite IH. Qed.

Lemma stmt_lines_tree (x : Expr) stmts l :
  x ∈ stmts -> l ∈ stmt_lines x -> l ∈ tree_lines stmts.
Proof.
  unfold tree_lines. induction stmts as [|y stmts IH]; intros Hx Hl.
  - by apply elem_of_nil in Hx.
  - cbn. apply elem_of_app. apply elem_of_cons in Hx as [-> | Hx]; [by left | right; auto].
Qed.

Lemma require_lines_of_fst fs x l :
  l ∈ map fst (require_lines_of fs x) -> l ∈ stmt_lines x.
Proof.
  destruct x as [l0 | b | c]; cbn.
  - destruct (is_require (tokens_at fs l0)); cbn; [done |]. intros H. by apply elem_of_nil in H.
  - destruct (is_require (BToken b)); [by rewrite map_fst_zero |].
    intros H. by apply elem_of_nil in H.
  - done.
Qed.

Lemma require_lines_of_NoDup fs x :
  NoDup (stmt_lines x) -> NoDup (map fst (require_lines_of fs x)).
Proof.
  destruct x as [l0 | b | c]; cbn; intros H.
  - destruct (is_require (tokens_at fs l0)); cbn; [done | constructor].
  - destruct (is_require (BToken b)); [by rewrite map_fst_zero | constructor].
  - constructor.
Qed.

Lemma require_lines_fst fs stmts l :
  l ∈ map fst (require_lines fs stmts) -> l ∈ tree_lines stmts.
Proof.
  unfold require_lines, tree_lines. induction stmts as [|x stmts IH]; [done |].
  cbn. rewrite map_app, !elem_of_app. intros [H | H]; [left | right; auto].
  by eapply require_lines_of_fst.
Qed.

Lemma require_lines_NoDup fs stmts :
  NoDup (tree_lines stmts) -> NoDup (map fst (require_lines fs stmts)).
Proof.
  induction stmts as [|x stmts IH]; [constructor |].
  change (tree_lines (x :: stmts)) with (stmt_lines x ++ tree_lines stmts).
  change (require_lines fs (x :: stmts))
    with (require_lines_of fs x ++ require_lines fs stmts).
  rewrite map_app, !NoDup_app. intros (H1 & H2 & H3). split; [| split].
  - by apply require_lines_of_NoDup.
  - intros l Hl Hl'. apply (H2 l); [by eapply require_lines_of_fst |].
    by eapply require_lines_fst.
  - auto.
Qed.

Lemma require_lines_of_ext fs fs' x :
  (forall l, l ∈ stmt_lines x -> tokens_at fs' l = tokens_at fs l) ->
  require_lines_of fs' x = require_lines_of fs x.
Proof.
  destruct x as [l0 | b | c]; cbn; intros H; [| done | done].
  rewrite H; [done | by left].
Qed.

Lemma require_lines_ext fs fs' stmts :
  (forall l, l ∈ tree_lines stmts -> tokens_at fs' l = tokens_at fs l) ->
  require_lines fs' stmts = require_lines fs stmts.
Proof.
  induction stmts as [|x stmts IH]; [done |]. intros H.
  change (tree_lines (x :: stmts)) with (stmt_lines x ++ tree_lines stmts) in H.
  change (require_lines fs (x :: stmts))
    with (require_lines_of fs x ++ require_lines fs stmts).
  change (require_lines fs' (x :: stmts))
    with (require_lines_of fs' x ++ require_lines fs' stmts).
  rewrite IH by (intros l Hl; apply H, elem_of_app; by right).
  rewrite (require_lines_of_ext fs fs') by (intros l Hl; apply H, elem_of_app; by left).
  done.
Qed.

Lemma keep_stmt_ext fs fs' K K' x :
  (forall l, l ∈ stmt_lines x -> tokens_at fs' l = tokens_at fs l) ->
  (forall l, l ∈ stmt_lines x -> l ∈ K <-> l ∈ K') ->
  keep_stmt fs K x = keep_stmt fs' K' x.
Proof.
  destruct x as [l0 | b | c]; cbn; intros Ht Hk; [| | done].
  - rewrite Ht by (by left). destruct (is_require (tokens_at fs l0)); [| done].
    destruct (decide (l0 ∈ K)) as [H | H], (decide (l0 ∈ K')) as [H' | H']; try done.
    + exfalso. apply H', Hk; [by left | done].
    + exfalso. apply H, Hk; [by left | done].
  - destruct (is_require (BToken b)); [| done].
    by rewrite (filter_ext_elem (fun l : loc => l ∈ K) (fun l : loc => l ∈ K') (BLine b) Hk).
Qed.

(** One turn of the loop over the statements. *)
Lemma SetRequire_stmts_cons need fs x rest :
  NoDup (stmt_lines x) ->
  (forall li, li ∈ require_lines_of fs x -> S li.2 < length (tokens_at fs li.1)) ->
  exists fs1,
    treated E need fs fs1 (require_lines_of fs x) /\
    SetRequire_stmts E need fs (x :: rest)
    = ('(need2, fs2, out) ← SetRequire_stmts E (need_after E need fs (require_lines_of fs x)) fs1 rest;
       Some (need2, fs2,
             match keep_stmt fs (kept_lines E need fs (require_lines_of fs x)) x with
             | Some y => y :: out
             | None => out
             end)).
Proof.
  intros Hnd Hlen. destruct x as [l | b | c]; cbn [SetRequire_stmts require_lines_of keep_stmt].
  - cbn [require_lines_of] in Hlen. destruct (is_require (tokens_at fs l)) eqn:Hreq.
    + destruct (SetRequire_line_spec 1 need fs l) as (fs1 & Hline & Hs1 & Hlen1 & Htok1).
      { apply (Hlen (l, 1)). by left. }
      exists fs1. split; [by apply treated_one |].
      rewrite Hline. cbn [mbind option_bind].
      destruct (SetRequire_stmts E (need_after E need fs [(l, 1)]) fs1 rest)
        as [[[need2 fs2] out] |]; [| done].
      cbn [mbind option_bind]. do 2 f_equal.
      destruct (decide (l ∈ kept_lines E need fs [(l, 1)])) as [Hk | Hk].
      * by rewrite bool_decide_eq_true_2.
      * by rewrite bool_decide_eq_false_2.
    + exists fs. split; [apply treated_nil | done].
  - cbn [require_lines_of] in Hlen. destruct (is_require (BToken b)) eqn:Hreq.
    + destruct (SetRequire_lines_spec (BLine b) need fs Hnd) as (fs1 & Hlines & Htr).
      { intros l Hl. apply (Hlen (l, 0)). apply list_elem_of_fmap. eauto. }
      exists fs1. split; [done |].
      rewrite Hlines. cbn [mbind option_bind].
      destruct (SetRequire_stmts E _ fs1 rest) as [[[need2 fs2] out] |]; [| done].
      cbn [mbind option_bind]. do 2 f_equal.
      by destruct (filter _ (BLine b)).
    + exists fs. split; [apply treated_nil | done].
  - exists fs. split; [apply treated_nil | done].
Qed.

(** The loop over the statements of the tree: the map it leaves, the
    statements it keeps, and the tokens of the kept ones. *)
Lemma SetRequire_stmts_spec stmts : forall need fs,
  NoDup (tree_lines stmts) ->
  (forall li, li ∈ require_lines fs stmts -> S li.2 < length (tokens_at fs li.1)) ->
  exists fs',
    SetRequire_stmts E need fs stmts
    = Some (need_after E need fs (require_lines fs stmts), fs',
            omap (keep_stmt fs (kept_lines E need fs (require_lines fs stmts))) stmts) /\
    treated E need fs fs' (require_lines fs stmts).
Proof.
  induction stmts as [|x rest IH]; intros need fs Hnd Hlen.
  - exists fs. split; [done | apply treated_nil].
  - change (tree_lines (x :: rest)) with (stmt_lines x ++ tree_lines rest) in Hnd.
    change (require_lines fs (x :: rest))
      with (require_lines_of fs x ++ require_lines fs rest) in *.
    apply NoDup_app in Hnd as Hnd'. destruct Hnd' as (Hndx & Hdisj & Hndr).
    destruct (SetRequire_stmts_cons need fs x rest Hndx) as (fs1 & Htr1 & Hcons).
    { intros li Hli. apply Hlen, elem_of_app. by left. }
    assert (forall l, l ∈ tree_lines rest -> tokens_at fs1 l = tokens_at fs l) as Hext.
    { intros l Hl. eapply tokens_same_but; [apply Htr1 |]. intros Hin.
      apply require_lines_of_fst in Hin. by apply Hdisj in Hin. }
    pose proof (require_lines_ext fs fs1 rest Hext) as Hrl.
    set (need1 := need_after E need fs (require_lines_of fs x)) in *.
    destruct (IH need1 fs1 Hndr) as (fs' & Hrest & Htr).
    { intros li Hli. rewrite Hrl in Hli. rewrite Hext.
      - apply Hlen, elem_of_app. by right.
      - apply require_lines_fst with (fs := fs). apply list_elem_of_fmap. eauto. }
    rewrite Hrl in Hrest, Htr.
    assert (forall li, li ∈ require_lines fs rest -> tokens_at fs1 li.1 = tokens_at fs li.1)
      as Hext'.
    { intros li Hli. apply Hext. apply require_lines_fst with (fs := fs).
      apply list_elem_of_fmap. eauto. }
    destruct (kept_lines_ext fs fs1 (require_lines fs rest) need1 Hext') as [Hk1 Hn1].
    destruct (kept_lines_app fs (require_lines_of fs x) need (require_lines fs rest))
      as [Hkapp Hnapp].
    fold need1 in Hkapp, Hnapp.
    exists fs'. split.
    + rewrite Hcons, Hrest. cbn [mbind option_bind].
      rewrite Hkapp, Hnapp, <- Hk1, <- Hn1. do 2 f_equal.
      cbn [omap list_omap].
      set (K0 := kept_lines E need fs (require_lines_of fs x)).
      set (K1 := kept_lines E need1 fs1 (require_lines fs rest)).
      assert (forall l, l ∈ K0 -> l ∈ stmt_lines x) as HK0.
      { intros l Hl. apply kept_lines_subset in Hl. by eapply require_lines_of_fst. }
      assert (forall l, l ∈ K1 -> l ∈ tree_lines rest) as HK1.
      { intros l Hl. apply kept_lines_subset in Hl. by eapply require_lines_fst. }
      rewrite (keep_stmt_ext fs fs (K0 ++ K1) K0 x); [| done |].
      2:{ intros l Hl. rewrite elem_of_app. split; [| auto].
          intros [H | H]; [done |]. apply HK1 in H. by apply Hdisj in H. }
      rewrite (omap_ext_elem (keep_stmt fs (K0 ++ K1)) (keep_stmt fs1 K1) rest); [done |].
      intros y Hy.
      assert (forall l, l ∈ stmt_lines y -> l ∈ tree_lines rest) as Hyl.
      { intros l Hl. by eapply stmt_lines_tree. }
      apply keep_stmt_ext.
      * intros l Hl. apply Hext. auto.
      * intros l Hl. rewrite elem_of_app. split; [| auto].
        intros [H | H]; [| done]. apply HK0 in H. apply Hdisj in H. exfalso. auto.
    + apply (treated_app need fs fs1 fs'); [| done | done].
      change (require_lines_of fs x ++ require_lines fs rest)
        with (require_lines fs (x :: rest)).
      apply require_lines_NoDup.
      change (tree_lines (x :: rest)) with (stmt_lines x ++ tree_lines rest). done.
Qed.

(** The map the loop leaves: an entry stays when its version is empty or
    no require statement has its path. *)
Lemma need_after_spec fs lis : forall need p v,
  need_after E need fs lis !! p = Some v <->
  need !! p = Some v /\ (v = "" \/ forall li, li ∈ lis -> line_path E fs li <> Some p).
Proof.
  induction lis as [|a lis IH]; intros need p v; cbn [need_after].
  - split; [| tauto]. intros H. split; [done |]. right. intros li Hli.
    by apply elem_of_nil in Hli.
  - assert (forall q, line_path E fs a = Some q -> ~ wanted need q ->
              (need !! p = Some v /\
               (v = "" \/ forall li, li ∈ lis -> line_path E fs li <> Some p)) ->
              v = "" \/ forall li, li ∈ a :: lis -> line_path E fs li <> Some p) as Hskip.
    { intros q Hq Hw [Hv [-> | Hno]]; [by left |].
      destruct (decide (v = "")) as [-> | Hv']; [by left | right].
      intros li Hli. apply elem_of_cons in Hli as [-> | Hli]; [| auto].
      rewrite Hq. intros [= ->]. apply Hw. unfold wanted. by rewrite Hv. }
    assert ((v = "" \/ forall li, li ∈ a :: lis -> line_path E fs li <> Some p) ->
            v = "" \/ forall li, li ∈ lis -> line_path E fs li <> Some p) as Htail.
    { intros [-> | Hno]; [by left | right]. intros li Hli. apply Hno. by right. }
    destruct (line_path E fs a) as [q |] eqn:Hq.
    + destruct (decide (wanted need q)) as [Hw | Hw].
      * rewrite IH. split.
        -- intros [Hd Hv]. apply lookup_delete_Some in Hd as [Hne Hd]. split; [done |].
           destruct Hv as [-> | Hno]; [by left | right].
           intros li Hli. apply elem_of_cons in Hli as [-> | Hli]; [| auto].
           rewrite Hq. congruence.
        -- intros [Hv Hor]. unfold wanted in Hw.
           assert (q <> p) as Hne.
           { intros ->. rewrite Hv in Hw. cbn in Hw.
             destruct Hor as [-> | Hno]; [done |]. apply (Hno a); [by left | done]. }
           split; [by rewrite lookup_delete_ne | auto].
      * rewrite IH. split; [| intros [Hv Hor]; auto].
        intros [Hv Hor]. split; [done |]. by apply (Hskip q).
    + rewrite IH. split; [| intros [Hv Hor]; auto].
      intros [Hv Hor]. split; [done |].
      destruct Hor as [-> | Hno]; [by left | right].
      intros li Hli. apply elem_of_cons in Hli as [-> | Hli]; [by rewrite Hq | auto].
Qed.

(** The statements the loop keeps: a require block that stays has a line,
    and the lines that stay are the lines of the other statements and the
    lines of [K]. *)
Lemma keep_stmt_block fs K (stmts : list Expr) b' :
  ELineBlock b' ∈ omap (keep_stmt fs K) stmts -> is_require (BToken b') = true ->
  BLine b' <> [].
Proof.
  intros Hin Hreq. apply list_elem_of_omap in Hin as (x & _ & Hx).
  destruct x as [l | b | c]; cbn in Hx.
  - destruct (is_require (tokens_at fs l)); [destruct (decide (l ∈ K)) |]; done.
  - destruct (is_require (BToken b)) eqn:Hb.
    + destruct (filter _ (BLine b)) as [|l ls]; [done |]. by injection Hx as <-.
    + injection Hx as <-. congruence.
  - done.
Qed.

Lemma keep_stmt_Some fs K x y l :
  keep_stmt fs K x = Some y -> l ∈ stmt_lines y ->
  l ∈ stmt_lines x /\ (l ∈ map fst (require_lines_of fs x) -> l ∈ K).
Proof.
  destruct x as [l0 | b | c]; cbn [keep_stmt require_lines_of stmt_lines].
  - destruct (is_require (tokens_at fs l0)).
    + destruct (decide (l0 ∈ K)) as [Hk | Hk]; [| done]. intros [= <-] Hl.
      cbn in Hl. apply list_elem_of_singleton in Hl as ->. split; [by left | done].
    + intros [= <-] Hl. split; [done |]. intros H. by apply elem_of_nil in H.
  - destruct (is_require (BToken b)).
    + destruct (filter (fun l1 : loc => l1 ∈ K) (BLine b)) as [|l1 ls] eqn:Hf; [done |].
      intros [= <-] Hl. cbn in Hl. rewrite <- Hf in Hl.
      apply list_elem_of_filter in Hl as [Hk Hl]. done.
    + intros [= <-] Hl. split; [done |]. intros H. by apply elem_of_nil in H.
  - intros [= <-] Hl. by apply elem_of_nil in Hl.
Qed.

Lemma keep_stmt_lines fs K (stmts : list Expr) l :
  NoDup (tree_lines stmts) ->
  l ∈ tree_lines (omap (keep_stmt fs K) stmts) ->
  l ∈ tree_lines stmts /\ (l ∈ map fst (require_lines fs stmts) -> l ∈ K).
Proof.
  induction stmts as [|x stmts IH]; [intros _ H; by apply elem_of_nil in H |].
  change (tree_lines (x :: stmts)) with (stmt_lines x ++ tree_lines stmts).
  change (require_lines fs (x :: stmts))
    with (require_lines_of fs x ++ require_lines fs stmts).
  intros Hnd Hl. apply NoDup_app in Hnd as (_ & Hdisj & Hnd).
  rewrite map_app. cbn [omap list_omap] in Hl.
  assert (l ∈ tree_lines (omap (keep_stmt fs K) stmts) ->
          l ∈ stmt_lines x ++ tree_lines stmts /\
          (l ∈ map fst (require_lines_of fs x) ++ map fst (require_lines fs stmts) -> l ∈ K))
    as Hrest.
  { intros H. apply (IH Hnd) in H as [H1 H2]. split; [apply elem_of_app; by right |].
    intros H. apply elem_of_app in H as [H | H]; [| auto].
    apply require_lines_of_fst in H. by apply Hdisj in H. }
  destruct (keep_stmt fs K x) as [y |] eqn:Hy; [| auto].
  change (tree_lines (y :: omap (keep_stmt fs K) stmts))
    with (stmt_lines y ++ tree_lines (omap (keep_stmt fs K) stmts)) in Hl.
  apply elem_of_app in Hl as [Hl | Hl]; [| auto].
  destruct (keep_stmt_Some fs K x y l Hy Hl) as [H1 H2].
  split; [apply elem_of_app; by left |].
  intros H. apply elem_of_app in H as [H | H]; [auto |].
  apply require_lines_fst in H. by apply Hdisj in H.
Qed.

(** The last loop: one new statement and one new record per entry. *)
Lemma AddNewRequire_fold pvs : forall f,
  exists news,
    appended E f (fold_left (fun f pv => AddNewRequire E f pv.1 pv.2) pvs f) pvs news.
Proof.
  induction pvs as [|pv pvs IH]; intros f.
  - exists []. unfold appended. cbn. rewrite !app_nil_r.
    repeat split; try done; constructor.
  - cbn [fold_left].
    set (f1 := AddNewRequire E f pv.1 pv.2).
    set (new := fresh (dom (Lines (fSyntax f)) : gset loc)).
    assert (Lines (fSyntax f) !! new = None) as Hfresh.
    { apply not_elem_of_dom. apply is_fresh. }
    assert (Stmt (fSyntax f1) = Stmt (fSyntax f) ++ [ELine new]) as HS by done.
    assert (Lines (fSyntax f1)
            = <[new := mkLine ["require"; AutoQuote E pv.1; pv.2] false 0]> (Lines (fSyntax f)))
      as HL by done.
    assert (fRequire f1 = fRequire f ++ [mkRequire (mkVersion pv.1 pv.2) (Some new)])
      as HR by done.
    assert (Name (fSyntax f1) = Name (fSyntax f) /\ fModule f1 = fModule f /\
            fExclude f1 = fExclude f /\ fReplace f1 = fReplace f) as (HN & HM & HX & HP)
      by done.
    destruct (IH f1) as (news & HS' & HF & Hnd & HR' & Hpres & HN' & HM' & HX' & HP').
    assert (forall l, l ∈ news -> Lines (fSyntax f1) !! l = None) as Hnews.
    { intros l Hl. apply list_elem_of_lookup in Hl as [i Hi].
      destruct (Forall2_lookup_r _ _ _ _ _ HF Hi) as (pv' & _ & H & _). done. }
    exists (new :: news). unfold appended. split; [| split; [| split; [| split; [| split]]]].
    + rewrite HS', HS, <- app_assoc. done.
    + constructor.
      * split; [done |]. rewrite Hpres; rewrite HL, lookup_insert_eq; done.
      * eapply Forall2_impl; [exact HF |]. intros pv' l [H1 H2]. split; [| done].
        rewrite HL in H1. apply lookup_insert_None in H1 as [H1 _]. done.
    + apply NoDup_cons. split; [| done]. intros Hin. apply Hnews in Hin.
      by rewrite HL, lookup_insert_eq in Hin.
    + rewrite HR', HR, <- app_assoc. done.
    + intros l Hl. rewrite Hpres.
      * rewrite HL, lookup_insert_ne; [done |]. intros <-. rewrite Hfresh in Hl.
        by destruct Hl.
      * rewrite HL. destruct (decide (new = l)) as [-> | Hne].
        -- by rewrite lookup_insert_eq.
        -- by rewrite lookup_insert_ne.
    + repeat split; congruence.
Qed.

Lemma tokens_at_dom fs l : tokens_at fs l <> [] -> is_Some (Lines fs !! l).
Proof.
  unfold tokens_at, line_at. rewrite lookup_total_alt.
  destruct (Lines fs !! l); [by eexists | done].
Qed.

Lemma tokens_at_lookup fs l ln : Lines fs !! l = Some ln -> tokens_at fs l = Token ln.
Proof. intros H. unfold tokens_at, line_at. by rewrite (lookup_total_correct _ _ _ H). Qed.

Lemma tokens_at_lookup_eq fs fs' l :
  Lines fs' !! l = Lines fs !! l -> tokens_at fs' l = tokens_at fs l.
Proof. intros H. unfold tokens_at, line_at. by rewrite !lookup_total_alt, H. Qed.

Lemma line_at_lookup fs fs' l :
  Lines fs' !! l = Lines fs !! l -> line_at fs' l = line_at fs l.
Proof. intros H. unfold line_at. by rewrite !lookup_total_alt, H. Qed.

Lemma tree_lines_ELine news : tree_lines (map ELine news) = news.
Proof. induction news as [|l news IH]; [done |]. cbn. by f_equal. Qed.

(** [SetRequire] up to the sort: the loop over the statements, then the
    loop over the entries left in the map. *)
Lemma SetRequire_edits_spec f req :
  require_tree_ok (fSyntax f) ->
  let need := need_of req in
  let fs := fSyntax f in
  let lis := require_lines fs (Stmt fs) in
  let K := kept_lines E need fs lis in
  exists fs1 f1 news,
    SetRequire_edits E f req = Some f1 /\
    treated E need fs fs1 lis /\
    appended E
      (set_fSyntax (set_fRequire f (map (set_version need) (fRequire f)))
         (set_Stmt fs1 (omap (keep_stmt fs K) (Stmt fs))))
      f1 (map_range E (need_after E need fs lis)) news.
Proof.
  intros [Hnd Hlen] need fs lis K.
  destruct (SetRequire_stmts_spec (Stmt fs) need fs Hnd Hlen) as (fs1 & Hstmts & Htr).
  destruct (AddNewRequire_fold (map_range E (need_after E need fs lis))
              (set_fSyntax (set_fRequire f (map (set_version need) (fRequire f)))
                 (set_Stmt fs1 (omap (keep_stmt fs K) (Stmt fs))))) as (news & Happ).
  eexists fs1, _, news. split; [| split; [exact Htr | exact Happ]].
  unfold SetRequire_edits. cbn [fSyntax set_fRequire]. fold fs need.
  rewrite Hstmts. done.
Qed.

(** The lines of the require statements are in the store. *)
Lemma require_line_dom fs li :
  require_tree_ok fs -> li ∈ require_lines fs (Stmt fs) -> is_Some (Lines fs !! li.1).
Proof.
  intros [_ Hlen] Hli. apply tokens_at_dom. specialize (Hlen li Hli).
  destruct (tokens_at fs li.1); [cbn in Hlen; lia | done].
Qed.

(** X22.  When every line object stands once in the tree and
    every require statement has its path and version tokens, and [range]
    visits every entry of a map once: [SetRequire] returns [SortBlocks] of
    a file [f1], which is described as follows.  A require statement, bare
    or in a require block, stays exactly when its path token unquotes to a
    path for which the map holds a non-empty version and no earlier require
    statement has that path; a statement that stays has the version of the
    map as its version token (and the path, quoted again, as its path
    token); every other require statement leaves the statement list, a
    require block keeps the lines that stay and leaves when none does, and
    no other statement changes.  The entries then appended, each as one new
    line at the end of the statement list, are the entries of the map whose
    version is empty or whose path no require statement has.  From the two
    require lines for example.com/a, at v1.0.0 and v1.1.0, and the map that
    sends example.com/a to v1.2.0, the tree is left with the first line
    only, at v1.2.0. *)
Theorem SetRequire_spec (f : File) (req : list Version) :
  range_visits_all E -> require_tree_ok (fSyntax f) ->
  let need := need_of req in
  let fs := fSyntax f in
  let lis := require_lines fs (Stmt fs) in
  let K := kept_lines E need fs lis in
  exists f1 pvs news,
    SetRequire E f req = Some (SortBlocks E f1) /\
    (forall pre li post, lis = pre ++ li :: post ->
       (li.1 ∈ K <->
        exists p, line_path E fs li = Some p /\ wanted need p /\
                  forall lj, lj ∈ pre -> line_path E fs lj <> Some p)) /\
    (forall li p, li ∈ lis -> li.1 ∈ K -> line_path E fs li = Some p ->
       tokens_at (fSyntax f1) li.1
       = <[S li.2 := default "" (need !! p)]> (<[li.2 := AutoQuote E p]> (tokens_at fs li.1))) /\
    Stmt (fSyntax f1) = omap (keep_stmt fs K) (Stmt fs) ++ map ELine news /\
    (forall b, ELineBlock b ∈ Stmt (fSyntax f1) -> is_require (BToken b) = true ->
               BLine b <> []) /\
    (forall p v, (p, v) ∈ pvs <->
       need !! p = Some v /\
       (v = "" \/ forall li, li ∈ lis -> line_path E fs li <> Some p)) /\
    NoDup pvs /\
    Forall2 (new_require E fs (fSyntax f1)) pvs news /\ NoDup news /\
    (forall l, l ∉ map fst lis -> is_Some (Lines fs !! l) ->
               line_at (fSyntax f1) l = line_at fs l) /\
    fRequire f1
    = map (set_version need) (fRequire f)
      ++ zip_with (fun pv l => mkRequire (mkVersion pv.1 pv.2) (Some l)) pvs news /\
    fModule f1 = fModule f /\ fExclude f1 = fExclude f /\ fReplace f1 = fReplace f /\
    option_map (fun f' => (Stmt (fSyntax f'), tokens_at (fSyntax f') 0))
      (SetRequire GoEnv.env (decoded two_requires) [mkVersion "example.com/a" "v1.2.0"])
    = Some ([ELine 0], ["require"; "example.com/a"; "v1.2.0"]).
Proof.
  intros Hrange Hok need fs lis K.
  destruct (SetRequire_edits_spec f req Hok)
    as (fs1 & f1 & news & Hed & [Hsame Htok]
        & HS & HF & Hnd & HR & Hpres & _ & HM & HX & HP).
  fold need fs lis K in Hed, Hsame, Htok, HS, HF, HR, Hpres.
  cbn [fSyntax set_fSyntax set_fRequire set_Stmt Stmt Lines fRequire fModule fExclude
       fReplace] in HS, HF, HR, Hpres, HM, HX, HP.
  destruct Hsame as (_ & _ & Hframe & Hdom).
  pose proof (require_lines_NoDup fs (Stmt fs) (proj1 Hok)) as Hndl. fold lis in Hndl.
  exists f1, (map_range E (need_after E need fs lis)), news.
  split; [unfold SetRequire; by rewrite Hed |].
  split.
  { intros pre li post Heq. unfold K. rewrite Heq. apply kept_lines_first.
    by rewrite <- Heq. }
  split.
  { intros li p Hli Hk Hp. rewrite <- (Htok li p Hli Hk Hp).
    apply tokens_at_lookup_eq, Hpres, Hdom. by apply require_line_dom. }
  split; [exact HS |].
  split.
  { intros b Hb Hreq. rewrite HS in Hb. apply elem_of_app in Hb as [Hb | Hb].
    - by eapply keep_stmt_block.
    - apply list_elem_of_fmap in Hb as (l & [=] & _). }
  split.
  { intros p v. rewrite <- need_after_spec, (Hrange _). apply elem_of_map_to_list. }
  split; [rewrite (Hrange _); apply NoDup_map_to_list |].
  split.
  { eapply Forall2_impl; [exact HF |]. intros pv l [H1 H2]. split.
    - destruct (Lines fs !! l) eqn:Hl; [| done].
      assert (is_Some (Lines fs1 !! l)) as Hs by (apply Hdom; by eexists).
      rewrite H1 in Hs. by destruct Hs.
    - by rewrite (tokens_at_lookup _ _ _ H2). }
  split; [exact Hnd |].
  split.
  { intros l Hl Hs. rewrite <- (Hframe l Hl). apply line_at_lookup, Hpres, Hdom, Hs. }
  split; [exact HR |].
  split; [exact HM |]. split; [exact HX |]. split; [exact HP |].
  by vm_compute.
Qed.

(** C10.  When the map sends the path [p] to the empty version (and the
    tree is as above): [SetRequire] returns [SortBlocks] of a file [f1] in
    whose tree no require statement of the old tree with path [p] is left,
    a bare one or one in a block: the test [need[p] != ""] fails for it as
    it does for a path that the map does not hold.  The entry of [p] is
    therefore still in the map when the last loop runs, and [f1] has, among
    the new lines at the end of its statement list, a require line for [p]
    whose version token is the empty string. *)
Theorem SetRequire_empty_version (f : File) (req : list Version) (p : string) :
  range_visits_all E -> require_tree_ok (fSyntax f) ->
  need_of req !! p = Some "" ->
  let need := need_of req in
  let fs := fSyntax f in
  let lis := require_lines fs (Stmt fs) in
  exists f1 news l,
    SetRequire E f req = Some (SortBlocks E f1) /\
    (forall li, li ∈ lis -> line_path E fs li = Some p ->
                li.1 ∉ tree_lines (Stmt (fSyntax f1))) /\
    ~ wanted need p /\
    need_after E need fs lis !! p = Some "" /\
    Stmt (fSyntax f1)
    = omap (keep_stmt fs (kept_lines E need fs lis)) (Stmt fs) ++ map ELine news /\
    l ∈ news /\
    Lines fs !! l = None /\
    tokens_at (fSyntax f1) l = ["require"; AutoQuote E p; ""].
Proof.
  intros Hrange Hok Hp need fs lis. change (need !! p = Some "") in Hp.
  destruct (SetRequire_edits_spec f req Hok)
    as (fs1 & f1 & news & Hed & [Hsame Htok] & HS & HF & Hnd & _ & Hpres & _).
  fold need fs lis in Hed, Hsame, Htok, HS, HF, Hpres.
  cbn [fSyntax set_fSyntax set_fRequire set_Stmt Stmt Lines] in HS, HF, Hpres.
  destruct Hsame as (_ & _ & _ & Hdom).
  pose proof (require_lines_NoDup fs (Stmt fs) (proj1 Hok)) as Hndl. fold lis in Hndl.
  assert (forall l, l ∈ news -> Lines fs !! l = None) as Hnew.
  { intros l Hl. apply list_elem_of_lookup in Hl as [i Hi].
    destruct (Forall2_lookup_r _ _ _ _ _ HF Hi) as (pv & _ & Hnone & _).
    destruct (Lines fs !! l) eqn:Hl; [| done].
    assert (is_Some (Lines fs1 !! l)) as Hs by (apply Hdom; by eexists).
    rewrite Hnone in Hs. by destruct Hs. }
  assert (need_after E need fs lis !! p = Some "") as Hleft.
  { apply need_after_spec. split; [done | by left]. }
  assert ((p, "") ∈ map_range E (need_after E need fs lis)) as Hin.
  { rewrite (Hrange _). by apply elem_of_map_to_list. }
  apply list_elem_of_lookup in Hin as [i Hi].
  destruct (Forall2_lookup_l _ _ _ _ _ HF Hi) as (l & Hl & _ & Hline).
  assert (l ∈ news) as Hlin by (apply list_elem_of_lookup; eauto).
  exists f1, news, l.
  split; [unfold SetRequire; by rewrite Hed |].
  split.
  { intros li Hli Hpath Hin. rewrite HS, tree_lines_app, tree_lines_ELine in Hin.
    apply elem_of_app in Hin as [Hin | Hin].
    - apply keep_stmt_lines in Hin as [_ Hk]; [| exact (proj1 Hok)].
      assert (li.1 ∈ kept_lines E need fs lis) as Hkept.
      { apply Hk. apply list_elem_of_fmap. eauto. }
      pose proof (kept_lines_wanted fs lis need li p Hndl Hli Hkept Hpath) as Hw.
      unfold wanted in Hw. rewrite Hp in Hw. done.
    - apply Hnew in Hin. destruct (require_line_dom fs li Hok Hli) as [ln Hln]. congruence. }
  split; [intros Hw; unfold wanted in Hw; rewrite Hp in Hw; by apply Hw |].
  split; [exact Hleft |].
  split; [exact HS |].
  split; [exact Hlin |].
  split; [by apply Hnew |].
  by rewrite (tokens_at_lookup _ _ _ Hline).
Qed.

End SetRequireProperties.

Lemma GoEnv_range_visits_all : range_visits_all GoEnv.env.
Proof. intros m. reflexivity. Qed.

Lemma two_requires_tree_ok : require_tree_ok (fSyntax (decoded two_requires)).
Proof.
  split.
  - vm_compute. apply NoDup_cons. split; [| apply NoDup_singleton].
    intros Hin. apply list_elem_of_singleton in Hin. discriminate.
  - intros li Hli. vm_compute in Hli.
    apply elem_of_cons in Hli as [-> | Hli]; [vm_compute; lia |].
    apply list_elem_of_singleton in Hli as ->. vm_compute. lia.
Qed.

Lemma require_block_tree_ok : require_tree_ok (fSyntax (decoded require_block)).
Proof.
  split.
  - vm_compute. apply NoDup_cons. split; [| apply NoDup_singleton].
    intros Hin. apply list_elem_of_singleton in Hin. discriminate.
  - intros li Hli. vm_compute in Hli.
    apply elem_of_cons in Hli as [-> | Hli]; [vm_compute; lia |].
    apply list_elem_of_singleton in Hli as ->. vm_compute. lia.
Qed.

(** The theorem in the concrete environment, on the two require statements
    for example.com/a. *)
Lemma SetRequire_spec_witness :
  range_visits_all GoEnv.env /\ require_tree_ok (fSyntax (decoded two_requires)) /\
  exists f1 news,
    SetRequire GoEnv.env (decoded two_requires) [mkVersion "example.com/a" "v1.2.0"]
    = Some (SortBlocks GoEnv.env f1) /\
    Stmt (fSyntax f1) = [ELine 0] ++ map ELine news.
Proof.
  split; [exact GoEnv_range_visits_all |]. split; [exact two_requires_tree_ok |].
  destruct (SetRequire_spec GoEnv.env (decoded two_requires)
              [mkVersion "example.com/a" "v1.2.0"]
              GoEnv_range_visits_all two_requires_tree_ok)
    as (f1 & pvs & news & Hres & _ & _ & HS & _).
  exists f1, news. split; [exact Hres |]. rewrite HS. f_equal.
Defined.

(** C2 at the input where code and claim part: example.com/a is a key of
    the map, which sends it to the empty version.  The loop over the
    records finds the key and writes the empty version into both records;
    the loops over the tree test the version, not the key, so the two
    require statements for example.com/a are not updated in place but
    leave the tree, the entry is not consumed, and one new require line
    with an empty version token is appended, with a third record.  The
    decoder refuses the line that [SetRequire] wrote. *)
Lemma SetRequire_drops_statement_of_key :
  decode GoEnv.env "go.mod" two_requires None = Some (decoded two_requires, []) /\
  need_of [mkVersion "example.com/a" ""] !! "example.com/a" = Some "" /\
  option_map (fun f' => (Stmt (fSyntax f'), tokens_at (fSyntax f') 2))
    (SetRequire GoEnv.env (decoded two_requires) [mkVersion "example.com/a" ""])
  = Some ([ELine 2], ["require"; "example.com/a"; ""]) /\
  option_map fRequire
    (SetRequire GoEnv.env (decoded two_requires) [mkVersion "example.com/a" ""])
  = Some [mkRequire (mkVersion "example.com/a" "") (Some 0);
          mkRequire (mkVersion "example.com/a" "") (Some 1);
          mkRequire (mkVersion "example.com/a" "") (Some 2)] /\
  (SetRequire GoEnv.env (decoded two_requires) [mkVersion "example.com/a" ""] ≫= fun f' =>
   option_map (fun st : File * list Diag => (fRequire st.1, st.2))
     (decode GoEnv.env "go.mod" (fSyntax f') None))
  = Some ([], [mkDiag "go.mod" 0
                 (InvalidModuleVersion "" "version must be of the form v1.2.3")]).
Proof. repeat split; by vm_compute. Qed.

(** The theorem in the concrete environment, on a require block: the map
    sends example.com/a to the empty version and example.com/b to v1.1.0. *)
Lemma SetRequire_empty_version_witness :
  range_visits_all GoEnv.env /\ require_tree_ok (fSyntax (decoded require_block)) /\
  need_of [mkVersion "example.com/a" ""; mkVersion "example.com/b" "v1.1.0"]
    !! "example.com/a" = Some "" /\
  (exists f1 l,
     SetRequire GoEnv.env (decoded require_block)
       [mkVersion "example.com/a" ""; mkVersion "example.com/b" "v1.1.0"]
     = Some (SortBlocks GoEnv.env f1) /\
     tokens_at (fSyntax f1) l = ["require"; "example.com/a"; ""]) /\
  option_map (fun f' => (Stmt (fSyntax f'), tokens_at (fSyntax f') 1, tokens_at (fSyntax f') 2))
    (SetRequire GoEnv.env (decoded require_block)
       [mkVersion "example.com/a" ""; mkVersion "example.com/b" "v1.1.0"])
  = Some ([ELineBlock (mkLineBlock ["require"] [1] 1); ELine 2],
          ["example.com/b"; "v1.1.0"], ["require"; "example.com/a"; ""]).
Proof.
  split; [exact GoEnv_range_visits_all |]. split; [exact require_block_tree_ok |].
  split; [by vm_compute |].
  split; [| by vm_compute].
  destruct (SetRequire_empty_version GoEnv.env (decoded require_block)
              [mkVersion "example.com/a" ""; mkVersion "example.com/b" "v1.1.0"]
              "example.com/a" GoEnv_range_visits_all require_block_tree_ok eq_refl)
    as (f1 & news & l & Hres & _ & _ & _ & _ & _ & _ & Htok).
  exists f1, l. split; [exact Hres | exact Htok].
Defined.

(** * Further properties of rule.go *)

(** ** SetRequire: the map of the wanted versions *)

Lemma need_of_fold (req : list Version) : forall (m0 : gmap string string) p,
  fold_left (fun need m => <[Path m := Vers m]> need) req m0 !! p
  = match last (filter (fun m : Version => Path m = p) req) with
    | Some m => Some (Vers m)
    | None => m0 !! p
    end.
Proof.
  induction req as [|m req IH]; intros m0 p; [done |].
  cbn [fold_left]. rewrite IH, filter_cons.
  destruct (decide (Path m = p)) as [<- | Hne].
  - rewrite last_cons. destruct (last (filter _ req)); [done |].
    by rewrite lookup_insert_eq.
  - destruct (last (filter _ req)); [done |]. by rewrite lookup_insert_ne.
Qed.

(** X1.  The map that [SetRequire] builds from its argument holds, for
    every path, the version of the last entry of the argument with that
    path, and nothing for a path that no entry has. *)
Theorem need_of_last_wins (req : list Version) (p : string) :
  need_of req !! p = Vers <$> last (filter (fun m : Version => Path m = p) req).
Proof.
  unfold need_of. rewrite need_of_fold.
  destruct (last (filter _ req)); [done | apply lookup_empty].
Qed.

(** ** SortBlocks: the order of the lines *)

(** X2.  The [less] function of [SortBlocks] is a strict total order of
    the token sequences: no sequence is less than itself, it is transitive,
    and of two different sequences one is less than the other; so only
    lines with the same tokens are ties for [sort.Slice]. *)
Theorem less_tokens_total_order :
  (forall t, less_tokens t t = false) /\
  (forall t1 t2 t3, less_tokens t1 t2 = true -> less_tokens t2 t3 = true ->
                    less_tokens t1 t3 = true) /\
  (forall t1 t2, less_tokens t1 t2 = true -> less_tokens t2 t1 = false) /\
  (forall t1 t2, less_tokens t1 t2 = false -> less_tokens t2 t1 = false -> t1 = t2).
Proof.
  assert (forall a b : string, String.compare a b = CompOpp (String.compare b a)) as Hanti
    by (intros a b; apply String.compare_antisym).
  assert (forall a b : string, String.compare a b = Eq -> a = b) as Heq
    by (intros a b; apply string_compare_eq).
  split; [| split; [| split]].
  - intros t. rewrite less_tokens_lex. apply bool_decide_eq_false_2.
    pose proof (lex_antisym String.compare Hanti t t) as H.
    destruct (lex String.compare t t); done.
  - intros t1 t2 t3. rewrite !less_tokens_lex. intros H1 H2.
    apply bool_decide_eq_true_1 in H1, H2. apply bool_decide_eq_true_2.
    eapply (lex_trans String.compare Heq string_compare_trans); eauto.
  - intros t1 t2. rewrite !less_tokens_lex. intros H1.
    apply bool_decide_eq_true_1 in H1. apply bool_decide_eq_false_2.
    rewrite (lex_antisym String.compare Hanti), H1. done.
  - intros t1 t2. rewrite !less_tokens_lex. intros H1 H2.
    apply bool_decide_eq_false_1 in H1, H2.
    apply (lex_eq String.compare Heq).
    rewrite (lex_antisym String.compare Hanti) in H2.
    destruct (lex String.compare t1 t2); done.
Qed.
(** ** Quoting: MustQuote, AutoQuote and parseString *)

(** An ASCII byte of a string is one of its runes: no byte of a multi-byte
    encoding is an ASCII byte. *)
Lemma cont_not_ascii b : cont b = true -> (128 <= N_of_ascii b)%N.
Proof. unfold cont. intros H. apply andb_true_iff in H as [H _]. by apply N.leb_le in H. Qed.

Lemma in_range_not_ascii lo hi b :
  (128 <= lo)%N -> in_range lo hi b = true -> (128 <= N_of_ascii b)%N.
Proof.
  unfold in_range. intros Hlo H. apply andb_true_iff in H as [H _].
  apply N.leb_le in H. lia.
Qed.

Lemma runes_ascii_byte (n : nat) : forall s c,
  (String.length s <= n)%nat -> (N_of_ascii c < 128)%N ->
  mem_byte c s = true -> N_of_ascii c ∈ runes s.
Proof.
  induction n as [|n IH]; intros s c Hlen Hc Hin.
  { destruct s; [done | cbn in Hlen; lia]. }
  assert (forall b s', mem_byte c (String b s') = true -> (128 <= N_of_ascii b)%N ->
                       mem_byte c s' = true) as Hskip.
  { intros b s' H Hb. cbn in H. apply orb_true_iff in H as [H | H]; [| done].
    apply Ascii.eqb_eq in H as ->. lia. }
  assert (forall s', (String.length s' <= n)%nat -> mem_byte c s' = true ->
                     forall r, N_of_ascii c ∈ r :: runes s') as Hrest.
  { intros s' Hl Hm r. right. by apply IH. }
  destruct s as [|b0 s1]; [done |]. cbn [String.length] in Hlen.
  cbn [runes]. destruct (N_of_ascii b0 <? 128)%N eqn:H0.
  { cbn in Hin. apply orb_true_iff in Hin as [Hin | Hin].
    - apply Ascii.eqb_eq in Hin as ->. by left.
    - right. apply IH; [lia | done | done]. }
  apply N.ltb_ge in H0. apply Hskip in Hin; [| done].
  destruct s1 as [|b1 s2]; [done |]. cbn [String.length] in Hlen.
  destruct (in_range 194 223 b0).
  { destruct (cont b1) eqn:H1; [| apply Hrest; [cbn; lia | done]].
    apply cont_not_ascii in H1. apply Hskip in Hin; [| done].
    apply Hrest; [lia | done]. }
  destruct s2 as [|b2 s3]; [apply Hrest; [cbn; lia | done] |]. cbn [String.length] in Hlen.
  destruct (in_range 224 239 b0).
  { destruct (in_range _ _ b1 && cont b2) eqn:H12; [| apply Hrest; [cbn; lia | done]].
    apply andb_true_iff in H12 as [H1 H2].
    apply in_range_not_ascii in H1; [| by destruct (_ =? _)%N].
    apply cont_not_ascii in H2.
    apply Hskip in Hin; [| done]. apply Hskip in Hin; [| done].
    apply Hrest; [lia | done]. }
  destruct s3 as [|b3 s4]; [apply Hrest; [cbn; lia | done] |]. cbn [String.length] in Hlen.
  destruct (in_range 240 244 b0); [| apply Hrest; [cbn; lia | done]].
  destruct (in_range _ _ b1 && cont b2 && cont b3) eqn:H123;
    [| apply Hrest; [cbn; lia | done]].
  apply andb_true_iff in H123 as [H12 H3]. apply andb_true_iff in H12 as [H1 H2].
  apply in_range_not_ascii in H1; [| by destruct (_ =? _)%N].
  apply cont_not_ascii in H2, H3.
  do 3 (apply Hskip in Hin; [| done]).
  apply Hrest; [lia | done].
Qed.

Section Quoting.
Variable E : Externals.

Lemma MustQuote_false_bytes s c :
  MustQuote E s = false ->
  c = " "%char \/ c = dquote \/ c = squote \/ c = bquote ->
  mem_byte c s = false.
Proof.
  intros Hq Hc. unfold MustQuote in Hq. apply orb_false_iff in Hq as [Hq _].
  destruct (mem_byte c s) eqn:Hm; [| done]. exfalso.
  assert ((N_of_ascii c < 128)%N) as Hlt by (destruct Hc as [-> | [-> | [-> | ->]]]; done).
  pose proof (runes_ascii_byte (String.length s) s c (le_n _) Hlt Hm) as Hin.
  assert (existsb (fun r => negb (unicode_IsPrint E r) || (r =? 32)%N || (r =? 34)%N ||
                            (r =? 39)%N || (r =? 96)%N) (runes s) = true) as Hex.
  { apply existsb_exists. exists (N_of_ascii c). split; [by apply list_elem_of_In |].
    destruct Hc as [-> | [-> | [-> | ->]]]; cbn; by rewrite ?orb_true_r. }
  congruence.
Qed.

Lemma ContainsAny_false s chars :
  (forall c, mem_byte c chars = true -> mem_byte c s = false) ->
  ContainsAny s chars = false.
Proof.
  induction s as [|b s IH]; intros H; [done |]. cbn.
  apply orb_false_iff. split.
  - destruct (mem_byte b chars) eqn:Hb; [| done]. apply H in Hb. cbn in Hb.
    by rewrite Ascii.eqb_refl in Hb.
  - apply IH. intros c Hc. apply H in Hc. cbn in Hc. by apply orb_false_iff in Hc as [_ ?].
Qed.

Lemma MustQuote_false_ContainsAny s :
  MustQuote E s = false -> ContainsAny s (String " " quote_chars) = false.
Proof.
  intros Hq. apply ContainsAny_false. intros c Hc. apply (MustQuote_false_bytes s c Hq).
  cbn in Hc. rewrite !orb_true_iff, !Ascii.eqb_eq in Hc.
  destruct Hc as [-> | [-> | [-> | [-> | ?]]]]; auto. done.
Qed.

(** X3.  A string that [MustQuote] lets stand unquoted is a single token
    of a go.mod line: it is not empty, none of its bytes is a space or one
    of the three quote characters, all its runes are printable, and it
    holds no comment marker. *)
Theorem MustQuote_false_token (s : string) :
  MustQuote E s = false ->
  s <> "" /\
  ContainsAny s (String " " quote_chars) = false /\
  Forall (fun r => unicode_IsPrint E r = true) (runes s) /\
  Contains s "//" = false /\ Contains s "/*" = false.
Proof.
  intros Hq. pose proof Hq as Hq'. unfold MustQuote in Hq'.
  apply orb_false_iff in Hq' as [Hr Hs].
  apply orb_false_iff in Hs as [Hs Hc2]. apply orb_false_iff in Hs as [He Hc1].
  split; [intros ->; done |].
  split; [by apply MustQuote_false_ContainsAny |].
  split; [| done].
  apply Forall_forall. intros r Hin.
  destruct (unicode_IsPrint E r) eqn:Hp; [done |].
  assert (existsb (fun r => negb (unicode_IsPrint E r) || (r =? 32)%N || (r =? 34)%N ||
                            (r =? 39)%N || (r =? 96)%N) (runes s) = true) as Hex.
  { apply existsb_exists. exists r. split; [by apply list_elem_of_In |]. by rewrite Hp. }
  congruence.
Qed.

(** X4.  Reading back what [AutoQuote] wrote: when [strconv.Quote] puts a
    string between double quotes and [strconv.Unquote] undoes it, then
    [parseString] accepts the token [AutoQuote t], returns [t] and leaves
    the token as it is. *)
Theorem parseString_AutoQuote (t : string) :
  (MustQuote E t = true ->
   HasPrefix (strconv_Quote E t) (String dquote EmptyString) = true /\
   strconv_Unquote E (strconv_Quote E t) = Ok t) ->
  parseString E (AutoQuote E t) = (AutoQuote E t, Ok t).
Proof.
  intros Hrt. unfold AutoQuote. destruct (MustQuote E t) eqn:Hq.
  - destruct (Hrt eq_refl) as [Hp Hu]. unfold parseString. rewrite Hp, Hu.
    unfold AutoQuote. by rewrite Hq.
  - pose proof (MustQuote_false_ContainsAny t Hq) as Hany.
    unfold parseString.
    assert (HasPrefix t (String dquote EmptyString) = false) as ->.
    { destruct t as [|b t]; [done |]. cbn. rewrite andb_true_r.
      cbn in Hany. apply orb_false_iff in Hany as [Hb _].
      apply orb_false_iff in Hb as [_ Hb]. apply orb_false_iff in Hb as [Hb _].
      rewrite Ascii.eqb_sym. exact Hb. }
    assert (ContainsAny t quote_chars = false) as ->.
    { apply ContainsAny_false. intros c Hc. apply (MustQuote_false_bytes t c Hq).
      cbn in Hc. rewrite !orb_true_iff, !Ascii.eqb_eq in Hc.
      destruct Hc as [-> | [-> | [-> | ?]]]; auto. done. }
    unfold AutoQuote. by rewrite Hq.
Qed.

End Quoting.

(** The theorem on a module path, which needs no quotes. *)
Lemma MustQuote_false_token_witness :
  MustQuote GoEnv.env "example.com/a" = false /\
  ContainsAny "example.com/a" (String " " quote_chars) = false.
Proof.
  split; [by vm_compute |].
  apply (MustQuote_false_token GoEnv.env "example.com/a"). by vm_compute.
Defined.

(** The theorem on a path with a space, which is quoted. *)
Lemma parseString_AutoQuote_witness :
  parseString GoEnv.env (AutoQuote GoEnv.env "my module")
  = (AutoQuote GoEnv.env "my module", Ok "my module") /\
  AutoQuote GoEnv.env "my module" = String dquote ("my module" +:+ String dquote "").
Proof.
  split; [| by vm_compute].
  apply (parseString_AutoQuote GoEnv.env "my module").
  intros _. by vm_compute.
Defined.
(** ** Parse: what the decoder does to the tree and to the records *)

Section DecodeInvariants.
Variable E : Externals.

Lemma decode_left_length args fix_ :
  length (decode_left E args fix_).1 = length args.
Proof.
  unfold decode_left. repeat case_match; cbn [fst]; by rewrite ?length_insert.
Qed.

Lemma decode_require_length verb args fix_ :
  length (decode_require E verb args fix_).1 = length args.
Proof.
  unfold decode_require. case_match; [done |]. apply decode_left_length.
Qed.

Lemma decode_replace_length verb args fix_ :
  length (decode_replace E verb args fix_).1 = length args.
Proof.
  unfold decode_replace. case_match; [done |].
  pose proof (decode_left_length args fix_) as Hl.
  destruct (decode_left E args fix_) as [args1 [m | old]]; cbn [fst] in *; [done |].
  repeat case_match; cbn [fst]; by rewrite ?length_insert.
Qed.

Lemma decode_module_length args : length (decode_module E args).1 = length args.
Proof.
  unfold decode_module. repeat case_match; cbn [fst]; by rewrite ?length_insert.
Qed.

Lemma rewritten_refl off l fs : rewritten off l fs fs.
Proof. done. Qed.

Lemma write_args_rewritten f l off args :
  length args = length (drop off (tokens_at (fSyntax f) l)) ->
  rewritten off l (fSyntax f) (fSyntax (write_args f l off args)).
Proof.
  intros Hlen. unfold write_args. cbn [fSyntax set_fSyntax].
  split; [done |]. split; [done |].
  split; [intros l' Hne; by apply line_at_store_ne |].
  unfold tokens_at in *.
  assert (line_at (store_Token (fSyntax f) l
                     (take off (Token (line_at (fSyntax f) l)) ++ args)) l
          = set_Token (line_at (fSyntax f) l)
              (take off (Token (line_at (fSyntax f) l)) ++ args)) as ->.
  { unfold store_Token, line_at at 1. cbn. by rewrite lookup_total_insert_eq. }
  cbn. split; [done |]. split; [done |].
  rewrite length_drop in Hlen. split.
  - rewrite length_app, length_take. lia.
  - destruct (decide (off <= length (Token (line_at (fSyntax f) l)))) as [Hle | Hgt].
    + rewrite take_app_le by (rewrite length_take; lia).
      rewrite take_take. f_equal. lia.
    + destruct args; [| cbn in Hlen; lia]. rewrite app_nil_r, take_take. f_equal. lia.
Qed.

Lemma add_rewritten f errs l verb off fix_ :
  rewritten off l (fSyntax f) (fSyntax (add E f errs l verb off fix_).1).
Proof.
  unfold add.
  set (args := drop off (tokens_at (fSyntax f) l)).
  pose proof (decode_module_length args) as Hm.
  pose proof (decode_require_length verb args fix_) as Hr.
  pose proof (decode_replace_length verb args fix_) as Hp.
  destruct (String.eqb verb "module").
  { destruct (fModule f) as [m |]; [apply rewritten_refl |].
    destruct (decode_module E args) as [args' [m | s]]; cbn [fst snd] in *;
      by apply (write_args_rewritten (set_fModule f _) l off). }
  destruct (String.eqb verb "require" || String.eqb verb "exclude").
  { destruct (decode_require E verb args fix_) as [args' [m | v]]; cbn [fst snd] in *.
    - by apply write_args_rewritten.
    - destruct (String.eqb verb "require"); cbn [fst fSyntax set_fRequire set_fExclude];
        by apply write_args_rewritten. }
  destruct (String.eqb verb "replace"); [| apply rewritten_refl].
  destruct (decode_replace E verb args fix_) as [args' [m | [old new]]]; cbn [fst snd] in *.
  - by apply write_args_rewritten.
  - cbn [fSyntax set_fReplace]. by apply write_args_rewritten.
Qed.


(** A property of the file that every call of [add] on a line of the
    statements keeps is kept by the loop of [Parse]. *)
Lemma add_fold_pres (P : File -> Prop) verb fix_ (ls : list loc) :
  (forall f errs l, l ∈ ls -> P f -> P (add E f errs l verb 0 fix_).1) ->
  forall st, P st.1 -> P (fold_left (fun st l => add E st.1 st.2 l verb 0 fix_) ls st).1.
Proof.
  induction ls as [|l ls IH]; intros Hadd st HP; [done |]. cbn [fold_left].
  apply IH.
  - intros f errs l' Hl'. apply Hadd. by right.
  - apply Hadd; [by left | done].
Qed.

Lemma decode_stmt_pres (P : File -> Prop) file fix_ x st st' :
  (forall f errs l verb off, l ∈ stmt_lines x -> P f -> P (add E f errs l verb off fix_).1) ->
  P st.1 -> decode_stmt E file fix_ st x = Some st' -> P st'.1.
Proof.
  intros Hadd HP. destruct st as [f errs]. unfold decode_stmt.
  destruct x as [l | b | c]; cbn [stmt_lines] in Hadd.
  - destruct (tokens_at (fSyntax f) l) as [|verb ts]; [done |].
    intros [= <-]. apply Hadd; [by left | done].
  - destruct (1 <? length (BToken b))%nat; [by intros [= <-] |].
    destruct (BToken b) as [|verb ts]; [done |].
    destruct (known_block verb); [| by intros [= <-]].
    intros [= <-]. apply (add_fold_pres P verb fix_ (BLine b)); [| done].
    intros f0 errs0 l Hl. by apply Hadd.
  - by intros [= <-].
Qed.

Lemma decode_loop_pres (P : File -> Prop) file fix_ stmts : forall st st',
  (forall f errs l verb off, l ∈ tree_lines stmts -> P f ->
                             P (add E f errs l verb off fix_).1) ->
  P st.1 -> decode_loop E file fix_ stmts st = Some st' -> P st'.1.
Proof.
  induction stmts as [|x stmts IH]; intros st st' Hadd HP; cbn [decode_loop].
  - by intros [= <-].
  - change (tree_lines (x :: stmts)) with (stmt_lines x ++ tree_lines stmts) in Hadd.
    destruct (decode_stmt E file fix_ st x) as [st1 |] eqn:Hx; [| done].
    apply IH.
    + intros f errs l verb off Hl. apply Hadd, elem_of_app. by right.
    + eapply decode_stmt_pres; [| exact HP | exact Hx].
      intros f errs l verb off Hl. apply Hadd, elem_of_app. by left.
Qed.

(** The same for a property that depends on the lines decoded so far,
    when no line stands twice in the tree. *)
Section LoopInvariant.
Variable I : list loc -> File * list Diag -> Prop.
Variable fix_ : option VersionFixer.
Hypothesis I_skip : forall done ls st, I done st -> I (done ++ ls) st.
Hypothesis I_diag : forall done f errs d, I done (f, errs) -> I done (f, errs ++ [d]).
Hypothesis I_add : forall done f errs l verb off,
  I done (f, errs) -> l ∉ done -> I (done ++ [l]) (add E f errs l verb off fix_).

Lemma add_fold_inv verb (ls : list loc) : forall done st,
  NoDup (done ++ ls) -> I done st ->
  I (done ++ ls) (fold_left (fun st l => add E st.1 st.2 l verb 0 fix_) ls st).
Proof.
  induction ls as [|l ls IH]; intros done st Hnd HI; cbn [fold_left].
  - by rewrite app_nil_r.
  - replace (done ++ l :: ls) with ((done ++ [l]) ++ ls) in * by (by rewrite <- app_assoc).
    apply IH; [done |]. destruct st as [f errs]. apply I_add; [done |].
    apply NoDup_app in Hnd as [Hnd _]. apply NoDup_app in Hnd as (_ & Hd & _).
    intros Hin. apply (Hd l Hin). by left.
Qed.

Lemma decode_stmt_inv file x done st st' :
  NoDup (done ++ stmt_lines x) -> I done st ->
  decode_stmt E file fix_ st x = Some st' -> I (done ++ stmt_lines x) st'.
Proof.
  intros Hnd HI. destruct st as [f errs]. unfold decode_stmt.
  destruct x as [l | b | c]; cbn [stmt_lines] in *.
  - destruct (tokens_at (fSyntax f) l) as [|verb ts]; [done |].
    intros [= <-]. apply I_add; [done |].
    apply NoDup_app in Hnd as (_ & Hd & _). intros Hin. apply (Hd l Hin). by left.
  - destruct (1 <? length (BToken b))%nat; [intros [= <-]; by apply I_skip, I_diag |].
    destruct (BToken b) as [|verb ts]; [done |].
    destruct (known_block verb); [| intros [= <-]; by apply I_skip, I_diag].
    intros [= <-]. by apply (add_fold_inv verb (BLine b) done (f, errs)).
  - intros [= <-]. by apply I_skip.
Qed.

Lemma decode_loop_inv file stmts : forall done st st',
  NoDup (done ++ tree_lines stmts) -> I done st ->
  decode_loop E file fix_ stmts st = Some st' -> I (done ++ tree_lines stmts) st'.
Proof.
  induction stmts as [|x stmts IH]; intros done st st' Hnd HI; cbn [decode_loop].
  - intros [= <-]. by apply I_skip.
  - change (tree_lines (x :: stmts)) with (stmt_lines x ++ tree_lines stmts) in *.
    rewrite app_assoc in *.
    destruct (decode_stmt E file fix_ st x) as [st1 |] eqn:Hx; [| done].
    apply IH; [done |]. eapply decode_stmt_inv; [| exact HI | exact Hx].
    by apply NoDup_app in Hnd as [Hnd _].
Qed.

End LoopInvariant.


(** X5.  The loop of [Parse] rewrites tokens in place and does nothing
    else to the tree: when it ends, the file has the name and the statement
    list of the tree it started from, every line has its flag, its position
    and its number of tokens, and a line that is in no statement is
    untouched. *)
Theorem decode_keeps_tree (file : string) (fs : FileSyntax) (fix_ : option VersionFixer)
    (f : File) (errs : list Diag) :
  decode E file fs fix_ = Some (f, errs) ->
  Name (fSyntax f) = Name fs /\ Stmt (fSyntax f) = Stmt fs /\
  (forall l, InBlock (line_at (fSyntax f) l) = InBlock (line_at fs l) /\
             StartLine (line_at (fSyntax f) l) = StartLine (line_at fs l) /\
             length (tokens_at (fSyntax f) l) = length (tokens_at fs l)) /\
  (forall l, l ∉ tree_lines (Stmt fs) -> line_at (fSyntax f) l = line_at fs l).
Proof.
  intros Hd. unfold decode in Hd.
  set (P := fun g : File =>
              Name (fSyntax g) = Name fs /\ Stmt (fSyntax g) = Stmt fs /\
              forall l, InBlock (line_at (fSyntax g) l) = InBlock (line_at fs l) /\
                        StartLine (line_at (fSyntax g) l) = StartLine (line_at fs l) /\
                        length (tokens_at (fSyntax g) l) = length (tokens_at fs l)).
  assert (P f) as (HN & HS & HL).
  { apply (decode_loop_pres P file fix_ (Stmt fs) (new_File fs, []) (f, errs)); [| done | done].
    intros g errs0 l verb off _ (HN & HS & HL).
    destruct (add_rewritten g errs0 l verb off fix_) as (N & S & Hne & Hb & Hs & Hlen & _).
    split; [congruence |]. split; [congruence |].
    intros l'. destruct (decide (l' = l)) as [-> | Hl'].
    - destruct (HL l) as (? & ? & ?). unfold tokens_at in *. repeat split; congruence.
    - unfold tokens_at. rewrite (Hne l' Hl'). apply HL. }
  split; [done |]. split; [done |]. split; [done |].
  intros l0 Hl0.
  apply (decode_loop_pres (fun g => line_at (fSyntax g) l0 = line_at fs l0)
           file fix_ (Stmt fs) (new_File fs, []) (f, errs)); [| done | done].
  intros g errs0 l verb off Hl Hg.
  destruct (add_rewritten g errs0 l verb off fix_) as (_ & _ & Hne & _).
  rewrite Hne; [done |]. intros ->. done.
Qed.

Lemma tokenless_length fs fs' x :
  (forall l, length (tokens_at fs' l) = length (tokens_at fs l)) ->
  tokenless fs' x <-> tokenless fs x.
Proof.
  intros H. destruct x as [l | b | c]; cbn; [| done | done].
  specialize (H l). destruct (tokens_at fs' l), (tokens_at fs l); cbn in H; try done; lia.
Qed.

Lemma decode_loop_panics file fix_ fs0 stmts : forall st,
  (forall l, length (tokens_at (fSyntax st.1) l) = length (tokens_at fs0 l)) ->
  decode_loop E file fix_ stmts st = None <-> exists x, x ∈ stmts /\ tokenless fs0 x.
Proof.
  induction stmts as [|x stmts IH]; intros st HS; cbn [decode_loop].
  - split; [done |]. intros (x & Hx & _). by apply elem_of_nil in Hx.
  - destruct st as [f errs].
    destruct (decode_stmt E file fix_ (f, errs) x) as [st1 |] eqn:Hx.
    + assert (~ tokenless fs0 x) as Hnx.
      { rewrite <- (tokenless_length fs0 (fSyntax f) x HS).
        intros Ht. apply (decode_stmt_panics E file fix_ f errs x) in Ht. rewrite Ht in Hx. done. }
      rewrite IH.
      * split.
        -- intros (y & Hy & Ht). exists y. split; [by right | done].
        -- intros (y & Hy & Ht). apply elem_of_cons in Hy as [-> | Hy]; [done | eauto].
      * apply (decode_stmt_pres
                 (fun g => forall l, length (tokens_at (fSyntax g) l) = length (tokens_at fs0 l))
                 file fix_ x (f, errs) st1); [| done | done].
        intros g errs0 l verb off _ Hg l'.
        destruct (add_rewritten g errs0 l verb off fix_) as (_ & _ & Hne & _ & _ & Hlen & _).
        destruct (decide (l' = l)) as [-> | Hl']; [by rewrite Hlen |].
        unfold tokens_at. rewrite (Hne l' Hl'). apply Hg.
    + split; [| done]. intros _. exists x. split; [by left |].
      apply (tokenless_length fs0 (fSyntax f) x HS).
      exact (proj1 (decode_stmt_panics E file fix_ f errs x) Hx).
Qed.

(** X6.  The loop of [Parse] panics exactly on a tree that holds a
    statement without tokens: a bare line with no token or a block with no
    header token.  On every other tree it runs to the end, whatever the
    statements say. *)
Theorem decode_panics_iff (file : string) (fs : FileSyntax) (fix_ : option VersionFixer) :
  decode E file fs fix_ = None <-> exists x, x ∈ Stmt fs /\ tokenless fs x.
Proof. unfold decode. by apply decode_loop_panics. Qed.

Lemma parseVersion_Ok path s fix_ a v :
  parseVersion E path s fix_ = (a, Ok v) -> canonical_version E v /\ a = v.
Proof.
  unfold parseVersion. destruct (parseString E s) as [s1 [t | e]]; [| done].
  destruct (match fix_ with Some fx => fx path t | None => Ok t end) as [t' | e]; [| done].
  destruct (semver_IsValid E t') eqn:Hv; [| done].
  intros [= <- <-]. split; [by exists t' | done].
Qed.

Lemma decode_left_Ok args fix_ args' m :
  decode_left E args fix_ = (args', inr m) -> dependency_ok E m.
Proof.
  unfold decode_left. destruct (parseString E (arg args 0)) as [a0 [s | e]]; [| done].
  destruct (parseVersion E s _ fix_) as [a1 [v | e]] eqn:Hpv; [| done].
  destruct (moduleMajorVersion E s) as [v1 | e] eqn:Hm; [| done].
  destruct (major_mismatch v1 (semver_Major E v)) eqn:Hmm; [done |].
  intros [= _ <-]. apply parseVersion_Ok in Hpv as [Hc _].
  split; [done |]. exists v1. done.
Qed.

Lemma decode_replace_Ok verb args fix_ args' old new :
  decode_replace E verb args fix_ = (args', inr (old, new)) ->
  dependency_ok E old /\ replacement_ok E new.
Proof.
  intros Hd. split.
  - revert Hd. unfold decode_replace. destruct (_ || _ || _); [done |].
    destruct (decode_left E args fix_) as [args1 [m | old1]] eqn:Hleft; [done |].
    apply decode_left_Ok in Hleft. intros Hd.
    assert (old = old1) as -> by (repeat case_match; congruence). done.
  - destruct (decode_replace_accepts E verb args fix_ args' old new Hd)
      as (Hlen & _ & H4 & H5).
    destruct Hlen as [Hlen | Hlen].
    + left. by apply H4.
    + right. destruct (H5 Hlen) as [Hdir Hpv]. split; [done |].
      destruct (parseVersion E (Path new) (arg args 4) fix_) as [a v] eqn:Hp.
      cbn in Hpv. subst v. by apply parseVersion_Ok in Hp as [Hc _].
Qed.

Lemma add_records_ok f errs l verb off fix_ :
  records_ok E f -> records_ok E (add E f errs l verb off fix_).1.
Proof.
  intros Hok. pose proof Hok as (HM & HR & HX & HP). unfold add.
  destruct (String.eqb verb "module").
  { destruct (fModule f) as [m |] eqn:Hmod; [exact Hok |].
    destruct (decode_module E _) as [args' [m | s]]; cbn [fst];
      (split; [by intros m0 [= <-] | done]). }
  destruct (String.eqb verb "require" || String.eqb verb "exclude").
  { destruct (decode_require E verb _ fix_) as [args' [m | v]] eqn:Hd; cbn [fst];
      [exact Hok |].
    assert (dependency_ok E v) as Hv.
    { unfold decode_require in Hd. destruct (negb _); [done |]. by eapply decode_left_Ok. }
    destruct (String.eqb verb "require"); cbn [fst].
    - split; [done |]. split; [| done]. apply Forall_app. split; [done |]. by constructor.
    - split; [done |]. split; [done |]. split; [| done].
      apply Forall_app. split; [done |]. by constructor. }
  destruct (String.eqb verb "replace"); [| exact Hok].
  destruct (decode_replace E verb _ fix_) as [args' [m | [old new]]] eqn:Hd; cbn [fst];
    [exact Hok |].
  apply decode_replace_Ok in Hd.
  split; [done |]. split; [done |]. split; [done |].
  apply Forall_app. split; [done |]. by constructor.
Qed.

(** X7.  Every record of the file that the loop of [Parse] builds passed
    the checks of [add]: the version of a Require or Exclude record and the
    old version of a Replace record are in canonical form and their major
    fits the path; the target of a Replace record is a directory path
    without a version or a module path with a canonical version; the Module
    record carries no version. *)
Theorem decode_records_ok (file : string) (fs : FileSyntax) (fix_ : option VersionFixer)
    (f : File) (errs : list Diag) :
  decode E file fs fix_ = Some (f, errs) -> records_ok E f.
Proof.
  intros Hd.
  apply (decode_loop_pres (records_ok E) file fix_ (Stmt fs) (new_File fs, []) (f, errs));
    [| | exact Hd].
  - intros g errs0 l verb off _. apply add_records_ok.
  - split; [done |]. repeat split; constructor.
Qed.


Lemma all_handles_add f errs l verb off fix_ :
  let f' := (add E f errs l verb off fix_).1 in
  (all_handles f' = all_handles f /\ fRequire f' = fRequire f /\
   fExclude f' = fExclude f /\ fReplace f' = fReplace f) \/
  (all_handles f' ≡ₚ Some l :: all_handles f /\
   ((fRequire f' = fRequire f /\ fExclude f' = fExclude f /\ fReplace f' = fReplace f) \/
    ((exists v, fRequire f' = fRequire f ++ [mkRequire v (Some l)]) /\
     fExclude f' = fExclude f /\ fReplace f' = fReplace f) \/
    (fRequire f' = fRequire f /\
     (exists v, fExclude f' = fExclude f ++ [mkExclude v (Some l)]) /\
     fReplace f' = fReplace f) \/
    (fRequire f' = fRequire f /\ fExclude f' = fExclude f /\
     exists old new, fReplace f' = fReplace f ++ [mkReplace old new (Some l)]))).
Proof.
  cbn zeta.
  destruct (add_dichotomy E f errs l verb off fix_) as [[_ Hc] | [_ Hn]].
  - right. unfold all_handles.
    destruct Hc as [(_ & Hm & (s & ->) & -> & -> & ->) |
                    [(_ & -> & (v & ->) & -> & ->) |
                     [(_ & -> & -> & (v & ->) & ->) | (_ & -> & -> & -> & old & new & ->)]]].
    + rewrite Hm. split; [done |]. left. done.
    + split; [| right; left; eauto]. rewrite map_app. cbn [map].
      rewrite <- !app_assoc. cbn [app].
      symmetry. rewrite Permutation_middle. apply Permutation_app_head.
      by rewrite <- Permutation_middle.
    + split; [| right; right; left; eauto]. rewrite map_app. cbn [map].
      rewrite <- !app_assoc. cbn [app].
      symmetry. rewrite Permutation_middle. apply Permutation_app_head.
      rewrite Permutation_middle. apply Permutation_app_head.
      by rewrite <- Permutation_middle.
    + split; [| right; right; right; eauto]. rewrite map_app. cbn [map].
      rewrite !app_assoc. by rewrite <- Permutation_cons_append.
  - destruct Hn as (HR & HX & HP & [HM | (_ & HM & HM')]).
    + left. unfold all_handles. by rewrite HR, HX, HP, HM.
    + right. unfold all_handles. rewrite HR, HX, HP, HM, HM'. split; [done |]. left. done.
Qed.

Lemma handles_in_add done f errs l verb off fix_ :
  handles_in done (f, errs) -> l ∉ done ->
  handles_in (done ++ [l]) (add E f errs l verb off fix_).
Proof.
  intros (Hnd & Hin & HR & HX & HP) Hl. unfold handles_in. cbn [fst] in *.
  rewrite fmap_app. cbn [fmap list_fmap].
  assert (forall (hs : list (option loc)), hs `sublist_of` (Some <$> done) ->
            hs `sublist_of` (Some <$> done) ++ [Some l]) as Hweak
    by (intros hs H; by apply sublist_inserts_r).
  assert (forall (hs : list (option loc)), hs `sublist_of` (Some <$> done) ->
            hs ++ [Some l] `sublist_of` (Some <$> done) ++ [Some l]) as Hsnoc
    by (intros hs H; by apply sublist_app).
  assert (forall h, h ∈ all_handles f -> exists l0, h = Some l0 /\ l0 ∈ done ++ [l]) as Hin'.
  { intros h Hh. destruct (Hin h Hh) as (l0 & -> & Hl0). exists l0. split; [done |].
    apply elem_of_app. by left. }
  destruct (all_handles_add f errs l verb off fix_) as [(-> & -> & -> & ->) | [Hperm Hcases]].
  { repeat split; auto. }
  split.
  { rewrite Hperm. apply NoDup_cons. split; [| done].
    intros Hh. destruct (Hin _ Hh) as (l0 & [= <-] & Hl0). done. }
  split.
  { intros h Hh. rewrite Hperm in Hh. apply elem_of_cons in Hh as [-> | Hh]; [| auto].
    exists l. split; [done |]. apply elem_of_app. right. by left. }
  destruct Hcases as [(-> & -> & ->) |
                      [((v & ->) & -> & ->) |
                       [(-> & (v & ->) & ->) | (-> & -> & old & new & ->)]]];
    rewrite ?map_app; cbn [map rSyntax xSyntax pSyntax]; repeat split; auto.
Qed.

(** X8.  In the file that the loop of [Parse] builds from a tree in which
    no line stands twice, every record holds a line of the tree, no two
    records hold the same line, and the records of each list hold their
    lines in the order of the tree.  Such a file has the distinct handles
    that [AddRequire] and [removeDups] rely on. *)
Theorem decode_handles (file : string) (fs : FileSyntax) (fix_ : option VersionFixer)
    (f : File) (errs : list Diag) :
  NoDup (tree_lines (Stmt fs)) ->
  decode E file fs fix_ = Some (f, errs) ->
  NoDup (all_handles f) /\
  (forall h, h ∈ all_handles f -> exists l, h = Some l /\ l ∈ tree_lines (Stmt fs)) /\
  map rSyntax (fRequire f) `sublist_of` (Some <$> tree_lines (Stmt fs)) /\
  map xSyntax (fExclude f) `sublist_of` (Some <$> tree_lines (Stmt fs)) /\
  map pSyntax (fReplace f) `sublist_of` (Some <$> tree_lines (Stmt fs)) /\
  handles_distinct f /\
  (forall path, require_handles_ok f path).
Proof.
  intros Hnd Hd.
  assert (handles_in ([] ++ tree_lines (Stmt fs)) (f, errs)) as (H1 & H2 & H3 & H4 & H5).
  { apply (decode_loop_inv handles_in fix_) with (file := file) (st := (new_File fs, []));
      [| | | done | | done].
    - intros done ls st (Ha & Hb & Hc & Hd' & He). unfold handles_in.
      rewrite fmap_app. split; [done |]. split.
      + intros h Hh. destruct (Hb h Hh) as (l & -> & Hl). exists l. split; [done |].
        apply elem_of_app. by left.
      + split; [| split]; by apply sublist_inserts_r.
    - intros done g errs0 d H. exact H.
    - intros done g errs0 l verb off. apply handles_in_add.
    - unfold handles_in. cbn. split; [constructor |]. split.
      + intros h Hh. by apply elem_of_nil in Hh.
      + repeat split; constructor. }
  cbn [app fst] in *.
  split; [done |]. split; [done |]. split; [done |]. split; [done |]. split; [done |].
  unfold all_handles in H1. apply NoDup_app in H1 as (_ & _ & H1).
  assert (forall {A} (g : A -> option loc) (rs : list A),
            (forall r, r ∈ rs -> exists l, g r = Some l) ->
            map g rs = Some <$> omap g rs) as Homap.
  { intros A g rs. induction rs as [|r rs IH]; intros Hs; [done |]. cbn.
    destruct (Hs r) as [l Hl]; [by left |]. rewrite Hl. cbn. f_equal.
    apply IH. intros r' Hr'. apply Hs. by right. }
  assert (forall r, r ∈ fRequire f -> exists l, rSyntax r = Some l) as HsR.
  { intros r Hr. destruct (H2 (rSyntax r)) as (l & Hl & _); [| eauto].
    unfold all_handles. apply elem_of_app. right. apply elem_of_app. left.
    apply list_elem_of_fmap. eauto. }
  assert (forall r, r ∈ fExclude f -> exists l, xSyntax r = Some l) as HsX.
  { intros r Hr. destruct (H2 (xSyntax r)) as (l & Hl & _); [| eauto].
    unfold all_handles. apply elem_of_app. right. apply elem_of_app. right.
    apply elem_of_app. left. apply list_elem_of_fmap. eauto. }
  assert (forall r, r ∈ fReplace f -> exists l, pSyntax r = Some l) as HsP.
  { intros r Hr. destruct (H2 (pSyntax r)) as (l & Hl & _); [| eauto].
    unfold all_handles. apply elem_of_app. right. apply elem_of_app. right.
    apply elem_of_app. right. apply list_elem_of_fmap. eauto. }
  split.
  - unfold handles_distinct. apply NoDup_app in H1 as (_ & _ & H1).
    rewrite (Homap _ xSyntax _ HsX), (Homap _ pSyntax _ HsP), <- fmap_app in H1.
    by apply NoDup_fmap in H1; [| intros ? ? [=]].
  - intros path. unfold require_handles_ok, requires_of. split.
    + intros r Hr. apply list_elem_of_filter in Hr as [_ Hr].
      destruct (HsR r Hr) as [l ->]. by eexists.
    + apply NoDup_app in H1 as (H1 & _ & _).
      eapply sublist_NoDup; [exact H1 |].
      apply (fmap_sublist rSyntax), sublist_filter.
Qed.

End DecodeInvariants.

Lemma sample_tree_decoded :
  decode GoEnv.env "go.mod" sample_tree None = Some (decoded sample_tree, []).
Proof. by vm_compute. Qed.

Lemma sample_tree_NoDup : NoDup (tree_lines (Stmt sample_tree)).
Proof. apply (bool_decide_unpack _). by vm_compute. Qed.

(** The theorem on the sample tree. *)
Lemma decode_keeps_tree_witness :
  decode GoEnv.env "go.mod" sample_tree None = Some (decoded sample_tree, []) /\
  Stmt (fSyntax (decoded sample_tree)) = Stmt sample_tree.
Proof.
  split; [exact sample_tree_decoded |].
  apply (decode_keeps_tree GoEnv.env "go.mod" sample_tree None (decoded sample_tree) []
           sample_tree_decoded).
Defined.

Lemma decode_records_ok_witness :
  decode GoEnv.env "go.mod" sample_tree None = Some (decoded sample_tree, []) /\
  records_ok GoEnv.env (decoded sample_tree).
Proof.
  split; [exact sample_tree_decoded |].
  apply (decode_records_ok GoEnv.env "go.mod" sample_tree None (decoded sample_tree) []
           sample_tree_decoded).
Defined.

Lemma decode_handles_witness :
  NoDup (tree_lines (Stmt sample_tree)) /\
  decode GoEnv.env "go.mod" sample_tree None = Some (decoded sample_tree, []) /\
  handles_distinct (decoded sample_tree) /\
  all_handles (decoded sample_tree) = [Some 0; Some 1; Some 2; Some 3; Some 4].
Proof.
  split; [exact sample_tree_NoDup |]. split; [exact sample_tree_decoded |].
  split; [| by vm_compute].
  apply (decode_handles GoEnv.env "go.mod" sample_tree None (decoded sample_tree) []
           sample_tree_NoDup sample_tree_decoded).
Defined.

(** ** The edit engine: DropRequire, DropExclude, DropReplace and Cleanup *)

Lemma drop_loop_spec {A : Type} (hit : A -> bool) (syn : A -> option loc) (zero : A)
    (rs : list A) : forall fs,
  (drop_loop hit syn zero rs fs = None <->
   exists r, r ∈ rs /\ hit r = true /\ syn r = None) /\
  (forall out fs', drop_loop hit syn zero rs fs = Some (out, fs') ->
     out = map (fun r => if hit r then zero else r) rs /\
     lines_emptied fs fs' (hit_lines hit syn rs)).
Proof.
  induction rs as [|r rs IH]; intros fs; cbn [drop_loop].
  - split.
    + split; [done |]. intros (r & Hr & _). by apply elem_of_nil in Hr.
    + intros out fs' [= <- <-]. split; [done |]. split; [apply same_but_refl |].
      intros l Hl. by apply elem_of_nil in Hl.
  - unfold hit_lines. rewrite filter_cons. destruct (hit r) eqn:Hh.
    + rewrite decide_True by done. cbn [omap list_omap].
      destruct (syn r) as [l |] eqn:Hs; cbn [removeLine].
      2:{ split; [| done]. split; [| done]. intros _. exists r. split; [by left | done]. }
      destruct (IH (store_Token fs l [])) as [IHn IHs].
      destruct (drop_loop hit syn zero rs (store_Token fs l [])) as [[out fs''] |] eqn:Hd.
      * split.
        -- split; [done |]. intros (r' & Hr' & Hh' & Hs').
           apply elem_of_cons in Hr' as [-> | Hr']; [congruence |].
           assert (@None (list A * FileSyntax) = None) as Hn by done.
           exfalso. destruct IHn as [_ IHn]. discriminate IHn. eauto.
        -- intros out' fs' [= <- <-]. destruct (IHs out fs'' eq_refl) as (-> & Hsame & Hemp).
           split; [cbn [map]; by rewrite Hh |]. split.
           ++ change (l :: omap syn (filter (fun r0 => hit r0 = true) rs))
                with ([l] ++ hit_lines hit syn rs).
              eapply same_but_trans; [apply same_but_store | exact Hsame].
           ++ intros l' Hl'. destruct (decide (l' ∈ hit_lines hit syn rs)) as [Hin | Hnin].
              ** by apply Hemp.
              ** apply elem_of_cons in Hl' as [-> | Hl']; [| done].
                 destruct Hsame as (_ & _ & Hframe & _). unfold tokens_at.
                 rewrite (Hframe l Hnin). apply tokens_at_store_eq.
      * split; [| done]. split; [| done]. intros _.
        destruct IHn as [IHn _]. destruct (IHn eq_refl) as (r' & Hr' & Hh' & Hs').
        exists r'. split; [by right | done].
    + rewrite decide_False by done.
      destruct (IH fs) as [IHn IHs].
      destruct (drop_loop hit syn zero rs fs) as [[out fs''] |] eqn:Hd.
      * split.
        -- split; [done |]. intros (r' & Hr' & Hh' & Hs').
           apply elem_of_cons in Hr' as [-> | Hr']; [congruence |].
           exfalso. destruct IHn as [_ IHn]. discriminate IHn. eauto.
        -- intros out' fs' [= <- <-]. destruct (IHs out fs'' eq_refl) as (-> & Hsame).
           split; [cbn [map]; by rewrite Hh | done].
      * split; [| done]. split; [| done]. intros _.
        destruct IHn as [IHn _]. destruct (IHn eq_refl) as (r' & Hr' & Hh' & Hs').
        exists r'. split; [by right | done].
Qed.

Lemma DropRequire_loop_drop path rs : forall fs,
  DropRequire_loop path rs fs
  = drop_loop (fun r => String.eqb (Path (rMod r)) path) rSyntax Require0 rs fs.
Proof.
  induction rs as [|r rs IH]; intros fs; cbn; [done |].
  destruct (String.eqb _ path); [destruct (removeLine fs (rSyntax r)); [| done] |];
    by rewrite IH.
Qed.

Lemma DropExclude_loop_drop path vers xs : forall fs,
  DropExclude_loop path vers xs fs
  = drop_loop (fun x => String.eqb (Path (xMod x)) path && String.eqb (Vers (xMod x)) vers)
      xSyntax Exclude0 xs fs.
Proof.
  induction xs as [|x xs IH]; intros fs; cbn; [done |].
  destruct (_ && _); [destruct (removeLine fs (xSyntax x)); [| done] |]; by rewrite IH.
Qed.

Lemma DropReplace_loop_drop oldPath oldVers rs : forall fs,
  DropReplace_loop oldPath oldVers rs fs
  = drop_loop (fun r => String.eqb (Path (Old r)) oldPath && String.eqb (Vers (Old r)) oldVers)
      pSyntax Replace0 rs fs.
Proof.
  induction rs as [|r rs IH]; intros fs; cbn; [done |].
  destruct (_ && _); [destruct (removeLine fs (pSyntax r)); [| done] |]; by rewrite IH.
Qed.

Lemma version_eqb (v : Version) path vers :
  String.eqb (Path v) path && String.eqb (Vers v) vers = true <-> v = mkVersion path vers.
Proof.
  destruct v as [p q]. cbn. rewrite andb_true_iff, !String.eqb_eq.
  split; [by intros [-> ->] | by intros [= -> ->]].
Qed.

Lemma filter_none {A} (P : A -> Prop) `{!forall x, Decision (P x)} (l : list A) :
  (forall x, x ∈ l -> ~ P x) -> filter P l = [].
Proof.
  induction l as [|x l IH]; intros Hno; [done |].
  rewrite filter_cons_False by (apply Hno; by left). apply IH.
  intros y Hy. apply Hno. by right.
Qed.

Lemma drop_loop_none {A : Type} (hit : A -> bool) (syn : A -> option loc) (zero : A)
    (rs : list A) fs :
  (forall r, r ∈ rs -> hit r = false) -> drop_loop hit syn zero rs fs = Some (rs, fs).
Proof.
  induction rs as [|r rs IH]; intros Hno; cbn [drop_loop]; [done |].
  rewrite (Hno r) by (by left). rewrite IH; [done |]. intros r' Hr'. apply Hno. by right.
Qed.

Lemma path_eqb (r : RequireStmt) path :
  String.eqb (Path (rMod r)) path = true <-> Path (rMod r) = path.
Proof. apply String.eqb_eq. Qed.

Lemma pair_eqb (x : ExcludeStmt) path vers :
  String.eqb (Path (xMod x)) path && String.eqb (Vers (xMod x)) vers = true
  <-> xMod x = mkVersion path vers.
Proof. apply version_eqb. Qed.

Lemma old_eqb (r : ReplaceStmt) oldPath oldVers :
  String.eqb (Path (Old r)) oldPath && String.eqb (Vers (Old r)) oldVers = true
  <-> Old r = mkVersion oldPath oldVers.
Proof. apply version_eqb. Qed.

Lemma DropRequire_cases (f : File) (path : string) :
  (DropRequire f path = None <->
   exists r, r ∈ fRequire f /\ Path (rMod r) = path /\ rSyntax r = None) /\
  (forall f', DropRequire f path = Some f' ->
     fRequire f' = map (blank_path path) (fRequire f) /\
     length (fRequire f') = length (fRequire f) /\
     lines_emptied (fSyntax f) (fSyntax f') (omap rSyntax (requires_of f path)) /\
     Stmt (fSyntax f') = Stmt (fSyntax f) /\
     fModule f' = fModule f /\ fExclude f' = fExclude f /\ fReplace f' = fReplace f).
Proof.
  unfold DropRequire. rewrite DropRequire_loop_drop.
  set (hit := fun r : RequireStmt => String.eqb (Path (rMod r)) path).
  destruct (drop_loop_spec hit rSyntax Require0 (fRequire f) (fSyntax f)) as [Hn Hs].
  assert (forall r, hit r = true <-> Path (rMod r) = path) as Hhit by (intros r; apply path_eqb).
  assert (hit_lines hit rSyntax (fRequire f) = omap rSyntax (requires_of f path)) as Hl.
  { unfold hit_lines, requires_of. f_equal. apply list_filter_iff. exact Hhit. }
  assert (map (fun r => if hit r then Require0 else r) (fRequire f)
          = map (blank_path path) (fRequire f)) as Hm.
  { apply map_ext. intros r. unfold blank_path. specialize (Hhit r).
    destruct (hit r); case_decide as Hk; try done.
    - exfalso. apply Hk. by apply Hhit.
    - destruct Hhit as [_ Hhit]. by discriminate Hhit. }
  destruct (drop_loop hit rSyntax Require0 (fRequire f) (fSyntax f)) as [[out fs'] |] eqn:Hd.
  - split.
    + split; [done |]. intros (r & Hr & Hp & Hnil). exfalso.
      destruct Hn as [_ Hn]. discriminate Hn. exists r. split; [done |]. split; [| done].
      by apply Hhit.
    + intros f' [= <-]. destruct (Hs out fs' eq_refl) as [-> Hemp].
      rewrite Hl, Hm in *. cbn [fRequire set_fRequire set_fSyntax fSyntax].
      split; [done |]. split; [by rewrite length_map |]. split; [done |].
      split; [apply Hemp | done].
  - split; [| done]. split; [| done]. intros _.
    destruct Hn as [Hn _]. destruct (Hn eq_refl) as (r & Hr & Hh & Hnil).
    exists r. split; [done |]. split; [| done]. by apply Hhit.
Qed.

Lemma DropRequire_Some (f : File) (path : string) (f' : File) :
  DropRequire f path = Some f' ->
  fRequire f' = map (blank_path path) (fRequire f) /\
  length (fRequire f') = length (fRequire f) /\
  lines_emptied (fSyntax f) (fSyntax f') (omap rSyntax (requires_of f path)) /\
  Stmt (fSyntax f') = Stmt (fSyntax f) /\
  fModule f' = fModule f /\ fExclude f' = fExclude f /\ fReplace f' = fReplace f.
Proof. apply DropRequire_cases. Qed.

Lemma DropRequire_none (f : File) (path : string) :
  (forall r, r ∈ fRequire f -> ~ (Path (rMod r) = path)) -> DropRequire f path = Some f.
Proof.
  intros Hno. unfold DropRequire. rewrite DropRequire_loop_drop.
  rewrite drop_loop_none.
  - by destruct f.
  - intros r Hr. destruct (String.eqb (Path (rMod r)) path) eqn:Hh; [| done].
    exfalso. apply (Hno r Hr). by apply path_eqb.
Qed.

Lemma DropExclude_cases (f : File) (path vers : string) :
  (DropExclude f path vers = None <->
   exists r, r ∈ fExclude f /\ xMod r = mkVersion path vers /\ xSyntax r = None) /\
  (forall f', DropExclude f path vers = Some f' ->
     fExclude f' = map (blank_pair path vers) (fExclude f) /\
     length (fExclude f') = length (fExclude f) /\
     lines_emptied (fSyntax f) (fSyntax f') (omap xSyntax (excludes_of f path vers)) /\
     Stmt (fSyntax f') = Stmt (fSyntax f) /\
     fModule f' = fModule f /\ fRequire f' = fRequire f /\ fReplace f' = fReplace f).
Proof.
  unfold DropExclude. rewrite DropExclude_loop_drop.
  set (hit := fun r : ExcludeStmt => String.eqb (Path (xMod r)) path && String.eqb (Vers (xMod r)) vers).
  destruct (drop_loop_spec hit xSyntax Exclude0 (fExclude f) (fSyntax f)) as [Hn Hs].
  assert (forall r, hit r = true <-> xMod r = mkVersion path vers) as Hhit by (intros r; apply pair_eqb).
  assert (hit_lines hit xSyntax (fExclude f) = omap xSyntax (excludes_of f path vers)) as Hl.
  { unfold hit_lines, excludes_of. f_equal. apply list_filter_iff. exact Hhit. }
  assert (map (fun r => if hit r then Exclude0 else r) (fExclude f)
          = map (blank_pair path vers) (fExclude f)) as Hm.
  { apply map_ext. intros r. unfold blank_pair. specialize (Hhit r).
    destruct (hit r); case_decide as Hk; try done.
    - exfalso. apply Hk. by apply Hhit.
    - destruct Hhit as [_ Hhit]. by discriminate Hhit. }
  destruct (drop_loop hit xSyntax Exclude0 (fExclude f) (fSyntax f)) as [[out fs'] |] eqn:Hd.
  - split.
    + split; [done |]. intros (r & Hr & Hp & Hnil). exfalso.
      destruct Hn as [_ Hn]. discriminate Hn. exists r. split; [done |]. split; [| done].
      by apply Hhit.
    + intros f' [= <-]. destruct (Hs out fs' eq_refl) as [-> Hemp].
      rewrite Hl, Hm in *. cbn [fExclude set_fExclude set_fSyntax fSyntax].
      split; [done |]. split; [by rewrite length_map |]. split; [done |].
      split; [apply Hemp | done].
  - split; [| done]. split; [| done]. intros _.
    destruct Hn as [Hn _]. destruct (Hn eq_refl) as (r & Hr & Hh & Hnil).
    exists r. split; [done |]. split; [| done]. by apply Hhit.
Qed.

Lemma DropExclude_Some (f : File) (path vers : string) (f' : File) :
  DropExclude f path vers = Some f' ->
  fExclude f' = map (blank_pair path vers) (fExclude f) /\
  length (fExclude f') = length (fExclude f) /\
  lines_emptied (fSyntax f) (fSyntax f') (omap xSyntax (excludes_of f path vers)) /\
  Stmt (fSyntax f') = Stmt (fSyntax f) /\
  fModule f' = fModule f /\ fRequire f' = fRequire f /\ fReplace f' = fReplace f.
Proof. apply DropExclude_cases. Qed.

Lemma DropExclude_none (f : File) (path vers : string) :
  (forall r, r ∈ fExclude f -> ~ (xMod r = mkVersion path vers)) -> DropExclude f path vers = Some f.
Proof.
  intros Hno. unfold DropExclude. rewrite DropExclude_loop_drop.
  rewrite drop_loop_none.
  - by destruct f.
  - intros r Hr. destruct (String.eqb (Path (xMod r)) path && String.eqb (Vers (xMod r)) vers) eqn:Hh; [| done].
    exfalso. apply (Hno r Hr). by apply pair_eqb.
Qed.

Lemma DropReplace_cases (f : File) (oldPath oldVers : string) :
  (DropReplace f oldPath oldVers = None <->
   exists r, r ∈ fReplace f /\ Old r = mkVersion oldPath oldVers /\ pSyntax r = None) /\
  (forall f', DropReplace f oldPath oldVers = Some f' ->
     fReplace f' = map (blank_old oldPath oldVers) (fReplace f) /\
     length (fReplace f') = length (fReplace f) /\
     lines_emptied (fSyntax f) (fSyntax f') (omap pSyntax (replaces_of f (mkVersion oldPath oldVers))) /\
     Stmt (fSyntax f') = Stmt (fSyntax f) /\
     fModule f' = fModule f /\ fRequire f' = fRequire f /\ fExclude f' = fExclude f).
Proof.
  unfold DropReplace. rewrite DropReplace_loop_drop.
  set (hit := fun r : ReplaceStmt => String.eqb (Path (Old r)) oldPath && String.eqb (Vers (Old r)) oldVers).
  destruct (drop_loop_spec hit pSyntax Replace0 (fReplace f) (fSyntax f)) as [Hn Hs].
  assert (forall r, hit r = true <-> Old r = mkVersion oldPath oldVers) as Hhit by (intros r; apply old_eqb).
  assert (hit_lines hit pSyntax (fReplace f) = omap pSyntax (replaces_of f (mkVersion oldPath oldVers))) as Hl.
  { unfold hit_lines, replaces_of. f_equal. apply list_filter_iff. exact Hhit. }
  assert (map (fun r => if hit r then Replace0 else r) (fReplace f)
          = map (blank_old oldPath oldVers) (fReplace f)) as Hm.
  { apply map_ext. intros r. unfold blank_old. specialize (Hhit r).
    destruct (hit r); case_decide as Hk; try done.
    - exfalso. apply Hk. by apply Hhit.
    - destruct Hhit as [_ Hhit]. by discriminate Hhit. }
  destruct (drop_loop hit pSyntax Replace0 (fReplace f) (fSyntax f)) as [[out fs'] |] eqn:Hd.
  - split.
    + split; [done |]. intros (r & Hr & Hp & Hnil). exfalso.
      destruct Hn as [_ Hn]. discriminate Hn. exists r. split; [done |]. split; [| done].
      by apply Hhit.
    + intros f' [= <-]. destruct (Hs out fs' eq_refl) as [-> Hemp].
      rewrite Hl, Hm in *. cbn [fReplace set_fReplace set_fSyntax fSyntax].
      split; [done |]. split; [by rewrite length_map |]. split; [done |].
      split; [apply Hemp | done].
  - split; [| done]. split; [| done]. intros _.
    destruct Hn as [Hn _]. destruct (Hn eq_refl) as (r & Hr & Hh & Hnil).
    exists r. split; [done |]. split; [| done]. by apply Hhit.
Qed.

Lemma DropReplace_Some (f : File) (oldPath oldVers : string) (f' : File) :
  DropReplace f oldPath oldVers = Some f' ->
  fReplace f' = map (blank_old oldPath oldVers) (fReplace f) /\
  length (fReplace f') = length (fReplace f) /\
  lines_emptied (fSyntax f) (fSyntax f') (omap pSyntax (replaces_of f (mkVersion oldPath oldVers))) /\
  Stmt (fSyntax f') = Stmt (fSyntax f) /\
  fModule f' = fModule f /\ fRequire f' = fRequire f /\ fExclude f' = fExclude f.
Proof. apply DropReplace_cases. Qed.

Lemma DropReplace_none (f : File) (oldPath oldVers : string) :
  (forall r, r ∈ fReplace f -> ~ (Old r = mkVersion oldPath oldVers)) -> DropReplace f oldPath oldVers = Some f.
Proof.
  intros Hno. unfold DropReplace. rewrite DropReplace_loop_drop.
  rewrite drop_loop_none.
  - by destruct f.
  - intros r Hr. destruct (String.eqb (Path (Old r)) oldPath && String.eqb (Vers (Old r)) oldVers) eqn:Hh; [| done].
    exfalso. apply (Hno r Hr). by apply old_eqb.
Qed.

(** X9.  [DropRequire] panics exactly when a record with the path has no
    line (as a record has that an earlier drop blanked, when the path is
    empty).  Otherwise every record with the path is blanked to the zero
    record in its place, so the list keeps its length; the lines of those
    records lose their tokens; the statement list, every other line and the
    other records are unchanged.  For a non-empty path no record has the
    path afterwards, and a second drop changes nothing. *)
Theorem DropRequire_spec (f : File) (path : string) :
  (DropRequire f path = None <->
   exists r, r ∈ fRequire f /\ Path (rMod r) = path /\ rSyntax r = None) /\
  (forall f', DropRequire f path = Some f' ->
     fRequire f' = map (blank_path path) (fRequire f) /\
     length (fRequire f') = length (fRequire f) /\
     lines_emptied (fSyntax f) (fSyntax f') (omap rSyntax (requires_of f path)) /\
     Stmt (fSyntax f') = Stmt (fSyntax f) /\
     fModule f' = fModule f /\ fExclude f' = fExclude f /\ fReplace f' = fReplace f /\
     (path <> "" -> requires_of f' path = [] /\ DropRequire f' path = Some f')).
Proof.
  destruct (DropRequire_cases f path) as [Hn Hs]. split; [exact Hn |].
  intros f' Hd. destruct (Hs f' Hd) as (HR & H2 & H3 & H4 & H5 & H6 & H7).
  repeat (split; [done |]). intros Hne.
  assert (forall r, r ∈ fRequire f' -> Path (rMod r) <> path) as Hno.
  { rewrite HR. intros r Hr. apply list_elem_of_fmap in Hr as (y & -> & _).
    unfold blank_path. case_decide; [cbn; congruence | done]. }
  split; [| by apply DropRequire_none].
  unfold requires_of. apply filter_none. exact Hno.
Qed.

(** X10.  [DropExclude] panics exactly when a record with the pair has no
    line.  Otherwise every record with exactly that path and version is
    blanked in its place, its line loses its tokens, and nothing else
    changes: a record with the path and another version stays.  For a
    non-empty path no record has the pair afterwards, and a second drop
    changes nothing. *)
Theorem DropExclude_spec (f : File) (path vers : string) :
  (DropExclude f path vers = None <->
   exists x, x ∈ fExclude f /\ xMod x = mkVersion path vers /\ xSyntax x = None) /\
  (forall f', DropExclude f path vers = Some f' ->
     fExclude f' = map (blank_pair path vers) (fExclude f) /\
     length (fExclude f') = length (fExclude f) /\
     lines_emptied (fSyntax f) (fSyntax f') (omap xSyntax (excludes_of f path vers)) /\
     Stmt (fSyntax f') = Stmt (fSyntax f) /\
     fModule f' = fModule f /\ fRequire f' = fRequire f /\ fReplace f' = fReplace f /\
     (path <> "" -> excludes_of f' path vers = [] /\ DropExclude f' path vers = Some f')).
Proof.
  destruct (DropExclude_cases f path vers) as [Hn Hs]. split; [exact Hn |].
  intros f' Hd. destruct (Hs f' Hd) as (HX & H2 & H3 & H4 & H5 & H6 & H7).
  repeat (split; [done |]). intros Hne.
  assert (forall x, x ∈ fExclude f' -> xMod x <> mkVersion path vers) as Hno.
  { rewrite HX. intros x Hx. apply list_elem_of_fmap in Hx as (y & -> & _).
    unfold blank_pair. case_decide; [| done].
    unfold Exclude0, Version0. cbn. intros [= Hp _]. by apply Hne. }
  split; [| by apply DropExclude_none].
  unfold excludes_of. apply filter_none. exact Hno.
Qed.

(** X11.  [DropReplace] panics exactly when a record with the old pair has
    no line.  Otherwise every record whose old path and old version are the
    given ones is blanked in its place, its line loses its tokens, and
    nothing else changes.  For a non-empty old path no record has the pair
    afterwards, and a second drop changes nothing. *)
Theorem DropReplace_spec (f : File) (oldPath oldVers : string) :
  (DropReplace f oldPath oldVers = None <->
   exists r, r ∈ fReplace f /\ Old r = mkVersion oldPath oldVers /\ pSyntax r = None) /\
  (forall f', DropReplace f oldPath oldVers = Some f' ->
     fReplace f' = map (blank_old oldPath oldVers) (fReplace f) /\
     length (fReplace f') = length (fReplace f) /\
     lines_emptied (fSyntax f) (fSyntax f')
       (omap pSyntax (replaces_of f (mkVersion oldPath oldVers))) /\
     Stmt (fSyntax f') = Stmt (fSyntax f) /\
     fModule f' = fModule f /\ fRequire f' = fRequire f /\ fExclude f' = fExclude f /\
     (oldPath <> "" ->
      replaces_of f' (mkVersion oldPath oldVers) = [] /\
      DropReplace f' oldPath oldVers = Some f')).
Proof.
  destruct (DropReplace_cases f oldPath oldVers) as [Hn Hs]. split; [exact Hn |].
  intros f' Hd. destruct (Hs f' Hd) as (HP & H2 & H3 & H4 & H5 & H6 & H7).
  repeat (split; [done |]). intros Hne.
  assert (forall r, r ∈ fReplace f' -> Old r <> mkVersion oldPath oldVers) as Hno.
  { rewrite HP. intros r Hr. apply list_elem_of_fmap in Hr as (y & -> & _).
    unfold blank_old. case_decide; [| done].
    unfold Replace0, Version0. cbn. intros [= Hp _]. by apply Hne. }
  split; [| by apply DropReplace_none].
  unfold replaces_of. apply filter_none. exact Hno.
Qed.

Lemma filter_idem {A} (P : A -> Prop) `{!forall x, Decision (P x)} (l : list A) :
  filter P (filter P l) = filter P l.
Proof.
  induction l as [|x l IH]; [done |]. rewrite filter_cons.
  case_decide; [| done]. rewrite filter_cons_True by done. by rewrite IH.
Qed.

Lemma tree_lines_Cleanup fs stmts :
  tree_lines (omap (Cleanup_stmt fs) stmts)
  = filter (fun l : loc => stale fs l = false) (tree_lines stmts).
Proof.
  unfold tree_lines. induction stmts as [|x stmts IH]; [done |].
  cbn [omap list_omap map concat]. rewrite filter_app, <- IH. clear IH.
  destruct x as [l | b | c]; cbn [Cleanup_stmt stmt_lines].
  - destruct (stale fs l) eqn:Hs.
    + by rewrite filter_cons_False by (by rewrite Hs).
    + by rewrite filter_cons_True by done.
  - by destruct (filter _ (BLine b)).
  - done.
Qed.

Lemma Cleanup_stmt_kept fs (stmts : list Expr) y :
  y ∈ omap (Cleanup_stmt fs) stmts -> Cleanup_stmt fs y = Some y.
Proof.
  intros Hy. apply list_elem_of_omap in Hy as (x & _ & Hx).
  destruct x as [l | b | c]; cbn in Hx.
  - destruct (stale fs l) eqn:Hs; [done |]. injection Hx as <-. cbn. by rewrite Hs.
  - destruct (filter _ (BLine b)) as [|l ls] eqn:Hf; [done |]. injection Hx as <-.
    assert (filter (fun l0 : loc => stale fs l0 = false) (l :: ls) = l :: ls) as Hid
      by (rewrite <- Hf; apply filter_idem).
    cbn [Cleanup_stmt BLine BToken BStart]. by rewrite Hid.
  - by injection Hx as <-.
Qed.

Lemma omap_Some_id {A} (g : A -> option A) (l : list A) :
  (forall x, x ∈ l -> g x = Some x) -> omap g l = l.
Proof.
  induction l as [|x l IH]; intros H; [done |]. cbn.
  rewrite (H x) by (by left). f_equal. apply IH. intros y Hy. apply H. by right.
Qed.

(** X12.  [Cleanup] is idempotent: a second call finds no blanked record
    and no stale statement, and changes nothing. *)
Theorem Cleanup_idempotent (f : File) : Cleanup (Cleanup f) = Cleanup f.
Proof.
  unfold Cleanup. cbn [fRequire fExclude fReplace fModule fSyntax].
  f_equal; try apply filter_idem.
  unfold FileSyntax_Cleanup, set_Stmt. cbn [Stmt Name Lines]. f_equal.
  apply omap_Some_id. intros y Hy.
  exact (Cleanup_stmt_kept (fSyntax f) (Stmt (fSyntax f)) y Hy).
Qed.

Lemma filter_blank_path path (rs : list RequireStmt) :
  filter (fun r : RequireStmt => Path (rMod r) <> "") (map (blank_path path) rs)
  = filter (fun r : RequireStmt => Path (rMod r) <> "" /\ Path (rMod r) <> path) rs.
Proof.
  induction rs as [|r rs IH]; [done |]. cbn [map]. rewrite !filter_cons, IH.
  destruct (decide (Path (rMod r) = path)) as [Hp | Hp].
  - assert (blank_path path r = Require0) as -> by (unfold blank_path; by case_decide).
    rewrite decide_False by (cbn; tauto). by rewrite decide_False by tauto.
  - assert (blank_path path r = r) as -> by (unfold blank_path; by case_decide).
    destruct (decide (Path (rMod r) <> "")) as [Hb | Hb].
    + by rewrite decide_True by tauto.
    + by rewrite decide_False by tauto.
Qed.

(** X13.  Drop, then clean up.  After [DropRequire] of a path and
    [Cleanup], the Require records are those of the file that have
    another path and are not blank, in their order: no record has the path
    and no record is blank; the lines of the records dropped are no longer
    in the tree, every line in the tree has tokens, and no block is
    empty. *)
Theorem DropRequire_Cleanup (f f' : File) (path : string) :
  DropRequire f path = Some f' ->
  let g := Cleanup f' in
  fRequire g
  = filter (fun r : RequireStmt => Path (rMod r) <> "" /\ Path (rMod r) <> path) (fRequire f) /\
  (forall r, r ∈ fRequire g -> Path (rMod r) <> path /\ Path (rMod r) <> "") /\
  (forall r h, r ∈ fRequire f -> Path (rMod r) = path -> rSyntax r = Some h ->
               h ∉ tree_lines (Stmt (fSyntax g))) /\
  (forall l, l ∈ tree_lines (Stmt (fSyntax g)) ->
             l ∈ tree_lines (Stmt (fSyntax f)) /\ tokens_at (fSyntax g) l <> []) /\
  (forall b, ELineBlock b ∈ Stmt (fSyntax g) -> BLine b <> []).
Proof.
  intros Hd g.
  destruct (DropRequire_Some f path f' Hd) as (HR & _ & [Hsame Hemp] & HS & _).
  assert (fRequire g
          = filter (fun r : RequireStmt => Path (rMod r) <> "" /\ Path (rMod r) <> path)
              (fRequire f)) as Hg.
  { unfold g, Cleanup. cbn [fRequire]. rewrite HR. apply filter_blank_path. }
  assert (tree_lines (Stmt (fSyntax g))
          = filter (fun l : loc => stale (fSyntax f') l = false)
              (tree_lines (Stmt (fSyntax f)))) as Ht.
  { unfold g, Cleanup, FileSyntax_Cleanup. cbn [fSyntax set_Stmt Stmt].
    by rewrite tree_lines_Cleanup, HS. }
  split; [exact Hg |]. split.
  { intros r Hr. rewrite Hg in Hr. apply list_elem_of_filter in Hr. tauto. }
  split.
  { intros r h Hr Hp Hh Hin. rewrite Ht in Hin. apply list_elem_of_filter in Hin as [Hst _].
    unfold stale in Hst. rewrite Hemp in Hst; [done |].
    apply list_elem_of_omap. exists r. split; [| done].
    apply list_elem_of_filter. done. }
  split.
  { intros l Hl. rewrite Ht in Hl. apply list_elem_of_filter in Hl as [Hst Hl].
    split; [done |]. unfold stale in Hst.
    change (tokens_at (fSyntax g) l) with (tokens_at (fSyntax f') l).
    by destruct (tokens_at (fSyntax f') l). }
  intros b Hb. unfold g, Cleanup, FileSyntax_Cleanup in Hb. cbn [fSyntax set_Stmt Stmt] in Hb.
  apply list_elem_of_omap in Hb as (x & _ & Hx).
  destruct x as [l | b0 | c]; cbn in Hx.
  - by destruct (stale _ l).
  - destruct (filter _ (BLine b0)) as [|l ls]; [done |]. by injection Hx as <-.
  - done.
Qed.
(** ** The edit engine: AddReplace *)

Section ReplaceProperties.
Variable E : Externals.

Lemma blank_old_eq oldPath oldVers r :
  Old r = mkVersion oldPath oldVers -> blank_old oldPath oldVers r = Replace0.
Proof. intros H. unfold blank_old. by case_decide. Qed.

Lemma blank_old_ne oldPath oldVers r :
  Old r <> mkVersion oldPath oldVers -> blank_old oldPath oldVers r = r.
Proof. intros H. unfold blank_old. by case_decide. Qed.

(** The loop of [AddReplace] once the first record for the old pair was
    updated: every further record for the pair is blanked and loses the
    tokens of its line. *)
Lemma AddReplace_loop_rest oldPath oldVers new tokens rs : forall hint fs,
  let old := mkVersion oldPath oldVers in
  (forall r, r ∈ rs -> Old r = old -> is_Some (pSyntax r)) ->
  exists fs' hint',
    AddReplace_loop old new tokens rs false hint fs
    = Some (map (blank_old oldPath oldVers) rs, fs', false, hint') /\
    Stmt fs' = Stmt fs /\ Name fs' = Name fs /\
    (forall r h, r ∈ rs -> Old r = old -> pSyntax r = Some h -> tokens_at fs' h = []) /\
    (forall l, (forall r, r ∈ rs -> Old r = old -> pSyntax r <> Some l) ->
               line_at fs' l = line_at fs l).
Proof.
  cbn zeta. induction rs as [|r rs IH]; intros hint fs Hh; cbn [AddReplace_loop map].
  - exists fs, hint. repeat split; auto. intros r h Hr. by apply elem_of_nil in Hr.
  - assert (forall r0, r0 ∈ rs -> Old r0 = mkVersion oldPath oldVers -> is_Some (pSyntax r0))
      as Hh' by (intros r0 Hr0; apply Hh; by right).
    case_bool_decide as Hp.
    + destruct (Hh r) as [h Hr]; [by left | done |]. rewrite Hr. cbn [removeLine].
      destruct (IH (if String.eqb "" (Path (mkVersion oldPath oldVers)) then None else hint)
                  (store_Token fs h []) Hh')
        as (fs' & hint' & -> & HS & HN & Hrem & Hkeep).
      exists fs', hint'. rewrite blank_old_eq by done. repeat split; auto.
      * intros r0 h0 Hr0 Hp0 Hs0. apply elem_of_cons in Hr0 as [-> | Hr0]; [| eauto].
        assert (h0 = h) as -> by congruence.
        destruct (decide (Exists (fun r1 => Old r1 = mkVersion oldPath oldVers /\
                                            pSyntax r1 = Some h) rs)) as [Hsame | Hnone].
        { apply Exists_exists in Hsame as (r1 & H1 & H2 & H3). eauto. }
        unfold tokens_at. rewrite Hkeep.
        -- apply tokens_at_store_eq.
        -- intros r1 H1 H2 H3. apply Hnone. apply Exists_exists. eauto.
      * intros l Hl. rewrite Hkeep.
        -- apply line_at_store_ne. intros ->. apply (Hl r); [by left | done | done].
        -- intros r1 H1. apply Hl. by right.
    + destruct (IH (if String.eqb (Path (Old r)) (Path (mkVersion oldPath oldVers))
                    then pSyntax r else hint) fs Hh')
        as (fs' & hint' & -> & HS & HN & Hrem & Hkeep).
      exists fs', hint'. rewrite blank_old_ne by done. repeat split; auto.
      * intros r0 h0 Hr0 Hp0 Hs0. apply elem_of_cons in Hr0 as [-> | Hr0]; [done | eauto].
      * intros l Hl. apply Hkeep. intros r1 H1. apply Hl. by right.
Qed.

Lemma AddReplace_loop_none old new tokens rs : forall need hint fs,
  (forall r, r ∈ rs -> Old r <> old) ->
  exists hint', AddReplace_loop old new tokens rs need hint fs = Some (rs, fs, need, hint').
Proof.
  induction rs as [|r rs IH]; intros need hint fs Hno; cbn [AddReplace_loop]; [by eexists |].
  rewrite bool_decide_eq_false_2 by (apply Hno; by left).
  destruct (IH need (if String.eqb (Path (Old r)) (Path old) then pSyntax r else hint) fs)
    as [hint' ->]; [intros r0 Hr0; apply Hno; by right |].
  by eexists.
Qed.

Lemma AddReplace_loop_first oldPath oldVers new tokens pre r post fs h : forall hint,
  let old := mkVersion oldPath oldVers in
  (forall y, y ∈ pre -> Old y <> old) ->
  Old r = old -> pSyntax r = Some h ->
  (forall y, y ∈ post -> Old y = old -> is_Some (pSyntax y)) ->
  (forall y, y ∈ post -> Old y = old -> pSyntax y <> Some h) ->
  exists fs' hint',
    AddReplace_loop old new tokens (pre ++ r :: post) true hint fs
    = Some (pre ++ mkReplace old new (Some h) :: map (blank_old oldPath oldVers) post,
            fs', false, hint') /\
    Stmt fs' = Stmt fs /\ Name fs' = Name fs /\
    tokens_at fs' h = tokens_in fs h tokens /\
    (forall y h', y ∈ post -> Old y = old -> pSyntax y = Some h' -> tokens_at fs' h' = []) /\
    (forall l, l <> h ->
               (forall y, y ∈ post -> Old y = old -> pSyntax y <> Some l) ->
               line_at fs' l = line_at fs l).
Proof.
  cbn zeta. intros hint Hpre Hp Hh Hsome Hdist. revert hint.
  induction pre as [|p pre IH]; intros hint; cbn [app AddReplace_loop].
  - rewrite bool_decide_eq_true_2 by done. rewrite Hh. cbn [updateLine].
    set (fs1 := store_Token fs h _).
    destruct (AddReplace_loop_rest oldPath oldVers new tokens post hint fs1 Hsome)
      as (fs' & hint' & -> & HS & HN & Hrem & Hkeep).
    exists fs', hint'. rewrite Hp. repeat split; auto.
    + unfold tokens_at. rewrite Hkeep by done. apply tokens_at_store_eq.
    + intros l Hl Hl'. rewrite Hkeep by done. by apply line_at_store_ne.
  - rewrite bool_decide_eq_false_2 by (apply Hpre; by left).
    destruct (IH (fun y Hy => Hpre y (proj2 (elem_of_cons _ _ _) (or_intror Hy)))
                (if String.eqb (Path (Old p)) (Path (mkVersion oldPath oldVers))
                 then pSyntax p else hint))
      as (fs' & hint' & -> & Hrest).
    exists fs', hint'. done.
Qed.

Lemma filter_app_cons {A} (P : A -> Prop) `{!forall x, Decision (P x)} pre (r : A) post :
  filter P (pre ++ r :: post) = filter P pre ++ filter P [r] ++ filter P post.
Proof. by rewrite filter_app, (filter_app _ [r] post). Qed.

Lemma filter_old_none (rs : list ReplaceStmt) old :
  (forall y, y ∈ rs -> Old y <> old) ->
  filter (fun r : ReplaceStmt => Old r = old) rs = [].
Proof.
  intros H. induction rs as [|r rs IH]; [done |].
  rewrite filter_cons_False by (apply H; by left).
  apply IH. intros y Hy. apply H. by right.
Qed.

Lemma filter_old_blank (rs : list ReplaceStmt) oldPath oldVers :
  mkVersion oldPath oldVers <> Version0 ->
  filter (fun r : ReplaceStmt => Old r = mkVersion oldPath oldVers)
    (map (blank_old oldPath oldVers) rs) = [].
Proof.
  intros Hne. apply filter_old_none. intros y Hy.
  apply list_elem_of_fmap in Hy as (r & -> & _). unfold blank_old.
  case_decide; [cbn; congruence | done].
Qed.

Lemma first_split {A} (P : A -> Prop) `{!forall x, Decision (P x)} (l : list A) :
  (exists x, x ∈ l /\ P x) ->
  exists pre x post, l = pre ++ x :: post /\ (forall y, y ∈ pre -> ~ P y) /\ P x.
Proof.
  induction l as [|a l IH]; intros (x & Hx & HP).
  - by apply elem_of_nil in Hx.
  - destruct (decide (P a)) as [Ha | Ha].
    + exists [], a, l. split; [done |]. split; [| done]. intros y Hy. by apply elem_of_nil in Hy.
    + destruct IH as (pre & x' & post & -> & Hpre & HP').
      { apply elem_of_cons in Hx as [-> | Hx]; [done | eauto]. }
      exists (a :: pre), x', post. split; [done |]. split; [| done].
      intros y Hy. apply elem_of_cons in Hy as [-> | Hy]; [done | auto].
Qed.

Lemma first_split_unique {A} (P : A -> Prop) (pre pre0 : list A) x x0 post post0 :
  pre0 ++ x0 :: post0 = pre ++ x :: post ->
  (forall y, y ∈ pre -> ~ P y) -> P x -> (forall y, y ∈ pre0 -> ~ P y) -> P x0 ->
  pre0 = pre /\ x0 = x /\ post0 = post.
Proof.
  revert pre0. induction pre as [|a pre IH]; intros [|b pre0] H Hpre Hx Hpre0 Hx0; cbn in H.
  - by injection H as <- <-.
  - injection H as -> H. exfalso. apply (Hpre0 x); [by left | done].
  - injection H as -> H. exfalso. apply (Hpre a); [by left | done].
  - injection H as <- H.
    destruct (IH pre0 H) as (-> & -> & ->); try done.
    + intros y Hy. apply Hpre. by right.
    + intros y Hy. apply Hpre0. by right.
Qed.

(** X15.  For an old pair that is not the blank one and whose records hold
    distinct lines: [AddReplace] returns; if a record for the old pair
    exists, the first one gets the new target and its line the new tokens,
    every further record for the pair is blanked and its line loses its
    tokens, and the statement list is unchanged; if none exists, one record
    is appended, whose line is one new line of the tree.  After the call
    exactly one record has the old pair, and it carries the new target.  The
    tokens end with the new version only when it is not empty. *)
Theorem AddReplace_spec (f : File) (oldPath oldVers newPath newVers : string) :
  let old := mkVersion oldPath oldVers in
  let new := mkVersion newPath newVers in
  let tokens := replace_tokens E oldPath oldVers newPath newVers in
  old <> Version0 -> replace_handles_ok f old ->
  exists f',
    AddReplace E f oldPath oldVers newPath newVers = Some f' /\
    (forall pre r post,
       fReplace f = pre ++ r :: post ->
       (forall y, y ∈ pre -> Old y <> old) -> Old r = old ->
       exists h,
         pSyntax r = Some h /\
         fReplace f' = pre ++ mkReplace old new (Some h)
                           :: map (blank_old oldPath oldVers) post /\
         tokens_at (fSyntax f') h = tokens_in (fSyntax f) h tokens /\
         (forall y h', y ∈ post -> Old y = old -> pSyntax y = Some h' ->
                       tokens_at (fSyntax f') h' = []) /\
         (forall l, l <> h ->
                    (forall y, y ∈ post -> Old y = old -> pSyntax y <> Some l) ->
                    line_at (fSyntax f') l = line_at (fSyntax f) l) /\
         Stmt (fSyntax f') = Stmt (fSyntax f)) /\
    ((forall y, y ∈ fReplace f -> Old y <> old) ->
     exists l,
       fReplace f' = fReplace f ++ [mkReplace old new (Some l)] /\
       line_added (fSyntax f) (fSyntax f') l tokens) /\
    (exists h, replaces_of f' old = [mkReplace old new (Some h)]) /\
    fModule f' = fModule f /\ fRequire f' = fRequire f /\ fExclude f' = fExclude f.
Proof.
  intros old new tokens Hne [Hsome Hnd]. unfold AddReplace, replaces_of in *.
  fold old new. change (_ ++ (if String.eqb newVers "" then [] else [newVers])) with tokens.
  destruct (decide (Exists (fun r => Old r = old) (fReplace f))) as [Hex | Hno];
    rewrite Exists_exists in *.
  - destruct (first_split (fun r => Old r = old) (fReplace f) Hex)
      as (pre & r & post & Hsplit & Hpre & Hp).
    rewrite Hsplit in Hsome, Hnd.
    rewrite filter_app_cons in Hsome, Hnd.
    rewrite (filter_old_none pre old Hpre) in Hsome, Hnd.
    rewrite filter_cons_True, filter_nil in Hsome, Hnd by done. cbn in Hsome, Hnd.
    destruct (Hsome r) as [h Hh]; [by left |].
    apply NoDup_cons in Hnd as [Hfirst _].
    destruct (AddReplace_loop_first oldPath oldVers new tokens pre r post (fSyntax f) h None)
      as (fs' & hint' & Hloop & HS & HN & Htok & Hrem & Hkeep); auto.
    { intros y Hy Hpy. apply Hsome. right. by apply list_elem_of_filter. }
    { intros y Hy Hpy Hs. apply Hfirst. rewrite Hh, <- Hs.
      apply list_elem_of_fmap. exists y. split; [done |]. by apply list_elem_of_filter. }
    fold old in Hloop. rewrite Hsplit, Hloop. eexists. split; [done |].
    cbn [fReplace set_fReplace set_fSyntax fSyntax fModule fRequire fExclude].
    split.
    { intros pre0 r0 post0 Hsplit0 Hpre0 Hp0.
      destruct (first_split_unique (fun r => Old r = old) pre pre0 r r0 post post0)
        as (-> & -> & ->); auto.
      exists h. repeat split; auto. }
    split.
    { intros Hall. exfalso. apply (Hall r); [apply elem_of_app; right; by left | done]. }
    split; [| done].
    exists h. rewrite filter_app_cons.
    rewrite (filter_old_none pre old Hpre).
    rewrite filter_cons_True, filter_nil by done.
    pose proof (filter_old_blank post oldPath oldVers Hne) as Hb. fold old in Hb.
    by rewrite Hb.
  - assert (forall y, y ∈ fReplace f -> Old y <> old) as Hall
      by (intros y Hy Hp; apply Hno; eauto).
    destruct (AddReplace_loop_none old new tokens (fReplace f) true None (fSyntax f) Hall)
      as [hint' ->].
    cbn [fReplace set_fReplace set_fSyntax fSyntax].
    pose proof (addLine_spec (fSyntax f) hint' tokens) as Ha.
    destruct (addLine (fSyntax f) hint' tokens) as [fs l]. cbn [fst snd] in Ha.
    eexists. split; [done |].
    cbn [fReplace set_fReplace set_fSyntax fSyntax fModule fRequire fExclude].
    split.
    { intros pre r post Hsplit _ Hp. exfalso. apply (Hall r); [| done].
      rewrite Hsplit. apply elem_of_app. right. by left. }
    split; [intros _; by exists l |].
    split; [| done].
    exists l. rewrite filter_app, (filter_old_none _ old Hall).
    by rewrite filter_cons_True.
Qed.

End ReplaceProperties.
(** ** The edit engine: composing the operations *)

Section Composition.
Variable E : Externals.

(** X14.  Drop, then add.  After [DropExclude] of a pair with a non-empty
    path, [AddExclude] of the same pair appends one record with one new
    line, and the file then holds exactly one Exclude record for the pair,
    however many it held before. *)
Theorem DropExclude_AddExclude (f f' : File) (path vers : string) :
  path <> "" -> DropExclude f path vers = Some f' ->
  let g := AddExclude E f' path vers in
  exists l,
    fExclude g
    = map (blank_pair path vers) (fExclude f) ++ [mkExclude (mkVersion path vers) (Some l)] /\
    excludes_of g path vers = [mkExclude (mkVersion path vers) (Some l)] /\
    line_added (fSyntax f') (fSyntax g) l ["exclude"; AutoQuote E path; vers].
Proof.
  intros Hne Hd g.
  destruct (DropExclude_Some f path vers f' Hd) as (HX & _).
  assert (~ exists x, x ∈ fExclude f' /\ xMod x = mkVersion path vers) as Hno.
  { rewrite HX. intros (x & Hx & Hk). apply list_elem_of_fmap in Hx as (y & -> & _).
    unfold blank_pair in Hk. case_decide; [| done].
    unfold Exclude0, Version0 in Hk. cbn in Hk. injection Hk as Hp _. by apply Hne. }
  unfold g, AddExclude.
  destruct (AddExclude_scan path vers (fExclude f') None) as [hint |] eqn:Hscan.
  2:{ exfalso. by apply AddExclude_scan_None in Hscan. }
  pose proof (addLine_spec (fSyntax f') hint ["exclude"; AutoQuote E path; vers]) as Ha.
  destruct (addLine (fSyntax f') hint _) as [fs l]. cbn [fst snd] in Ha.
  exists l. cbn [fExclude set_fExclude set_fSyntax fSyntax].
  split; [by rewrite HX |]. split; [| done].
  unfold excludes_of. cbn [fExclude set_fExclude set_fSyntax].
  rewrite filter_app. fold (excludes_of f' path vers).
  rewrite (excludes_of_absent f' path vers Hno). by rewrite filter_cons_True.
Qed.

End Composition.
(** ** The edit engine: AddModuleStmt *)

Lemma store_Token_same fs l t :
  is_Some (Lines fs !! l) -> tokens_at fs l = t -> store_Token fs l t = fs.
Proof.
  intros [ln Hl] Ht. unfold store_Token, set_Lines.
  unfold tokens_at, line_at in *. rewrite (lookup_total_correct _ _ _ Hl) in *.
  assert (set_Token ln t = ln) as -> by (destruct ln; cbn in *; by subst).
  rewrite insert_id by done. by destruct fs.
Qed.

Lemma store_Token_lookup fs l t : is_Some (Lines (store_Token fs l t) !! l).
Proof. unfold store_Token. cbn. rewrite lookup_insert_eq. by eexists. Qed.

Section ModuleProperties.
Variable E : Externals.

Lemma AddModuleStmt_sets f path f' :
  AddModuleStmt E f path = Some f' -> module_set E f' path.
Proof.
  unfold AddModuleStmt, module_set. destruct (fModule f) as [m |] eqn:Hm.
  - destruct (mSyntax m) as [h |] eqn:Hh; [| done]. cbn [updateLine].
    intros [= <-]. eexists _, h. cbn [fModule set_fModule set_fSyntax fSyntax].
    split; [done |]. split; [done |]. split; [done |].
    split; [apply store_Token_lookup |].
    rewrite tokens_at_store_eq. unfold tokens_in. by rewrite InBlock_store.
  - unfold addLine. cbn. intros [= <-].
    set (new := fresh (dom (Lines (fSyntax f)))).
    eexists _, new. cbn [fModule set_fModule set_fSyntax fSyntax].
    split; [done |]. split; [done |]. split; [done |].
    unfold tokens_in, tokens_at, line_at. cbn [Lines].
    rewrite lookup_total_insert_eq, lookup_insert_eq. cbn. split; [by eexists | done].
Qed.

(** X16.  After a call of [AddModuleStmt] that returned, the file has its
    module statement: a further call never adds a line, it rewrites the
    path of the Module record and of its line in place; with the same path
    it changes nothing at all.  The first call panics only on a Module
    record without a line. *)
Theorem AddModuleStmt_again (f f1 : File) (p : string) :
  AddModuleStmt E f p = Some f1 ->
  module_set E f1 p /\
  AddModuleStmt E f1 p = Some f1 /\
  (forall q, exists f2,
     AddModuleStmt E f1 q = Some f2 /\ module_set E f2 q /\
     Stmt (fSyntax f2) = Stmt (fSyntax f1) /\
     fRequire f2 = fRequire f1 /\ fExclude f2 = fExclude f1 /\ fReplace f2 = fReplace f1) /\
  (fModule f = None -> exists l, Stmt (fSyntax f1) = Stmt (fSyntax f) ++ [ELine l]) /\
  (fModule f <> None -> Stmt (fSyntax f1) = Stmt (fSyntax f)).
Proof.
  intros H1. pose proof (AddModuleStmt_sets f p f1 H1) as Hset.
  split; [exact Hset |].
  destruct Hset as (m & h & Hm & Hp & Hh & Hin & Htok).
  split.
  { unfold AddModuleStmt. rewrite Hm, Hh. cbn [updateLine]. f_equal.
    fold (tokens_in (fSyntax f1) h ["module"; AutoQuote E p]).
    rewrite (store_Token_same _ _ _ Hin Htok).
    destruct f1 as [fm fr fx fp fs]. cbn in *. subst fm.
    destruct m as [[mp mv] ms]. cbn in *. by subst. }
  split.
  { intros q. unfold AddModuleStmt at 1. rewrite Hm, Hh. cbn [updateLine].
    eexists. split; [done |]. split; [| done].
    apply (AddModuleStmt_sets f1 q). unfold AddModuleStmt. by rewrite Hm, Hh. }
  unfold AddModuleStmt in H1. destruct (fModule f) as [m0 |].
  - split; [done |]. intros _. destruct (mSyntax m0) as [h0 |]; [| done].
    cbn [updateLine] in H1. by injection H1 as <-.
  - split; [| done]. intros _. unfold addLine in H1. cbn in H1. injection H1 as <-.
    by eexists.
Qed.

End ModuleProperties.

(** The theorem on the file decoded from the sample tree. *)
Lemma AddModuleStmt_again_witness :
  AddModuleStmt GoEnv.env (decoded sample_tree) "example.com/n"
  = Some (default (decoded sample_tree)
            (AddModuleStmt GoEnv.env (decoded sample_tree) "example.com/n")) /\
  module_set GoEnv.env
    (default (decoded sample_tree)
       (AddModuleStmt GoEnv.env (decoded sample_tree) "example.com/n")) "example.com/n".
Proof.
  assert (AddModuleStmt GoEnv.env (decoded sample_tree) "example.com/n"
          = Some (default (decoded sample_tree)
                    (AddModuleStmt GoEnv.env (decoded sample_tree) "example.com/n"))) as H
    by (by vm_compute).
  split; [exact H |].
  apply (AddModuleStmt_again GoEnv.env (decoded sample_tree) _ "example.com/n" H).
Defined.
(** ** The normalizer: running removeDups again *)

Section MarkingAgain.
Context {A : Type} (key : A -> Version) (syn : A -> option loc).

(** The records that survive a marking loop are first occurrences: their
    keys are pairwise different and were not seen before the loop. *)
Lemma mark_dups_survivors xs : forall have kill,
  NoDup (map key (filter (fun x => syn x ∉ mark_dups key syn xs have kill) xs)) /\
  forall x, x ∈ filter (fun x => syn x ∉ mark_dups key syn xs have kill) xs ->
            key x ∉ have.
Proof.
  induction xs as [|x xs IH]; intros have kill; cbn [mark_dups].
  - split; [constructor |]. intros x Hx. by apply elem_of_nil in Hx.
  - case_bool_decide as Hin.
    + rewrite filter_cons_False.
      * apply IH.
      * intros Hn. apply Hn. apply mark_dups_mono. apply elem_of_union. left.
        by apply elem_of_singleton.
    + destruct (IH ({[key x]} ∪ have) kill) as [Hnd Hk].
      rewrite filter_cons. case_decide as Hs.
      * split.
        -- cbn [map]. apply NoDup_cons. split; [| done].
           intros Hx. apply list_elem_of_fmap in Hx as (y & Hy & Hyin).
           apply Hk in Hyin. apply Hyin. apply elem_of_union. left.
           by apply elem_of_singleton.
        -- intros y Hy. apply elem_of_cons in Hy as [-> | Hy]; [done |].
           apply Hk in Hy. intros Hh. apply Hy. apply elem_of_union. by right.
      * split; [done |]. intros y Hy. apply Hk in Hy. intros Hh. apply Hy.
        apply elem_of_union. by right.
Qed.

Lemma mark_dups_distinct xs : forall have kill,
  NoDup (map key xs) -> (forall x, x ∈ xs -> key x ∉ have) ->
  mark_dups key syn xs have kill = kill.
Proof.
  induction xs as [|x xs IH]; intros have kill Hnd Hk; cbn [mark_dups]; [done |].
  cbn [map] in Hnd. apply NoDup_cons in Hnd as [Hx Hnd].
  rewrite bool_decide_eq_false_2 by (apply Hk; by left).
  apply IH; [done |]. intros y Hy Hin. apply elem_of_union in Hin as [Hin | Hin].
  - apply elem_of_singleton in Hin. apply Hx. rewrite <- Hin.
    apply list_elem_of_fmap. eauto.
  - apply (Hk y); [by right | done].
Qed.

End MarkingAgain.

Lemma filter_all {A} (P : A -> Prop) `{!forall x, Decision (P x)} (l : list A) :
  (forall x, x ∈ l -> P x) -> filter P l = l.
Proof.
  induction l as [|x l IH]; intros Hall; [done |].
  rewrite filter_cons_True by (apply Hall; by left). f_equal. apply IH.
  intros y Hy. apply Hall. by right.
Qed.

(** X17.  [removeDups] is idempotent, on every file: after one pass no
    Exclude or Replace record repeats a key and no block is empty, so a
    second pass marks nothing and changes nothing; and [SortBlocks] after
    [removeDups] is [SortBlocks]. *)
Theorem removeDups_idempotent (f : File) :
  removeDups (removeDups f) = removeDups f /\
  NoDup (map xMod (fExclude (removeDups f))) /\
  NoDup (map Old (fReplace (removeDups f))) /\
  kill_all (removeDups f) = ∅ /\
  forall E, SortBlocks E (removeDups f) = SortBlocks E f.
Proof.
  set (g := removeDups f).
  assert (NoDup (map xMod (fExclude g))) as HndX.
  { unfold g, removeDups. cbn [fExclude]. unfold kill_exclude.
    apply (mark_dups_survivors xMod xSyntax (fExclude f) ∅ ∅). }
  assert (NoDup (map Old (fReplace g))) as HndP.
  { unfold g, removeDups. cbn [fReplace]. unfold kill_all.
    destruct (mark_dups_survivors Old pSyntax (reverse (fReplace f)) ∅ (kill_exclude f))
      as [Hnd _].
    rewrite filter_reverse in Hnd.
    change (map Old (reverse ?l)) with (Old <$> reverse l) in Hnd.
    rewrite fmap_reverse, reverse_Permutation in Hnd. exact Hnd. }
  assert (kill_exclude g = ∅) as HkX.
  { unfold kill_exclude. apply mark_dups_distinct; [done |]. intros x _.
    apply not_elem_of_empty. }
  assert (kill_all g = ∅) as HkA.
  { unfold kill_all. rewrite HkX. apply mark_dups_distinct.
    - change (map Old (reverse ?l)) with (Old <$> reverse l).
      by rewrite fmap_reverse, reverse_Permutation.
    - intros x _. apply not_elem_of_empty. }
  assert (removeDups g = g) as Hidem.
  { unfold removeDups at 1. rewrite HkX, HkA.
    rewrite (filter_all (fun x : ExcludeStmt => xSyntax x ∉ (∅ : gset (option loc))))
      by (intros x _; apply not_elem_of_empty).
    rewrite (filter_all (fun x : ReplaceStmt => pSyntax x ∉ (∅ : gset (option loc))))
      by (intros x _; apply not_elem_of_empty).
    assert (omap (removeDups_stmt ∅) (Stmt (fSyntax g)) = Stmt (fSyntax g)) as ->.
    { apply omap_Some_id. intros y Hy. destruct y as [l | b | c]; cbn; [done | | done].
      rewrite (filter_all (fun l : loc => Some l ∉ (∅ : gset (option loc))))
        by (intros x _; apply not_elem_of_empty).
      assert (BLine b <> []) as Hb.
      { unfold g, removeDups in Hy. cbn [fSyntax set_Stmt Stmt] in Hy.
        by eapply omap_removeDups_no_empty_block. }
      destruct b as [bt [|l ls] bs]; [done | done]. }
    unfold set_Stmt. destruct g as [gm gr gx gp [gn gs gl]]. done. }
  split; [exact Hidem |]. split; [done |]. split; [done |]. split; [done |].
  intros E. unfold SortBlocks. fold g. by rewrite Hidem.
Qed.
(** ** Comment blocks *)

Lemma comment_blocks_app xs ys :
  comment_blocks (xs ++ ys) = comment_blocks xs ++ comment_blocks ys.
Proof. unfold comment_blocks. apply omap_app. Qed.

Lemma comment_blocks_ELine ls : comment_blocks (map ELine ls) = [].
Proof. induction ls as [|l ls IH]; [done | exact IH]. Qed.

(** A pass that keeps every comment block and makes none. *)
Lemma comment_blocks_omap (g : Expr -> option Expr) (stmts : list Expr) :
  (forall x, match comment_of x with
             | Some _ => g x = Some x
             | None => forall y, g x = Some y -> comment_of y = None
             end) ->
  comment_blocks (omap g stmts) = comment_blocks stmts.
Proof.
  intros Hg. induction stmts as [|x stmts IH]; [done |].
  cbn [omap list_omap]. specialize (Hg x). unfold comment_blocks in *.
  destruct (comment_of x) as [t |] eqn:Hx.
  - rewrite Hg. cbn [omap list_omap]. by rewrite Hx, IH.
  - cbn [omap list_omap]. rewrite Hx. destruct (g x) as [y |]; [| done].
    cbn [omap list_omap]. by rewrite (Hg y eq_refl).
Qed.

Lemma comment_blocks_map (g : Expr -> Expr) (stmts : list Expr) :
  (forall x, comment_of (g x) = comment_of x) ->
  comment_blocks (map g stmts) = comment_blocks stmts.
Proof.
  intros Hg. unfold comment_blocks. induction stmts as [|x stmts IH]; [done |].
  cbn [map omap list_omap]. by rewrite Hg, IH.
Qed.

Lemma comment_blocks_insert hint new stmts : forall stmts' nested,
  insert_after_hint hint new stmts = Some (stmts', nested) ->
  comment_blocks stmts' = comment_blocks stmts.
Proof.
  induction stmts as [|x stmts IH]; intros stmts' nested; cbn [insert_after_hint]; [done |].
  assert (match insert_after_hint hint new stmts with
          | Some (rest', nested0) => Some (x :: rest', nested0)
          | None => None
          end = Some (stmts', nested) ->
          comment_blocks stmts' = comment_blocks (x :: stmts)) as Hlater.
  { destruct (insert_after_hint hint new stmts) as [[rest' n0] |]; [| done].
    intros [= <- <-]. unfold comment_blocks in *. cbn [omap list_omap].
    by rewrite (IH rest' n0 eq_refl). }
  destruct x as [l | b | c].
  - destruct (Nat.eqb l hint); [by intros [= <- <-] | by apply Hlater].
  - destruct (insert_after_line hint new (BLine b)); [by intros [= <- <-] | by apply Hlater].
  - by apply Hlater.
Qed.

Lemma comment_blocks_addLine fs hint tokens :
  comment_blocks (Stmt (addLine fs hint tokens).1) = comment_blocks (Stmt fs).
Proof.
  unfold addLine.
  destruct hint as [h |].
  - destruct (insert_after_hint h _ (Stmt fs)) as [[stmts nested] |] eqn:Hi; cbn [fst Stmt].
    + by eapply comment_blocks_insert.
    + rewrite comment_blocks_app. apply app_nil_r.
  - cbn [fst Stmt]. rewrite comment_blocks_app. apply app_nil_r.
Qed.

Section Comments.
Variable E : Externals.

Lemma AddRequire_loop_Stmt path vers rs : forall need fs out fs' need',
  AddRequire_loop E path vers rs need fs = Some (out, fs', need') -> Stmt fs' = Stmt fs.
Proof.
  induction rs as [|r rs IH]; intros need fs out fs' need'; cbn [AddRequire_loop].
  - by intros [= _ <- _].
  - destruct (String.eqb _ path).
    + destruct need.
      * destruct (rSyntax r) as [h |]; [| done]. cbn [updateLine].
        destruct (AddRequire_loop E path vers rs false _) as [[[o s] n] |] eqn:Hl; [| done].
        intros [= _ <- _]. by rewrite (IH _ _ _ _ _ Hl).
      * destruct (rSyntax r) as [h |]; [| done]. cbn [removeLine].
        destruct (AddRequire_loop E path vers rs false _) as [[[o s] n] |] eqn:Hl; [| done].
        intros [= _ <- _]. by rewrite (IH _ _ _ _ _ Hl).
    + destruct (AddRequire_loop E path vers rs need fs) as [[[o s] n] |] eqn:Hl; [| done].
      intros [= _ <- _]. by rewrite (IH _ _ _ _ _ Hl).
Qed.

Lemma AddReplace_loop_Stmt old new tokens rs : forall need hint fs out fs' need' hint',
  AddReplace_loop old new tokens rs need hint fs = Some (out, fs', need', hint') ->
  Stmt fs' = Stmt fs.
Proof.
  induction rs as [|r rs IH]; intros need hint fs out fs' need' hint'; cbn [AddReplace_loop].
  - by intros [= _ <- _ _].
  - case_bool_decide.
    + destruct need.
      * destruct (pSyntax r) as [h |]; [| done]. cbn [updateLine].
        destruct (AddReplace_loop old new tokens rs false _ _) as [[[[o s] n] hi] |] eqn:Hl;
          [| done].
        intros [= _ <- _ _]. by rewrite (IH _ _ _ _ _ _ _ Hl).
      * destruct (pSyntax r) as [h |]; [| done]. cbn [removeLine].
        destruct (AddReplace_loop old new tokens rs false _ _) as [[[[o s] n] hi] |] eqn:Hl;
          [| done].
        intros [= _ <- _ _]. by rewrite (IH _ _ _ _ _ _ _ Hl).
    + destruct (AddReplace_loop old new tokens rs need _ fs) as [[[[o s] n] hi] |] eqn:Hl;
        [| done].
      intros [= _ <- _ _]. by rewrite (IH _ _ _ _ _ _ _ Hl).
Qed.

Lemma SetRequire_stmts_comments stmts : forall need fs need' fs' out,
  SetRequire_stmts E need fs stmts = Some (need', fs', out) ->
  comment_blocks out = comment_blocks stmts.
Proof.
  induction stmts as [|x stmts IH]; intros need fs need' fs' out; cbn [SetRequire_stmts].
  - by intros [= _ _ <-].
  - destruct x as [l | b | c].
    + destruct (is_require (tokens_at fs l)).
      * destruct (SetRequire_line E 1 need fs l) as [[[n1 f1] keep] |]; [| done].
        cbn [mbind option_bind].
        destruct (SetRequire_stmts E n1 f1 stmts) as [[[n2 f2] o] |] eqn:Hs; [| done].
        cbn [mbind option_bind]. intros [= _ _ <-].
        destruct keep; apply (IH _ _ _ _ _ Hs).
      * destruct (SetRequire_stmts E need fs stmts) as [[[n2 f2] o] |] eqn:Hs; [| done].
        cbn [mbind option_bind]. intros [= _ _ <-]. apply (IH _ _ _ _ _ Hs).
    + destruct (is_require (BToken b)).
      * destruct (SetRequire_lines E need fs (BLine b)) as [[[n1 f1] nl] |]; [| done].
        cbn [mbind option_bind].
        destruct (SetRequire_stmts E n1 f1 stmts) as [[[n2 f2] o] |] eqn:Hs; [| done].
        cbn [mbind option_bind]. intros [= _ _ <-].
        destruct nl; apply (IH _ _ _ _ _ Hs).
      * destruct (SetRequire_stmts E need fs stmts) as [[[n2 f2] o] |] eqn:Hs; [| done].
        cbn [mbind option_bind]. intros [= _ _ <-]. apply (IH _ _ _ _ _ Hs).
    + destruct (SetRequire_stmts E need fs stmts) as [[[n2 f2] o] |] eqn:Hs; [| done].
      cbn [mbind option_bind]. intros [= _ _ <-].
      unfold comment_blocks in *. cbn [omap list_omap comment_of].
      by rewrite (IH _ _ _ _ _ Hs).
Qed.

Lemma comments_removeDups f : comments (removeDups f) = comments f.
Proof.
  unfold comments, removeDups. cbn [fSyntax set_Stmt Stmt].
  apply comment_blocks_omap. intros [l | b | c]; cbn; [| | done].
  - intros y. case_bool_decide; [done |]. by intros [= <-].
  - intros y. destruct (filter _ (BLine b)); [done |]. by intros [= <-].
Qed.

Lemma comments_SortBlocks f : comments (SortBlocks E f) = comments f.
Proof.
  unfold SortBlocks. unfold comments at 1. cbn [fSyntax set_fSyntax set_Stmt Stmt].
  rewrite comment_blocks_map by (by intros [l | b | c]).
  apply comments_removeDups.
Qed.

(** X18.  No operation of the editor or of the normalizer drops, changes
    or reorders a comment block: [AddComment] appends one at the end, and
    every other operation that returns leaves the comment blocks of the
    statement list as they are. *)
Theorem comments_survive (f : File) :
  (forall text, comments (AddComment f text) = comments f ++ [[text]]) /\
  comments (removeDups f) = comments f /\
  comments (SortBlocks E f) = comments f /\
  comments (Cleanup f) = comments f /\
  (forall path vers, comments (AddNewRequire E f path vers) = comments f) /\
  (forall path vers, comments (AddExclude E f path vers) = comments f) /\
  (forall path vers f', AddRequire E f path vers = Some f' -> comments f' = comments f) /\
  (forall o ov n nv f', AddReplace E f o ov n nv = Some f' -> comments f' = comments f) /\
  (forall path f', AddModuleStmt E f path = Some f' -> comments f' = comments f) /\
  (forall path f', DropRequire f path = Some f' -> comments f' = comments f) /\
  (forall path vers f', DropExclude f path vers = Some f' -> comments f' = comments f) /\
  (forall o ov f', DropReplace f o ov = Some f' -> comments f' = comments f) /\
  (forall req f', SetRequire E f req = Some f' -> comments f' = comments f).
Proof.
  split.
  { intros text. unfold comments, AddComment. cbn [fSyntax set_fSyntax set_Stmt Stmt].
    by rewrite comment_blocks_app. }
  split; [apply comments_removeDups |].
  split; [apply comments_SortBlocks |].
  split.
  { unfold comments, Cleanup, FileSyntax_Cleanup. cbn [fSyntax set_Stmt Stmt].
    apply comment_blocks_omap. intros [l | b | c]; cbn; [| | done].
    - intros y. destruct (stale _ l); [done |]. by intros [= <-].
    - intros y. destruct (filter _ (BLine b)); [done |]. by intros [= <-]. }
  assert (forall g path vers, comments (AddNewRequire E g path vers) = comments g) as Hnew.
  { intros g path vers. unfold comments, AddNewRequire.
    pose proof (comment_blocks_addLine (fSyntax g) None ["require"; AutoQuote E path; vers]) as H.
    by destruct (addLine (fSyntax g) None _). }
  split; [apply Hnew |].
  split.
  { intros path vers. unfold comments, AddExclude.
    destruct (AddExclude_scan path vers (fExclude f) None) as [hint |]; [| done].
    pose proof (comment_blocks_addLine (fSyntax f) hint ["exclude"; AutoQuote E path; vers]) as H.
    by destruct (addLine (fSyntax f) hint _). }
  split.
  { intros path vers f'. unfold AddRequire.
    destruct (AddRequire_loop E path vers (fRequire f) true (fSyntax f))
      as [[[rs fs] need] |] eqn:Hl; [| done].
    apply AddRequire_loop_Stmt in Hl. intros [= <-].
    destruct need; [rewrite Hnew |]; unfold comments; cbn [fSyntax set_fSyntax];
      by rewrite Hl. }
  split.
  { intros o ov n nv f'. unfold AddReplace.
    destruct (AddReplace_loop _ _ _ (fReplace f) true None (fSyntax f))
      as [[[[rs fs] need] hint] |] eqn:Hl; [| done].
    apply AddReplace_loop_Stmt in Hl. cbn [fSyntax set_fSyntax set_fReplace].
    destruct need.
    - pose proof (comment_blocks_addLine fs hint
                    (["replace"; AutoQuote E o; ov; "=>"; AutoQuote E n] ++
                     (if String.eqb nv "" then [] else [nv]))) as H.
      destruct (addLine fs hint _). intros [= <-]. unfold comments.
      cbn [fSyntax set_fSyntax fst] in *. by rewrite H, Hl.
    - intros [= <-]. unfold comments. cbn [fSyntax set_fSyntax]. by rewrite Hl. }
  split.
  { intros path f'. unfold AddModuleStmt. destruct (fModule f) as [m |].
    - destruct (mSyntax m); [| done]. cbn [updateLine]. by intros [= <-].
    - pose proof (comment_blocks_addLine (fSyntax f) None ["module"; AutoQuote E path]) as H.
      destruct (addLine (fSyntax f) None _). intros [= <-]. exact H. }
  split.
  { intros path f' Hd. destruct (DropRequire_Some f path f' Hd) as (_ & _ & _ & HS & _).
    unfold comments. by rewrite HS. }
  split.
  { intros path vers f' Hd.
    destruct (DropExclude_Some f path vers f' Hd) as (_ & _ & _ & HS & _).
    unfold comments. by rewrite HS. }
  split.
  { intros o ov f' Hd. destruct (DropReplace_Some f o ov f' Hd) as (_ & _ & _ & HS & _).
    unfold comments. by rewrite HS. }
  intros req f'. unfold SetRequire, SetRequire_edits.
  cbn [fSyntax set_fRequire].
  destruct (SetRequire_stmts E (need_of req) (fSyntax f) (Stmt (fSyntax f)))
    as [[[need fs] out] |] eqn:Hs; [| done].
  cbn [mbind option_bind fmap option_fmap option_map]. intros [= <-].
  rewrite comments_SortBlocks. unfold add_needed.
  destruct (AddNewRequire_fold E (map_range E need)
              (set_fSyntax (set_fRequire f (map (set_version (need_of req)) (fRequire f)))
                 (set_Stmt fs out))) as (news & HS & _).
  unfold comments. rewrite HS. cbn [fSyntax set_fSyntax set_Stmt Stmt].
  rewrite comment_blocks_app, comment_blocks_ELine, app_nil_r.
  by eapply SetRequire_stmts_comments.
Qed.

End Comments.
(** ** The properties on the sample tree *)

(** Dropping example.com/a from the sample file and cleaning up leaves the
    requirement of example.com/b/v2 alone in its block. *)
Lemma DropRequire_Cleanup_witness :
  DropRequire (decoded sample_tree) "example.com/a"
  = Some (default (decoded sample_tree) (DropRequire (decoded sample_tree) "example.com/a")) /\
  fRequire (Cleanup (default (decoded sample_tree)
                       (DropRequire (decoded sample_tree) "example.com/a")))
  = [mkRequire (mkVersion "example.com/b/v2" "v2.0.0") (Some 2)] /\
  Stmt (fSyntax (Cleanup (default (decoded sample_tree)
                            (DropRequire (decoded sample_tree) "example.com/a"))))
  = [ELine 0; ELineBlock (mkLineBlock ["require"] [2] 2); ELine 3; ELine 4;
     ECommentBlock ["// local fork"]].
Proof.
  assert (DropRequire (decoded sample_tree) "example.com/a"
          = Some (default (decoded sample_tree)
                    (DropRequire (decoded sample_tree) "example.com/a"))) as H
    by (by vm_compute).
  split; [exact H |].
  destruct (DropRequire_Cleanup (decoded sample_tree) _ "example.com/a" H) as (HR & _).
  split; [| by vm_compute].
  rewrite HR. by vm_compute.
Defined.

(** Dropping and adding again the exclusion of the sample file. *)
Lemma DropExclude_AddExclude_witness :
  "example.com/a" <> "" /\
  DropExclude (decoded sample_tree) "example.com/a" "v1.0.0"
  = Some (default (decoded sample_tree)
            (DropExclude (decoded sample_tree) "example.com/a" "v1.0.0")) /\
  exists l,
    excludes_of
      (AddExclude GoEnv.env
         (default (decoded sample_tree)
            (DropExclude (decoded sample_tree) "example.com/a" "v1.0.0"))
         "example.com/a" "v1.0.0") "example.com/a" "v1.0.0"
    = [mkExclude (mkVersion "example.com/a" "v1.0.0") (Some l)].
Proof.
  assert (DropExclude (decoded sample_tree) "example.com/a" "v1.0.0"
          = Some (default (decoded sample_tree)
                    (DropExclude (decoded sample_tree) "example.com/a" "v1.0.0"))) as H
    by (by vm_compute).
  split; [discriminate |]. split; [exact H |].
  destruct (DropExclude_AddExclude GoEnv.env (decoded sample_tree) _
              "example.com/a" "v1.0.0" ltac:(discriminate) H) as (l & _ & Hx & _).
  by exists l.
Defined.

Lemma sample_replace_handles_ok :
  replace_handles_ok (decoded sample_tree) (mkVersion "example.com/b/v2" "v2.0.0").
Proof.
  split.
  - intros r Hr. vm_compute in Hr. apply list_elem_of_singleton in Hr as ->. by eexists.
  - vm_compute. apply NoDup_singleton.
Qed.

(** Replacing the target of the replace statement of the sample file. *)
Lemma AddReplace_spec_witness :
  mkVersion "example.com/b/v2" "v2.0.0" <> Version0 /\
  replace_handles_ok (decoded sample_tree) (mkVersion "example.com/b/v2" "v2.0.0") /\
  exists f' h,
    AddReplace GoEnv.env (decoded sample_tree)
      "example.com/b/v2" "v2.0.0" "example.com/c/v2" "v2.1.0" = Some f' /\
    replaces_of f' (mkVersion "example.com/b/v2" "v2.0.0")
    = [mkReplace (mkVersion "example.com/b/v2" "v2.0.0")
         (mkVersion "example.com/c/v2" "v2.1.0") (Some h)].
Proof.
  split; [discriminate |]. split; [exact sample_replace_handles_ok |].
  destruct (AddReplace_spec GoEnv.env (decoded sample_tree)
              "example.com/b/v2" "v2.0.0" "example.com/c/v2" "v2.1.0"
              ltac:(discriminate) sample_replace_handles_ok)
    as (f' & Hf & _ & _ & (h & Hh) & _).
  by exists f', h.
Defined.
(** ** The edit engine: calling AddRequire again *)

Section RequireAgain.
Variable E : Externals.

Lemma AddRequire_loop_app_none path vers pre : forall rest need fs,
  (forall y, y ∈ pre -> Path (rMod y) <> path) ->
  AddRequire_loop E path vers (pre ++ rest) need fs
  = match AddRequire_loop E path vers rest need fs with
    | Some (out, fs', need') => Some (pre ++ out, fs', need')
    | None => None
    end.
Proof.
  induction pre as [|p pre IH]; intros rest need fs Hpre; cbn [app AddRequire_loop].
  - by destruct (AddRequire_loop E path vers rest need fs) as [[[o s] n] |].
  - destruct (String.eqb_spec (Path (rMod p)) path) as [Hp | Hp].
    { exfalso. apply (Hpre p); [by left | done]. }
    rewrite IH by (intros y Hy; apply Hpre; by right).
    by destruct (AddRequire_loop E path vers rest need fs) as [[[o s] n] |].
Qed.

Lemma AddRequire_loop_InBlock path vers rs : forall need fs out fs' need' l,
  AddRequire_loop E path vers rs need fs = Some (out, fs', need') ->
  InBlock (line_at fs' l) = InBlock (line_at fs l).
Proof.
  induction rs as [|r rs IH]; intros need fs out fs' need' l; cbn [AddRequire_loop].
  - by intros [= _ <- _].
  - destruct (String.eqb _ path).
    + destruct need.
      * destruct (rSyntax r) as [h |]; [| done]. cbn [updateLine].
        destruct (AddRequire_loop E path vers rs false _) as [[[o s] n] |] eqn:Hl; [| done].
        intros [= _ <- _]. rewrite (IH _ _ _ _ _ l Hl). apply InBlock_store.
      * destruct (rSyntax r) as [h |]; [| done]. cbn [removeLine].
        destruct (AddRequire_loop E path vers rs false _) as [[[o s] n] |] eqn:Hl; [| done].
        intros [= _ <- _]. rewrite (IH _ _ _ _ _ l Hl). apply InBlock_store.
    + destruct (AddRequire_loop E path vers rs need fs) as [[[o s] n] |] eqn:Hl; [| done].
      intros [= _ <- _]. by rewrite (IH _ _ _ _ _ l Hl).
Qed.

Lemma map_blank_path_none path (rs : list RequireStmt) :
  (forall y, y ∈ rs -> Path (rMod y) <> path) -> map (blank_path path) rs = rs.
Proof.
  induction rs as [|r rs IH]; intros Hno; [done |]. cbn [map].
  rewrite IH by (intros y Hy; apply Hno; by right). f_equal.
  unfold blank_path. case_decide as Hp; [| done]. exfalso. apply (Hno r); [by left | done].
Qed.

(** X19.  [AddRequire] is idempotent: for a non-empty [path] whose records
    hold distinct lines, a second call with the same path and version
    returns the file that the first call returned. *)
Theorem AddRequire_idempotent (f f1 : File) (path vers : string) :
  path <> "" -> require_handles_ok f path ->
  AddRequire E f path vers = Some f1 ->
  AddRequire E f1 path vers = Some f1.
Proof.
  intros Hne [Hsome Hnd] H1. unfold AddRequire, requires_of in *.
  set (toks := ["require"; AutoQuote E path; vers]) in *.
  destruct (decide (Exists (fun r => Path (rMod r) = path) (fRequire f))) as [Hex | Hno];
    rewrite Exists_exists in *.
  - destruct (first_split (fun r => Path (rMod r) = path) (fRequire f) Hex)
      as (pre & r & post & Hsplit & Hpre & Hp).
    rewrite Hsplit in Hsome, Hnd. rewrite filter_app_cons in Hsome, Hnd.
    rewrite (filter_path_none pre path Hpre) in Hsome, Hnd.
    rewrite filter_cons_True, filter_nil in Hsome, Hnd by done. cbn in Hsome, Hnd.
    destruct (Hsome r) as [h Hh]; [by left |].
    apply NoDup_cons in Hnd as [Hfirst _].
    destruct (AddRequire_loop_first E path vers pre r post (fSyntax f) h)
      as (fs' & Hloop & HS & HN & Htok & Hrem & Hkeep); auto.
    { intros y Hy Hpy. apply Hsome. right. by apply list_elem_of_filter. }
    { intros y Hy Hpy Hs. apply Hfirst. rewrite Hh, <- Hs.
      apply list_elem_of_fmap. exists y. split; [done |]. by apply list_elem_of_filter. }
    rewrite Hsplit, Hloop in H1. injection H1 as <-.
    cbn [fRequire set_fRequire set_fSyntax fSyntax].
    assert (forall y, y ∈ map (blank_path path) post -> Path (rMod y) <> path) as Hpost.
    { intros y Hy. apply list_elem_of_fmap in Hy as (z & -> & _). unfold blank_path.
      case_decide; [cbn; congruence | done]. }
    rewrite (AddRequire_loop_app_none path vers pre _ true fs' Hpre).
    cbn [AddRequire_loop]. rewrite String.eqb_refl. cbn [rSyntax updateLine rMod Path].
    fold toks.
    assert (store_Token fs' h (if InBlock (line_at fs' h) then drop 1 toks else toks) = fs')
      as ->.
    { apply store_Token_same.
      - apply tokens_at_dom. rewrite Htok. unfold tokens_in. by destruct (InBlock _).
      - rewrite Htok. unfold tokens_in.
        by rewrite (AddRequire_loop_InBlock _ _ _ _ _ _ _ _ h Hloop). }
    rewrite (AddRequire_loop_none E path vers _ false fs' Hpost).
    f_equal.
  - assert (forall y, y ∈ fRequire f -> Path (rMod y) <> path) as Hall
      by (intros y Hy Hp; apply Hno; eauto).
    rewrite (AddRequire_loop_none E path vers (fRequire f) true (fSyntax f) Hall) in H1.
    injection H1 as <-. unfold AddNewRequire, addLine.
    cbn [fRequire set_fRequire set_fSyntax fSyntax fst snd].
    set (new := fresh (dom (Lines (fSyntax f)))).
    rewrite (AddRequire_loop_app_none path vers (fRequire f) _ true _ Hall).
    cbn [AddRequire_loop]. rewrite String.eqb_refl. cbn [rSyntax updateLine rMod Path].
    match goal with |- context [store_Token ?fs new ?t] =>
      assert (store_Token fs new t = fs) as -> end.
    { apply store_Token_same.
      - cbn [Lines]. rewrite lookup_insert_eq. by eexists.
      - unfold tokens_at, line_at. cbn [Lines]. rewrite lookup_total_insert_eq. done. }
    f_equal.
Qed.

End RequireAgain.

(** The theorem on the two require statements for example.com/a. *)
Lemma AddRequire_idempotent_witness :
  "example.com/a" <> "" /\ require_handles_ok (decoded two_requires) "example.com/a" /\
  AddRequire GoEnv.env (decoded two_requires) "example.com/a" "v1.2.0"
  = Some (default (decoded two_requires)
            (AddRequire GoEnv.env (decoded two_requires) "example.com/a" "v1.2.0")) /\
  AddRequire GoEnv.env
    (default (decoded two_requires)
       (AddRequire GoEnv.env (decoded two_requires) "example.com/a" "v1.2.0"))
    "example.com/a" "v1.2.0"
  = Some (default (decoded two_requires)
            (AddRequire GoEnv.env (decoded two_requires) "example.com/a" "v1.2.0")).
Proof.
  assert (require_handles_ok (decoded two_requires) "example.com/a") as Hok.
  { split.
    - intros r Hr. vm_compute in Hr.
      apply elem_of_cons in Hr as [-> | Hr]; [by eexists |].
      apply list_elem_of_singleton in Hr as ->. by eexists.
    - vm_compute. apply NoDup_cons. split; [| apply NoDup_singleton].
      intros Hin. apply list_elem_of_singleton in Hin. discriminate. }
  assert (AddRequire GoEnv.env (decoded two_requires) "example.com/a" "v1.2.0"
          = Some (default (decoded two_requires)
                    (AddRequire GoEnv.env (decoded two_requires) "example.com/a" "v1.2.0")))
    as H by (by vm_compute).
  split; [discriminate |]. split; [exact Hok |]. split; [exact H |].
  apply (AddRequire_idempotent GoEnv.env (decoded two_requires) _ "example.com/a" "v1.2.0"
           ltac:(discriminate) Hok H).
Defined.
(** ** The decoder: a directory on the right of a replace statement *)

Section ReplaceDirectory.
Variable E : Externals.

(** X20.  For a replace statement with four arguments whose left-hand side
    passes the checks and whose fourth argument unquotes to [ns]: [add]
    refuses it when [ns] is no directory path; it refuses it as a Windows
    path when the path separator of the system is the slash and [ns] holds
    a backslash; in every other case it appends the Replace record, with an
    empty new version. *)
Theorem add_replace_directory (f : File) (errs : list Diag) (l : loc) (off : nat)
    (fix_ : option VersionFixer) (s v v1 ns : string) :
  let args := drop off (tokens_at (fSyntax f) l) in
  let f' := (add E f errs l "replace" off fix_).1 in
  let errs' := (add E f errs l "replace" off fix_).2 in
  let printed m := errs ++ [mkDiag (Name (fSyntax f)) (StartLine (line_at (fSyntax f) l)) m] in
  length args = 4 -> arg args 2 = "=>" ->
  (parseString E (arg args 0)).2 = Ok s ->
  (parseVersion E s (arg args 1) fix_).2 = Ok v ->
  moduleMajorVersion E s = Ok v1 ->
  major_mismatch v1 (semver_Major E v) = false ->
  (parseString E (arg args 3)).2 = Ok ns ->
  if negb (IsDirectoryPath ns) then
    errs' = printed ReplacementNotDirectory /\ fReplace f' = fReplace f
  else if byte_eqb (filepath_Separator E) "/" && Contains ns "\" then
    errs' = printed ReplacementWindowsPath /\ fReplace f' = fReplace f
  else
    errs' = errs /\
    fReplace f' = fReplace f ++ [mkReplace (mkVersion s v) (mkVersion ns "") (Some l)].
Proof.
  intros args f' errs' printed Hlen H2 Hs Hv Hm Hmm Hns.
  subst f' errs'. unfold add. cbn [String.eqb Ascii.eqb Bool.eqb orb]. fold args.
  destruct (decode_left_spec E args fix_ s v v1 Hs Hv Hm) as [args1 Hleft].
  rewrite Hmm in Hleft.
  assert (length args1 = length args /\ arg args1 3 = arg args 3) as [Hl1 H3].
  { pose proof (decode_left_length E args fix_) as Hll. rewrite Hleft in Hll. cbn in Hll.
    split; [done |].
    revert Hleft. unfold decode_left. repeat case_match; intros [= <- _];
      unfold arg; rewrite ?list_lookup_insert_ne by lia; done. }
  unfold decode_replace. rewrite Hlen, H2. cbn [Nat.ltb Nat.leb String.eqb Ascii.eqb
    Bool.eqb orb negb]. rewrite Hleft, H3.
  destruct (parseString E (arg args 3)) as [a3 r3]. cbn in Hns. subst r3.
  rewrite !length_insert, Hl1, Hlen. cbn [Nat.eqb andb].
  destruct (IsDirectoryPath ns); cbn [negb]; [| done].
  destruct (byte_eqb (filepath_Separator E) "/" && Contains ns "\"); done.
Qed.

End ReplaceDirectory.

(** The theorem in the concrete environment, whose separator is the slash,
    on a replace statement with a backslash path. *)
Lemma add_replace_directory_witness :
  (add_one ["replace"; "example.com/a"; "v1.0.0"; "=>"; ".\local"]).2
  = [mkDiag "go.mod" 1 ReplacementWindowsPath] /\
  fReplace (add_one ["replace"; "example.com/a"; "v1.0.0"; "=>"; ".\local"]).1 = [].
Proof.
  exact (add_replace_directory GoEnv.env
           (new_File (one_line ["replace"; "example.com/a"; "v1.0.0"; "=>"; ".\local"]))
           [] 0 1 None "example.com/a" "v1.0.0" "v1" ".\local"
           eq_refl eq_refl eq_refl eq_refl eq_refl eq_refl eq_refl).
Defined.

(** ** SetRequire: the require statements it leaves *)

Section SetRequireExact.
Variable E : Externals.

(** The entries written and the entries left are the entries of the map. *)
Lemma kept_entries_partition fs lis : forall need,
  kept_entries E need fs lis ++ map_to_list (need_after E need fs lis) ≡ₚ map_to_list need.
Proof.
  induction lis as [|li lis IH]; intros need; cbn [kept_entries need_after]; [done |].
  destruct (line_path E fs li) as [p |]; [| apply IH].
  destruct (decide (wanted need p)) as [Hw | Hw]; [| apply IH].
  cbn [app]. rewrite IH. apply map_to_list_delete.
  unfold wanted in Hw. by destruct (need !! p).
Qed.

(** The statements kept, read in the tree [fs1], hold the entries written. *)
Lemma kept_entries_pairs fs fs1 lis : forall need,
  NoDup (map fst lis) ->
  (forall li p, li ∈ lis -> li.1 ∈ kept_lines E need fs lis -> line_path E fs li = Some p ->
     stmt_pair fs1 li = Some (AutoQuote E p, default "" (need !! p))) ->
  map (stmt_pair fs1) (filter (fun li : loc * nat => li.1 ∈ kept_lines E need fs lis) lis)
  = map (fun pv => Some (entry_tokens E pv)) (kept_entries E need fs lis).
Proof.
  induction lis as [|li lis IH]; intros need Hnd Htok; [done |].
  cbn [map] in Hnd. apply NoDup_cons in Hnd as [Hli Hnd].
  assert (forall need', li.1 ∉ kept_lines E need' fs lis) as Hnot.
  { intros need' H. apply kept_lines_subset in H. done. }
  assert (forall need',
            (forall lj p, lj ∈ lis -> lj.1 ∈ kept_lines E need' fs lis ->
                          line_path E fs lj = Some p ->
                          stmt_pair fs1 lj = Some (AutoQuote E p, default "" (need' !! p))) ->
            map (stmt_pair fs1)
              (filter (fun lj : loc * nat => lj.1 ∈ kept_lines E need' fs lis) (li :: lis))
            = map (fun pv => Some (entry_tokens E pv)) (kept_entries E need' fs lis)) as Hskip.
  { intros need' H. rewrite filter_cons_False by apply Hnot. by apply IH. }
  cbn [kept_lines kept_entries] in *.
  destruct (line_path E fs li) as [p |] eqn:Hp; [| apply Hskip; intros lj q Hlj; apply Htok; by right].
  destruct (decide (wanted need p)) as [Hw | Hw];
    [| apply Hskip; intros lj q Hlj; apply Htok; by right].
  rewrite filter_cons_True by (by left). cbn [map]. f_equal.
  - apply Htok; [by left | by left | done].
  - rewrite <- (IH (delete p need) Hnd).
    + f_equal. apply filter_ext_elem. intros lj Hlj. rewrite elem_of_cons.
      split; [| auto]. intros [Heq | H]; [| done]. exfalso. apply Hli. rewrite <- Heq.
      apply list_elem_of_fmap. eauto.
    + intros lj q Hlj Hk Hq.
      rewrite (Htok lj q); [| by right | by right | done].
      assert (wanted (delete p need) q) as Hwq by (eapply kept_lines_wanted; eauto).
      apply wanted_delete in Hwq as [Hne _]. by rewrite lookup_delete_ne.
Qed.

(** The require statements of the statements kept. *)
Lemma require_lines_keep fs fs1 K (stmts : list Expr) :
  (forall l, ELine l ∈ stmts ->
     is_require (tokens_at fs l) = false \/ l ∈ K ->
     is_require (tokens_at fs1 l) = is_require (tokens_at fs l)) ->
  require_lines fs1 (omap (keep_stmt fs K) stmts)
  = filter (fun li : loc * nat => li.1 ∈ K) (require_lines fs stmts).
Proof.
  induction stmts as [|x stmts IH]; intros Hreq; [done |].
  change (require_lines fs (x :: stmts))
    with (require_lines_of fs x ++ require_lines fs stmts).
  rewrite filter_app, <- IH by (intros l Hl; apply Hreq; by right).
  cbn [omap list_omap].
  assert (forall y, keep_stmt fs K x = Some y ->
            require_lines_of fs1 y
            = filter (fun li : loc * nat => li.1 ∈ K) (require_lines_of fs x)) as Hsome.
  { intros y. destruct x as [l | b | c]; cbn [keep_stmt require_lines_of].
    - destruct (is_require (tokens_at fs l)) eqn:Hr.
      + destruct (decide (l ∈ K)) as [Hk | Hk]; [| done]. intros [= <-].
        cbn [require_lines_of]. rewrite (Hreq l); [| by left | by right].
        rewrite Hr. by rewrite filter_cons_True.
      + intros [= <-]. cbn [require_lines_of].
        rewrite (Hreq l); [| by left | by left]. by rewrite Hr.
    - destruct (is_require (BToken b)) eqn:Hr.
      + destruct (filter (fun l : loc => l ∈ K) (BLine b)) as [|l ls] eqn:Hf; [done |].
        intros [= <-]. cbn [require_lines_of BToken BLine]. rewrite Hr, <- Hf.
        clear. induction (BLine b) as [|a bl IH]; [done |]. cbn [map].
        rewrite !filter_cons. cbn [fst]. destruct (decide (a ∈ K)); cbn [map]; by rewrite IH.
      + intros [= <-]. cbn [require_lines_of]. by rewrite Hr.
    - by intros [= <-]. }
  destruct (keep_stmt fs K x) as [y |] eqn:Hy.
  - change (require_lines fs1 (y :: omap (keep_stmt fs K) stmts))
      with (require_lines_of fs1 y ++ require_lines fs1 (omap (keep_stmt fs K) stmts)).
    by rewrite (Hsome y eq_refl).
  - assert (filter (fun li : loc * nat => li.1 ∈ K) (require_lines_of fs x) = []) as ->; [| done].
    destruct x as [l | b | c]; cbn [keep_stmt require_lines_of] in *.
    + destruct (is_require (tokens_at fs l)); [| done].
      destruct (decide (l ∈ K)); [done |]. by rewrite filter_cons_False.
    + destruct (is_require (BToken b)); [| done].
      destruct (filter (fun l : loc => l ∈ K) (BLine b)) as [|l ls] eqn:Hf; [| done].
      clear -Hf. induction (BLine b) as [|a bl IH]; [done |]. cbn [map].
      rewrite filter_cons in Hf. rewrite filter_cons. cbn [fst].
      destruct (decide (a ∈ K)); [done | by apply IH].
    + done.
Qed.


Lemma require_lines_app fs xs ys :
  require_lines fs (xs ++ ys) = require_lines fs xs ++ require_lines fs ys.
Proof. unfold require_lines. by rewrite map_app, concat_app. Qed.

(** A bare line that stands once in the tree is a require statement only
    as itself, with its path at token 1. *)
Lemma bare_line_require fs (stmts : list Expr) l i :
  NoDup (tree_lines stmts) -> ELine l ∈ stmts -> (l, i) ∈ require_lines fs stmts ->
  is_require (tokens_at fs l) = true /\ i = 1.
Proof.
  induction stmts as [|x stmts IH]; intros Hnd Hin Hli; [by apply elem_of_nil in Hin |].
  change (tree_lines (x :: stmts)) with (stmt_lines x ++ tree_lines stmts) in Hnd.
  change (require_lines fs (x :: stmts))
    with (require_lines_of fs x ++ require_lines fs stmts) in Hli.
  apply NoDup_app in Hnd as (_ & Hdisj & Hnd).
  apply elem_of_cons in Hin as [<- | Hin]; apply elem_of_app in Hli as [Hli | Hli].
  - cbn in Hli. destruct (is_require (tokens_at fs l)); [| by apply elem_of_nil in Hli].
    apply list_elem_of_singleton in Hli. by injection Hli as ->.
  - exfalso. apply (Hdisj l); [by left |].
    apply require_lines_fst with (fs := fs). apply list_elem_of_fmap. by exists (l, i).
  - exfalso. apply (Hdisj l).
    + apply require_lines_of_fst with (fs := fs). apply list_elem_of_fmap. by exists (l, i).
    + by apply (stmt_lines_tree (ELine l)); [| left].
  - by apply IH.
Qed.

Lemma is_require_insert i t (tokens : list string) :
  0 < i -> is_require (<[i := t]> tokens) = is_require tokens.
Proof. intros Hi. destruct tokens as [|a ts]; [done |]. by destruct i; [lia |]. Qed.

Lemma new_lines_pairs fs fs' (pvs : list (string * string)) (news : list loc) :
  Forall2 (fun pv l => Lines fs !! l = None /\
                       Lines fs' !! l
                       = Some (mkLine ["require"; AutoQuote E pv.1; pv.2] false 0)) pvs news ->
  map (stmt_pair fs') (require_lines fs' (map ELine news))
  = map (fun pv => Some (entry_tokens E pv)) pvs.
Proof.
  induction 1 as [|pv l pvs news [_ Hl] _ IH]; [done |].
  cbn [map]. change (require_lines fs' (ELine l :: map ELine news))
    with (require_lines_of fs' (ELine l) ++ require_lines fs' (map ELine news)).
  assert (tokens_at fs' l = ["require"; AutoQuote E pv.1; pv.2]) as Ht
    by (by rewrite (tokens_at_lookup _ _ _ Hl)).
  cbn [require_lines_of]. rewrite Ht. cbn [is_require String.eqb Ascii.eqb Bool.eqb app map].
  rewrite IH. f_equal. unfold stmt_pair. cbn [fst snd]. by rewrite Ht.
Qed.

(** [SetRequire] up to the sort: in the file handed to [SortBlocks] the
    Exclude and Replace records are as before, every require statement is
    one of the tree before the call or stands in a new line, and the path
    and version tokens of the require statements are, up to their order,
    those of the entries of the map. *)
Lemma SetRequire_edits_exact (f : File) (req : list Version) :
  range_visits_all E -> require_tree_ok (fSyntax f) -> tree_in_store (fSyntax f) ->
  exists f1,
    SetRequire_edits E f req = Some f1 /\
    fExclude f1 = fExclude f /\ fReplace f1 = fReplace f /\
    (forall l, l ∈ map fst (require_lines (fSyntax f1) (Stmt (fSyntax f1))) ->
               l ∈ map fst (require_lines (fSyntax f) (Stmt (fSyntax f))) \/
               Lines (fSyntax f) !! l = None) /\
    map (stmt_pair (fSyntax f1)) (require_lines (fSyntax f1) (Stmt (fSyntax f1)))
    ≡ₚ map (fun pv => Some (entry_tokens E pv)) (map_to_list (need_of req)).
Proof.
  intros Hrange Hok Hstore.
  destruct (SetRequire_edits_spec E f req Hok)
    as (fs1 & f1 & news & Hed & [Hsame Htok] & HS & HF & _ & _ & Hpres & _ & _ & HX & HP).
  set (need := need_of req) in *. set (fs := fSyntax f) in *.
  set (lis := require_lines fs (Stmt fs)) in *.
  set (K := kept_lines E need fs lis) in *.
  cbn [fSyntax set_fSyntax set_fRequire set_Stmt Stmt Lines] in HS, HF, Hpres.
  pose proof (require_lines_NoDup fs (Stmt fs) (proj1 Hok)) as Hndl. fold lis in Hndl.
  assert (forall l, l ∈ tree_lines (Stmt fs) ->
                    tokens_at (fSyntax f1) l = tokens_at fs1 l) as Hfin.
  { intros l Hl. apply tokens_at_lookup_eq, Hpres. destruct Hsame as (_ & _ & _ & Hdom).
    apply Hdom, Hstore, Hl. }
  assert (forall li, li ∈ lis -> li.1 ∈ tree_lines (Stmt fs)) as Hlt.
  { intros li Hli. apply require_lines_fst with (fs := fs). apply list_elem_of_fmap. eauto. }
  assert (forall li p, li ∈ lis -> li.1 ∈ K -> line_path E fs li = Some p ->
            tokens_at (fSyntax f1) li.1
            = <[S li.2 := default "" (need !! p)]>
                (<[li.2 := AutoQuote E p]> (tokens_at fs li.1))) as Hkept.
  { intros li p Hli Hk Hp. rewrite (Hfin _ (Hlt li Hli)). by apply Htok. }
  exists f1. split; [exact Hed |]. split; [exact HX |]. split; [exact HP |].
  assert (require_lines (fSyntax f1) (omap (keep_stmt fs K) (Stmt fs))
          = filter (fun li => li.1 ∈ K) lis) as Hrl.
  { apply (require_lines_keep fs (fSyntax f1) K).
    intros l Hl [Hr | Hk].
    + f_equal. rewrite (Hfin l) by (by apply (stmt_lines_tree (ELine l)); [| left]).
      eapply tokens_same_but; [exact Hsame |]. intros Hin.
      apply list_elem_of_fmap in Hin as ([l' i] & Heq & Hli). cbn in Heq. subst l'.
      destruct (bare_line_require fs (Stmt fs) l i (proj1 Hok) Hl Hli) as [Hreq _].
      congruence.
    + pose proof Hk as Hk'. apply kept_lines_subset in Hk'.
      apply list_elem_of_fmap in Hk' as ([l' i] & Heq & Hli). cbn in Heq. subst l'.
      destruct (bare_line_require fs (Stmt fs) l i (proj1 Hok) Hl Hli) as [Hreq ->].
      apply list_elem_of_split in Hli as Hsplit. destruct Hsplit as (pre & post & Hsp).
      assert ((l, 1).1 ∈ kept_lines E need fs (pre ++ (l, 1) :: post)) as Hk2
        by (by rewrite <- Hsp).
      apply kept_lines_first in Hk2 as (p & Hp & _); [| by rewrite <- Hsp].
      pose proof (Hkept (l, 1) p Hli Hk Hp) as Hl1. cbn [fst snd] in Hl1.
      rewrite Hl1. by rewrite !is_require_insert by lia. }
  split.
  { intros l. rewrite HS, require_lines_app, Hrl, map_app, elem_of_app. intros [Hl | Hl].
    - left. apply list_elem_of_fmap in Hl as (li & -> & Hli).
      apply list_elem_of_filter in Hli as [_ Hli]. apply list_elem_of_fmap. eauto.
    - right. apply require_lines_fst in Hl. rewrite tree_lines_ELine in Hl.
      destruct (Lines fs !! l) as [ln |] eqn:Hfs; [exfalso | done].
      destruct Hsame as (_ & _ & _ & Hdom). destruct (Hdom l) as [ln1 Hl1]; [by eexists |].
      apply list_elem_of_lookup in Hl as [i Hi].
      destruct (Forall2_lookup_r _ _ _ _ _ HF Hi) as (pv & _ & Hnone & _).
      cbn [fSyntax set_fSyntax set_fRequire set_Stmt Stmt Lines] in Hnone. congruence. }
  assert (map (stmt_pair (fSyntax f1)) (require_lines (fSyntax f1) (Stmt (fSyntax f1)))
          = map (fun pv => Some (entry_tokens E pv))
              (kept_entries E need fs lis ++ map_range E (need_after E need fs lis))) as Heq.
  { rewrite HS, require_lines_app, !map_app. f_equal; [| by eapply new_lines_pairs, HF].
    rewrite Hrl. apply kept_entries_pairs; [done |]. intros li p Hli Hk Hp.
    unfold stmt_pair. rewrite (Hkept li p Hli Hk Hp).
    pose proof (proj2 Hok li Hli) as Hlen.
    rewrite list_lookup_insert_ne by lia.
    rewrite !list_lookup_insert_eq by (rewrite ?length_insert; lia). done. }
  rewrite Heq. apply Permutation_map. rewrite (Hrange _).
  apply kept_entries_partition.
Qed.

(** The filter pass of [removeDups] keeps every require statement when no
    line of one is marked. *)
Lemma require_lines_removeDups (fs : FileSyntax) (K : gset (option loc))
    (stmts : list Expr) :
  (forall l, l ∈ map fst (require_lines fs stmts) -> Some l ∉ K) ->
  require_lines fs (omap (removeDups_stmt K) stmts) = require_lines fs stmts.
Proof.
  induction stmts as [|x stmts IH]; [done |].
  change (require_lines fs (x :: stmts))
    with (require_lines_of fs x ++ require_lines fs stmts).
  intros HK. rewrite map_app in HK.
  assert (require_lines fs (omap (removeDups_stmt K) stmts) = require_lines fs stmts) as IH'.
  { apply IH. intros l Hl. apply HK, elem_of_app. by right. }
  assert (forall l, l ∈ map fst (require_lines_of fs x) -> Some l ∉ K) as Hx.
  { intros l Hl. apply HK, elem_of_app. by left. }
  clear IH HK. cbn [omap list_omap].
  destruct x as [l | b | c]; cbn [removeDups_stmt].
  - case_bool_decide as Hl.
    + rewrite IH'. cbn [require_lines_of] in *.
      destruct (is_require (tokens_at fs l)); [| done].
      exfalso. apply (Hx l); [by left | done].
    + change (require_lines fs (ELine l :: omap (removeDups_stmt K) stmts))
        with (require_lines_of fs (ELine l)
              ++ require_lines fs (omap (removeDups_stmt K) stmts)).
      by rewrite IH'.
  - cbn [require_lines_of] in *. destruct (is_require (BToken b)) eqn:Hreq.
    + rewrite map_fst_zero in Hx. rewrite (filter_all _ (BLine b)) by exact Hx.
      destruct (BLine b) as [|l0 ls] eqn:Hb; [by rewrite IH' |].
      change (require_lines fs (?y :: omap (removeDups_stmt K) stmts))
        with (require_lines_of fs y ++ require_lines fs (omap (removeDups_stmt K) stmts)).
      cbn [require_lines_of BToken BLine]. by rewrite Hreq, IH'.
    + destruct (filter _ (BLine b)) as [|l0 ls]; [by rewrite IH' |].
      change (require_lines fs (?y :: omap (removeDups_stmt K) stmts))
        with (require_lines_of fs y ++ require_lines fs (omap (removeDups_stmt K) stmts)).
      cbn [require_lines_of BToken BLine]. by rewrite Hreq, IH'.
  - change (require_lines fs (ECommentBlock c :: omap (removeDups_stmt K) stmts))
      with (require_lines_of fs (ECommentBlock c)
            ++ require_lines fs (omap (removeDups_stmt K) stmts)).
    by rewrite IH'.
Qed.

(** The sort of the blocks permutes the require statements. *)
Lemma require_lines_SortBlocks fs fs0 (stmts : list Expr) :
  sort_Slice_contract E ->
  require_lines fs (map (SortBlocks_stmt E fs0) stmts) ≡ₚ require_lines fs stmts.
Proof.
  intros Hc. induction stmts as [|x stmts IH]; [done |]. cbn [map].
  change (require_lines fs (x :: stmts))
    with (require_lines_of fs x ++ require_lines fs stmts).
  change (require_lines fs (SortBlocks_stmt E fs0 x :: map (SortBlocks_stmt E fs0) stmts))
    with (require_lines_of fs (SortBlocks_stmt E fs0 x)
          ++ require_lines fs (map (SortBlocks_stmt E fs0) stmts)).
  rewrite IH. apply Permutation_app_tail.
  destruct x as [l | b | c]; cbn [SortBlocks_stmt require_lines_of BToken BLine]; [done | | done].
  destruct (is_require (BToken b)); [| done].
  apply Permutation_map, Hc.
Qed.

(** The lines that [removeDups] marks are held by Exclude or Replace
    records. *)
Lemma kill_all_handles (f : File) (o : option loc) :
  o ∈ kill_all f -> o ∈ map xSyntax (fExclude f) ++ map pSyntax (fReplace f).
Proof.
  unfold kill_all, kill_exclude. rewrite !mark_dups_spec, elem_of_app.
  intros [[H | (pre & x & post & Hx & <- & _)] | (pre & r & post & Hr & <- & _)].
  - by apply not_elem_of_empty in H.
  - left. apply list_elem_of_fmap. exists x. split; [done |].
    rewrite Hx. apply elem_of_app. right. by left.
  - right. apply list_elem_of_fmap. exists r. split; [done |].
    apply elem_of_reverse. rewrite Hr. apply elem_of_app. right. by left.
Qed.

Lemma stmt_pair_ext fs fs' li :
  Lines fs' = Lines fs -> stmt_pair fs' li = stmt_pair fs li.
Proof. intros H. unfold stmt_pair, tokens_at, line_at. by rewrite H. Qed.

(** X21.  The require statements that [SetRequire] leaves are the entries
    of the map, each once.  When every line of the tree is an object of
    the store and stands once in the tree, every require statement has its
    path and version tokens, the lines of the Exclude and Replace records
    are lines of the tree other than the require statements, [range]
    visits every entry once and [sort.Slice] keeps its contract:
    [SetRequire] returns a file in whose tree the path and version tokens
    of the require statements are, up to their order, the paths (quoted
    where need be) and versions of the entries of the map; so the tree has
    as many require statements as the map has entries. *)
Theorem SetRequire_exact (f : File) (req : list Version) :
  range_visits_all E -> sort_Slice_contract E ->
  require_tree_ok (fSyntax f) -> tree_in_store (fSyntax f) -> other_handles_apart f ->
  exists f',
    SetRequire E f req = Some f' /\
    map (stmt_pair (fSyntax f')) (require_lines (fSyntax f') (Stmt (fSyntax f')))
    ≡ₚ map (fun pv => Some (entry_tokens E pv)) (map_to_list (need_of req)) /\
    length (require_lines (fSyntax f') (Stmt (fSyntax f'))) = size (need_of req).
Proof.
  intros Hrange Hsort Hok Hstore Hapart.
  destruct (SetRequire_edits_exact f req Hrange Hok Hstore)
    as (f1 & Hed & HX & HP & Hfrom & Hperm).
  exists (SortBlocks E f1). split; [unfold SetRequire; by rewrite Hed |].
  set (fs1 := fSyntax f1) in *.
  assert (require_lines (fSyntax (SortBlocks E f1)) (Stmt (fSyntax (SortBlocks E f1)))
          ≡ₚ require_lines fs1 (Stmt fs1)) as Hrl.
  { unfold SortBlocks.
    cbn [fSyntax set_fSyntax set_Stmt Stmt removeDups].
    rewrite (require_lines_ext fs1) by (intros l _; by apply tokens_at_lookup_eq).
    rewrite require_lines_SortBlocks by done.
    rewrite require_lines_removeDups; [done |].
    intros l Hl Hkill. apply kill_all_handles in Hkill. rewrite HX, HP in Hkill.
    destruct (Hapart l Hkill) as [Htree Hnot].
    destruct (Hfrom l Hl) as [Hreq | Hnone]; [done |].
    destruct (Hstore l Htree) as [ln Hln]. congruence. }
  assert (map (stmt_pair (fSyntax (SortBlocks E f1)))
            (require_lines (fSyntax (SortBlocks E f1)) (Stmt (fSyntax (SortBlocks E f1))))
          ≡ₚ map (fun pv => Some (entry_tokens E pv)) (map_to_list (need_of req))) as Hall.
  { rewrite <- Hperm, Hrl. erewrite map_ext; [reflexivity |].
    intros li. by apply stmt_pair_ext. }
  split; [exact Hall |].
  apply Permutation_length in Hall. rewrite !length_map in Hall.
  by rewrite Hall, length_map_to_list.
Qed.

End SetRequireExact.

Lemma sample_tree_ok : require_tree_ok (fSyntax (decoded sample_tree)).
Proof.
  split; [exact sample_tree_NoDup |].
  intros li Hli. vm_compute in Hli.
  apply elem_of_cons in Hli as [-> | Hli]; [vm_compute; lia |].
  apply list_elem_of_singleton in Hli as ->. vm_compute. lia.
Qed.

Lemma sample_tree_in_store : tree_in_store (fSyntax (decoded sample_tree)).
Proof.
  intros l Hl. vm_compute in Hl.
  repeat (apply elem_of_cons in Hl as [-> | Hl]; [by eexists |]).
  by apply elem_of_nil in Hl.
Qed.

Lemma sample_tree_handles_apart : other_handles_apart (decoded sample_tree).
Proof.
  intros l Hl. vm_compute in Hl.
  assert (l = 3 \/ l = 4) as Hcase.
  { apply elem_of_cons in Hl as [[= ->] | Hl]; [by left |].
    apply list_elem_of_singleton in Hl as [= ->]. by right. }
  destruct Hcase as [-> | ->]; (split; [vm_compute; by repeat constructor |]);
    intros H; vm_compute in H;
    repeat (apply elem_of_cons in H as [[=] | H]); by apply elem_of_nil in H.
Qed.

(** The theorem on the sample file, with a map of two entries. *)
Lemma SetRequire_exact_witness :
  range_visits_all GoEnv.env /\ sort_Slice_contract GoEnv.env /\
  require_tree_ok (fSyntax (decoded sample_tree)) /\
  tree_in_store (fSyntax (decoded sample_tree)) /\
  other_handles_apart (decoded sample_tree) /\
  exists f',
    SetRequire GoEnv.env (decoded sample_tree)
      [mkVersion "example.com/a" "v1.3.0"; mkVersion "example.com/c" "v0.1.0"]
    = Some f' /\
    length (require_lines (fSyntax f') (Stmt (fSyntax f'))) = 2.
Proof.
  split; [exact GoEnv_range_visits_all |]. split; [exact GoEnv_sort_contract |].
  split; [exact sample_tree_ok |]. split; [exact sample_tree_in_store |].
  split; [exact sample_tree_handles_apart |].
  destruct (SetRequire_exact GoEnv.env (decoded sample_tree)
              [mkVersion "example.com/a" "v1.3.0"; mkVersion "example.com/c" "v0.1.0"]
              GoEnv_range_visits_all GoEnv_sort_contract
              sample_tree_ok sample_tree_in_store sample_tree_handles_apart)
    as (f' & H1 & _ & H3).
  exists f'. split; [exact H1 |]. rewrite H3. by vm_compute.
Defined.

(** ** Rejected statements *)

Section Rejection.
Variable E : Externals.

Lemma add_outcome f errs l verb off fix_ :
  let f' := (add E f errs l verb off fix_).1 in
  let errs' := (add E f errs l verb off fix_).2 in
  (errs' = errs /\ record_created verb f f' l) \/
  ((exists m, errs' = errs ++ [mkDiag (Name (fSyntax f))
                                 (StartLine (line_at (fSyntax f) l)) m]) /\
   rejected_records verb f f' l).
Proof.
  cbn zeta. unfold add, rejected_records.
  destruct (String.eqb_spec verb "module") as [-> | Hm].
  { destruct (fModule f) as [m |] eqn:Hmod.
    - right. cbn. rewrite Hmod. split; [eauto |]. by repeat split.
    - destruct (decode_module E _) as [args' [m | s]]; cbn.
      + right. split; [eauto |]. by repeat split.
      + left. split; [done |]. left. repeat split; eauto. }
  destruct (String.eqb_spec verb "require") as [-> | Hr]; cbn [orb].
  { destruct (decode_require E _ _ _) as [args' [m | v]]; cbn.
    - right. split; [eauto |]. repeat split; by destruct (fModule f).
    - left. split; [done |]. right; left. repeat split; eauto. }
  destruct (String.eqb_spec verb "exclude") as [-> | Hx].
  { destruct (decode_require E _ _ _) as [args' [m | v]]; cbn.
    - right. split; [eauto |]. repeat split; by destruct (fModule f).
    - left. split; [done |]. right; right; left. repeat split; eauto. }
  destruct (String.eqb_spec verb "replace") as [-> | Hp].
  { destruct (decode_replace E _ _ _) as [args' [m | [old new]]]; cbn.
    - right. split; [eauto |]. repeat split; by destruct (fModule f).
    - left. split; [done |]. right; right; right. repeat split; eauto. }
  right. cbn. split; [eauto |]. repeat split; by destruct (fModule f).
Qed.

(** No call of [add] removes or changes a record that is there. *)
Lemma add_records_grow f errs l verb off fix_ :
  let f' := (add E f errs l verb off fix_).1 in
  (exists rs, fRequire f' = fRequire f ++ rs) /\
  (exists xs, fExclude f' = fExclude f ++ xs) /\
  (exists ps, fReplace f' = fReplace f ++ ps) /\
  (forall m, fModule f = Some m -> fModule f' = Some m).
Proof.
  cbn zeta.
  destruct (add_outcome f errs l verb off fix_) as [[_ Hc] | [_ (Hr & Hx & Hp & Hm)]].
  - destruct Hc as [(_ & Hn & _ & Hr & Hx & Hp) | [(_ & Hm & [v Hr] & Hx & Hp) |
                    [(_ & Hm & Hr & [v Hx] & Hp) | (_ & Hm & Hr & Hx & [o [n Hp]])]]].
    + rewrite Hr, Hx, Hp. repeat split; try (exists []; by rewrite app_nil_r).
      intros m Hs. by rewrite Hs in Hn.
    + rewrite Hr, Hx, Hp, Hm. repeat split; eauto; exists []; by rewrite app_nil_r.
    + rewrite Hr, Hx, Hp, Hm. repeat split; eauto; exists []; by rewrite app_nil_r.
    + rewrite Hr, Hx, Hp, Hm. repeat split; eauto; exists []; by rewrite app_nil_r.
  - rewrite Hr, Hx, Hp, Hm. repeat split; try (exists []; by rewrite app_nil_r).
    intros m Hs. by rewrite Hs.
Qed.

Lemma decode_loop_grows file fix_ stmts f errs f' errs' :
  decode_loop E file fix_ stmts (f, errs) = Some (f', errs') ->
  (exists rs, fRequire f' = fRequire f ++ rs) /\
  (exists xs, fExclude f' = fExclude f ++ xs) /\
  (exists ps, fReplace f' = fReplace f ++ ps) /\
  (forall m, fModule f = Some m -> fModule f' = Some m).
Proof.
  intros Hd.
  apply (decode_loop_pres E
           (fun g => (exists rs, fRequire g = fRequire f ++ rs) /\
                     (exists xs, fExclude g = fExclude f ++ xs) /\
                     (exists ps, fReplace g = fReplace f ++ ps) /\
                     (forall m, fModule f = Some m -> fModule g = Some m))
           file fix_ stmts (f, errs) (f', errs')); [| | exact Hd].
  - intros g errs0 l verb off _ ([rs Hr] & [xs Hx] & [ps Hp] & Hm).
    destruct (add_records_grow g errs0 l verb off fix_)
      as ([rs' Hr'] & [xs' Hx'] & [ps' Hp'] & Hm').
    rewrite Hr', Hx', Hp', Hr, Hx, Hp, <- !app_assoc. repeat split; eauto.
  - cbn. repeat split; try (exists []; by rewrite app_nil_r). done.
Qed.

Lemma decode_loop_accumulates file fix_ stmts : forall f errs f' errs',
  decode_loop E file fix_ stmts (f, errs) = Some (f', errs') ->
  exists ds, errs' = errs ++ ds.
Proof.
  induction stmts as [|x stmts IH]; intros f errs f' errs'; cbn [decode_loop].
  - intros [= <- <-]. exists []. by rewrite app_nil_r.
  - destruct (decode_stmt E file fix_ (f, errs) x) as [[f1 errs1] |] eqn:Hx; [| done].
    intros Hl. apply (decode_stmt_accumulates E) in Hx as [ds1 ->].
    apply IH in Hl as [ds ->]. exists (ds1 ++ ds). by rewrite app_assoc.
Qed.

(** C6, as amended.  Every call of [add] either prints nothing and creates
    the record of its statement, or prints one diagnostic, for the line of
    the statement, and leaves the Require, Exclude and Replace records as
    they were; the Module record is then as it was too, except that a
    module statement met while the file has no Module record installs the
    record, without a path, and a rejection for the argument count or the
    quoting leaves it there.  A block with an unknown or a longer header
    prints one diagnostic and leaves the whole file as it was.  The loop of
    [Parse] stops on no diagnostic: it fails only on a statement without
    tokens.  After a statement, rejected or not, the statements that follow
    are decoded from the state it left, and inside a block the lines that
    follow a line are decoded from the state that line left.  Over the
    whole loop the diagnostics and the records only grow: no record
    created before a rejection is lost.  On the tree with an unknown
    directive, a require block whose second line has the wrong major, a
    block of unknown type and an exclude statement, the three rejections
    are reported and the three other statements have their records. *)
Theorem add_rejection_creates_no_dependency_record :
  (forall f errs l verb off fix_,
     let f' := (add E f errs l verb off fix_).1 in
     let errs' := (add E f errs l verb off fix_).2 in
     (errs' = errs /\ record_created verb f f' l) \/
     ((exists m, errs' = errs ++ [mkDiag (Name (fSyntax f))
                                    (StartLine (line_at (fSyntax f) l)) m]) /\
      rejected_records verb f f' l)) /\
  (forall file fix_ f errs b verb ts,
     BToken b = verb :: ts -> ts <> [] \/ known_block verb = false ->
     decode_stmt E file fix_ (f, errs) (ELineBlock b)
     = Some (f, errs ++ [mkDiag file (BStart b) (UnknownBlockType (BToken b))])) /\
  (forall file fix_ stmts f errs,
     decode_loop E file fix_ stmts (f, errs) = None <->
     exists x, x ∈ stmts /\ tokenless (fSyntax f) x) /\
  (forall file fix_ xs x ys st,
     decode_loop E file fix_ (xs ++ x :: ys) st =
     decode_loop E file fix_ xs st ≫= fun st1 =>
     decode_stmt E file fix_ st1 x ≫= decode_loop E file fix_ ys) /\
  (forall file fix_ f errs l verb ts,
     tokens_at (fSyntax f) l = verb :: ts ->
     decode_stmt E file fix_ (f, errs) (ELine l) = Some (add E f errs l verb 1 fix_)) /\
  (forall file fix_ st b verb pre l post,
     BToken b = [verb] -> known_block verb = true -> BLine b = pre ++ l :: post ->
     let step := fun (st : File * list Diag) l => add E st.1 st.2 l verb 0 fix_ in
     decode_stmt E file fix_ st (ELineBlock b)
     = Some (fold_left step post (step (fold_left step pre st) l))) /\
  (forall file fix_ stmts f errs f' errs',
     decode_loop E file fix_ stmts (f, errs) = Some (f', errs') ->
     (exists ds, errs' = errs ++ ds) /\
     (exists rs, fRequire f' = fRequire f ++ rs) /\
     (exists xs, fExclude f' = fExclude f ++ xs) /\
     (exists ps, fReplace f' = fReplace f ++ ps) /\
     (forall m, fModule f = Some m -> fModule f' = Some m)) /\
  option_map (fun st : File * list Diag =>
                (fModule st.1, fRequire st.1, fExclude st.1, fReplace st.1, st.2))
    (decode GoEnv.env "go.mod" rejected_tree None)
  = Some (None,
          [mkRequire (mkVersion "example.com/a" "v1.0.0") (Some 1);
           mkRequire (mkVersion "example.com/c" "v1.2.3") (Some 3)],
          [mkExclude (mkVersion "example.com/e" "v1.0.0") (Some 5)],
          [],
          [mkDiag "go.mod" 1 (UnknownDirective "bogus");
           mkDiag "go.mod" 4 (InvalidModule "example.com/b/v2" "v2" "v1" "v1.0.0");
           mkDiag "go.mod" 7 (UnknownBlockType ["retract"])]).
Proof.
  split; [exact add_outcome |].
  split.
  { intros file fix_ f errs b verb ts Hb Hrej. unfold decode_stmt. rewrite Hb.
    destruct ts as [|t ts]; cbn [length Nat.ltb Nat.leb]; [| done].
    destruct Hrej as [Hts | Hk]; [done | by rewrite Hk]. }
  split; [intros file fix_ stmts f errs; by apply decode_loop_panics |].
  split.
  { intros file fix_ xs x ys st. rewrite decode_loop_app.
    destruct (decode_loop E file fix_ xs st) as [st1 |]; cbn; [| done].
    by destruct (decode_stmt E file fix_ st1 x). }
  split; [intros file fix_ f errs l verb ts Ht; unfold decode_stmt; by rewrite Ht |].
  split.
  { intros file fix_ [f errs] b verb pre l post Hb Hk Hl step. unfold decode_stmt.
    rewrite Hb, Hk, Hl. cbn [length Nat.ltb Nat.leb]. by rewrite fold_left_app. }
  split; [| by vm_compute].
  intros file fix_ stmts f errs f' errs' Hd.
  split; [by eapply decode_loop_accumulates | by eapply decode_loop_grows].
Qed.

End Rejection.
